(** * The staged bootstrap scheduler of atlas (LoaderService)

    A shallow embedding of
    - [packages/shared/src/services/base-event.service.ts]
      (classes [UtilsService] and [LoaderService]),
    - [packages/atlas-shared/src/decorators/loader.decorator.ts] ([Autoload]),
    - the model class [LoaderServiceQueueItemModel],
    followed by the properties of the scheduler.

    The service is event driven.  One synchronous run of service code (a
    call of [bootstrap] or [done], a timer callback, a next-tick callback,
    a bound done callback called by a started method) is one transition of
    a labelled transition system on [World]; what the service asks of its
    collaborators (timers, ticks, the logger, the started methods, the
    callbacks given to [done]) is appended to the world's [trace]. *)

From Stdlib Require Import List Bool Arith ZArith Lia String Ascii.
From Stdlib Require Import DecimalString.
Import ListNotations.
Local Open Scope string_scope.
Local Open Scope list_scope.

Set Implicit Arguments.

(** ** Data model *)

(** [LoaderServiceQueueType]: the name of one of the four phase queues;
    [this.queue[queueItem.type]] selects the queue of that name. *)
Inductive LoaderServiceQueueType : Type :=
| frameworkBeforeBoot
| before
| after
| frameworkAfterBoot.

Definition type_eqb (p q : LoaderServiceQueueType) : bool :=
  match p, q with
  | frameworkBeforeBoot, frameworkBeforeBoot => true
  | before, before => true
  | after, after => true
  | frameworkAfterBoot, frameworkAfterBoot => true
  | _, _ => false
  end.

(** The queue whose processing a drained queue triggers ([bootstrap]). *)
Definition nextPhase (p : LoaderServiceQueueType) : option LoaderServiceQueueType :=
  match p with
  | frameworkBeforeBoot => Some before
  | before => Some after
  | after => Some frameworkAfterBoot
  | frameworkAfterBoot => None
  end.

(** [target: string | constructor<any>]: a string token, or a class, which
    has a [name]; two classes may carry the same name. *)
Inductive InjectionToken : Type :=
| TokenString (token : string)
| TokenClass (classId : nat) (name : string).

(** [LoaderServiceQueueItemModel]. *)
Record LoaderServiceQueueItemModel : Type := mkItem {
  type : LoaderServiceQueueType;
  target : InjectionToken;
  methodName : string;
  doneCheckTimeout : Z
}.

(** A JS [Map<string, V>]: iteration order is insertion order; [set] on a
    present key replaces the value where the key already stands. *)
Definition JsMap (V : Type) : Type := list (string * V).

Fixpoint map_set {V} (k : string) (v : V) (m : JsMap V) : JsMap V :=
  match m with
  | [] => [(k, v)]
  | (k', v') :: rest =>
      if String.eqb k' k then (k, v) :: rest else (k', v') :: map_set k v rest
  end.

Definition map_delete {V} (k : string) (m : JsMap V) : JsMap V :=
  filter (fun kv => negb (String.eqb (fst kv) k)) m.

Definition map_size {V} (m : JsMap V) : nat := List.length m.

(** [m.keys().next().value] together with [m.values().next().value]. *)
Definition map_first {V} (m : JsMap V) : option (string * V) := hd_error m.

Definition map_keys {V} (m : JsMap V) : list string := map fst m.

(** ** Strings: [split('_')] and template literals *)

Fixpoint split_from (sep : ascii) (cur : string) (s : string) : list string :=
  match s with
  | EmptyString => [cur]
  | String c rest =>
      if Ascii.eqb c sep then cur :: split_from sep "" rest
      else split_from sep (cur ++ String c "") rest
  end.

(** [s.split('_')]. *)
Definition split_underscore (s : string) : list string :=
  split_from "_"%char "" s.

(** A destructured array element inside a template literal: a missing
    element is [undefined] and prints as such. *)
Definition element (i : nat) (parts : list string) : string :=
  nth i parts "undefined".

Definition number_to_string (z : Z) : string :=
  NilZero.string_of_int (Z.to_int z).

(** Whether the character occurs in the string. *)
Fixpoint hasChar (c : ascii) (s : string) : bool :=
  match s with
  | EmptyString => false
  | String c' rest => Ascii.eqb c' c || hasChar c rest
  end.

(** ** What runs later: listeners handed to the host *)

(** The closures the service hands to [nextTick], [setTimeout] and
    [autoClearSetTimeout]. *)
Inductive Listener : Type :=
| LProcessQueue (p : LoaderServiceQueueType)
    (* () => this.processQueue(this.queue.p, this.queue.pCount) *)
| LFinishUp (target : InjectionToken)
    (* () => { this.finishUpBooting(target); container.resolve(target) } *)
| LFinish
    (* () => { finishSubject$.next(true); finishSubject$.complete() } *)
| LStartLoading
    (* the listener of startLoading, wrapped by autoClearSetTimeout *)
| LDoneTimeout (moduleName method : string) (timeoutDuration : Z).
    (* () => this.setupDoneTimeout(moduleName, methodName, duration, ownId) *)

(** Values a callback can be called with. *)
Inductive JsValue : Type :=
| JsBool (b : bool)
| JsNumber (z : Z).

(** What a run of service code asks of its collaborators, and (for
    [EvDone]) which bound done callback a started method called. *)
Inductive Event : Type :=
| EvLog (message : string)
| EvSetTimeout (id : nat) (l : Listener) (duration : Z)
| EvClearInterval (id : nat)
| EvClearTimeout (id : nat)
| EvNextTick (l : Listener)
| EvInvoke (p : LoaderServiceQueueType) (key : string)
    (item : LoaderServiceQueueItemModel) (timeoutId : nat)
| EvDone (p : LoaderServiceQueueType) (key : string) (timeoutId : nat)
| EvCallback (callback : nat) (args : list JsValue).

(** ** rxjs subjects, with the observers the service subscribes *)

(** Observers of a count subject:
    - [pipe(takeLast(1)).subscribe(() => nextTick(listener))] of [bootstrap],
      with the value [takeLast] holds back until completion;
    - [pipe(filter(size => size !== 0)).subscribe(() => processQueueItem(..))]
      of [processQueue]. *)
Inductive CountObserver : Type :=
| ObsTakeLast (buffer : option nat) (listener : Listener)
| ObsFilterNonZero.

Record Subject (O : Type) : Type := mkSubject {
  observers : list O;
  isStopped : bool
}.

Definition newSubject (O : Type) : Subject O := mkSubject [] false.

(** [subject.subscribe(o)]: a stopped (completed) subject completes the new
    observer at once and keeps no reference to it. *)
Definition subscribe {O} (o : O) (s : Subject O) : Subject O :=
  if isStopped s then s else mkSubject (observers s ++ [o]) false.

(** [LoaderServiceQueueModel]: four maps and their four count subjects.
    The class is not among the sources at hand; its fields are those the
    service reads, and the counts are plain rxjs subjects, as the
    signatures of [doneCallback] and [processQueue] have them
    ([Subject<number>]). *)
Record LoaderServiceQueueModel : Type := mkQueueModel {
  q_frameworkBeforeBoot : JsMap LoaderServiceQueueItemModel;
  q_before : JsMap LoaderServiceQueueItemModel;
  q_after : JsMap LoaderServiceQueueItemModel;
  q_frameworkAfterBoot : JsMap LoaderServiceQueueItemModel;
  frameworkBeforeBootCount : Subject CountObserver;
  beforeCount : Subject CountObserver;
  afterCount : Subject CountObserver;
  frameworkAfterBootCount : Subject CountObserver
}.

Definition newQueueModel : LoaderServiceQueueModel :=
  mkQueueModel [] [] [] []
    (newSubject _) (newSubject _) (newSubject _) (newSubject _).

Definition getMap (p : LoaderServiceQueueType) (q : LoaderServiceQueueModel)
  : JsMap LoaderServiceQueueItemModel :=
  match p with
  | frameworkBeforeBoot => q_frameworkBeforeBoot q
  | before => q_before q
  | after => q_after q
  | frameworkAfterBoot => q_frameworkAfterBoot q
  end.

Definition setMap (p : LoaderServiceQueueType)
  (m : JsMap LoaderServiceQueueItemModel) (q : LoaderServiceQueueModel)
  : LoaderServiceQueueModel :=
  match p with
  | frameworkBeforeBoot =>
      mkQueueModel m (q_before q) (q_after q) (q_frameworkAfterBoot q)
        (frameworkBeforeBootCount q) (beforeCount q) (afterCount q)
        (frameworkAfterBootCount q)
  | before =>
      mkQueueModel (q_frameworkBeforeBoot q) m (q_after q) (q_frameworkAfterBoot q)
        (frameworkBeforeBootCount q) (beforeCount q) (afterCount q)
        (frameworkAfterBootCount q)
  | after =>
      mkQueueModel (q_frameworkBeforeBoot q) (q_before q) m (q_frameworkAfterBoot q)
        (frameworkBeforeBootCount q) (beforeCount q) (afterCount q)
        (frameworkAfterBootCount q)
  | frameworkAfterBoot =>
      mkQueueModel (q_frameworkBeforeBoot q) (q_before q) (q_after q) m
        (frameworkBeforeBootCount q) (beforeCount q) (afterCount q)
        (frameworkAfterBootCount q)
  end.

Definition getCount (p : LoaderServiceQueueType) (q : LoaderServiceQueueModel)
  : Subject CountObserver :=
  match p with
  | frameworkBeforeBoot => frameworkBeforeBootCount q
  | before => beforeCount q
  | after => afterCount q
  | frameworkAfterBoot => frameworkAfterBootCount q
  end.

Definition setCount (p : LoaderServiceQueueType) (c : Subject CountObserver)
  (q : LoaderServiceQueueModel) : LoaderServiceQueueModel :=
  match p with
  | frameworkBeforeBoot =>
      mkQueueModel (q_frameworkBeforeBoot q) (q_before q) (q_after q)
        (q_frameworkAfterBoot q) c (beforeCount q) (afterCount q)
        (frameworkAfterBootCount q)
  | before =>
      mkQueueModel (q_frameworkBeforeBoot q) (q_before q) (q_after q)
        (q_frameworkAfterBoot q) (frameworkBeforeBootCount q) c (afterCount q)
        (frameworkAfterBootCount q)
  | after =>
      mkQueueModel (q_frameworkBeforeBoot q) (q_before q) (q_after q)
        (q_frameworkAfterBoot q) (frameworkBeforeBootCount q) (beforeCount q) c
        (frameworkAfterBootCount q)
  | frameworkAfterBoot =>
      mkQueueModel (q_frameworkBeforeBoot q) (q_before q) (q_after q)
        (q_frameworkAfterBoot q) (frameworkBeforeBootCount q) (beforeCount q)
        (afterCount q) c
  end.

(** ** The world: the service and the host around it *)

(** The collaborators the service resolves from the container:
    - [hostResolve target]: [container.resolve(target)]; [None] when the
      container throws, else the instance, seen as the function telling
      whether [instance[m]] is truthy;
    - [hostClearIntervalCancelsTimeout]: whether the host's
      [clearInterval] also cancels a handle made by its [setTimeout];
    - [hostFirstTimerId]: the first handle its [setTimeout] returns. *)
Record Host : Type := mkHost {
  hostResolve : InjectionToken -> option (string -> bool);
  hostClearIntervalCancelsTimeout : bool;
  hostFirstTimerId : nat
}.

Record World : Type := mkWorld {
  queue : LoaderServiceQueueModel;
  (* startingSubject$: each observer is takeLast(1), filter(value => value),
     then nextTick(processQueue(frameworkBeforeBoot)); the option is the
     value takeLast holds back *)
  startingSubject : Subject (option bool);
  (* finishSubject$: each observer is filter(isFinished => isFinished),
     then the callback given to done *)
  finishSubject : Subject nat;
  isBootstrapped : bool;
  (* Reflect metadata QUEUE_ITEM of the service *)
  metadata : list LoaderServiceQueueItemModel;
  (* host: callbacks waiting for a next tick, one-shot timers not yet
     fired, the next timer handle *)
  pendingTicks : list Listener;
  pendingTimers : list (nat * Listener);
  nextTimerId : nat;
  (* newest event first *)
  trace : list Event
}.

Definition setQueue (q : LoaderServiceQueueModel) (w : World) : World :=
  mkWorld q (startingSubject w) (finishSubject w) (isBootstrapped w)
    (metadata w) (pendingTicks w) (pendingTimers w) (nextTimerId w) (trace w).

Definition setStartingSubject (s : Subject (option bool)) (w : World) : World :=
  mkWorld (queue w) s (finishSubject w) (isBootstrapped w)
    (metadata w) (pendingTicks w) (pendingTimers w) (nextTimerId w) (trace w).

Definition setFinishSubject (s : Subject nat) (w : World) : World :=
  mkWorld (queue w) (startingSubject w) s (isBootstrapped w)
    (metadata w) (pendingTicks w) (pendingTimers w) (nextTimerId w) (trace w).

Definition setIsBootstrapped (b : bool) (w : World) : World :=
  mkWorld (queue w) (startingSubject w) (finishSubject w) b
    (metadata w) (pendingTicks w) (pendingTimers w) (nextTimerId w) (trace w).

Definition setPendingTicks (t : list Listener) (w : World) : World :=
  mkWorld (queue w) (startingSubject w) (finishSubject w) (isBootstrapped w)
    (metadata w) t (pendingTimers w) (nextTimerId w) (trace w).

Definition setPendingTimers (t : list (nat * Listener)) (w : World) : World :=
  mkWorld (queue w) (startingSubject w) (finishSubject w) (isBootstrapped w)
    (metadata w) (pendingTicks w) t (nextTimerId w) (trace w).

Definition emit (e : Event) (w : World) : World :=
  mkWorld (queue w) (startingSubject w) (finishSubject w) (isBootstrapped w)
    (metadata w) (pendingTicks w) (pendingTimers w) (nextTimerId w)
    (e :: trace w).

Definition getQueue (p : LoaderServiceQueueType) (w : World)
  : JsMap LoaderServiceQueueItemModel := getMap p (queue w).

Definition getSubject (p : LoaderServiceQueueType) (w : World)
  : Subject CountObserver := getCount p (queue w).

(** A service that has not been bootstrapped, with the queue items the
    decorators left in its metadata. *)
Definition initialWorld (host : Host) (items : list LoaderServiceQueueItemModel)
  : World :=
  mkWorld newQueueModel (newSubject _) (newSubject _) false items [] []
    (hostFirstTimerId host) [].

(** ** UtilsService *)

Definition cancelTimer (id : nat) (timers : list (nat * Listener))
  : list (nat * Listener) :=
  filter (fun t => negb (Nat.eqb (fst t) id)) timers.

(** [UtilsService.log]. *)
Definition log (message : string) (w : World) : World := emit (EvLog message) w.

(** [UtilsService.setTimeout]: returns the host's handle. *)
Definition setTimeout (l : Listener) (duration : Z) (w : World) : nat * World :=
  let id := nextTimerId w in
  (id,
   mkWorld (queue w) (startingSubject w) (finishSubject w) (isBootstrapped w)
     (metadata w) (pendingTicks w) (pendingTimers w ++ [(id, l)]) (S id)
     (EvSetTimeout id l duration :: trace w)).

(** [UtilsService.nextTick]. *)
Definition nextTick (l : Listener) (w : World) : World :=
  emit (EvNextTick l) (setPendingTicks (pendingTicks w ++ [l]) w).

(** [UtilsService.clearTimeout]. *)
Definition clearTimeout (id : nat) (w : World) : World :=
  emit (EvClearTimeout id) (setPendingTimers (cancelTimer id (pendingTimers w)) w).

Section Service.

Variable host : Host.

(** [UtilsService.clearInterval]: what it does to a timeout handle is the
    host's business. *)
Definition clearInterval (id : nat) (w : World) : World :=
  emit (EvClearInterval id)
    (if hostClearIntervalCancelsTimeout host
     then setPendingTimers (cancelTimer id (pendingTimers w)) w
     else w).

(** ** LoaderService *)

Definition missingMethodMessage (moduleName method : string) : string :=
  "~lb~[Module: " ++ moduleName ++ "]~w~ - ~r~{Method: " ++ method
    ++ "} does not exists~w~".

(** [processQueueItem].  The method is started with its bound done
    callback ([EvInvoke]); what the method does with the callback, before
    or after it returns, are [ActComplete] transitions of their own.  A
    throwing [container.resolve] rejects the promise of this async
    function, which no caller looks at. *)
Definition processQueueItem (p : LoaderServiceQueueType) (w : World) : World :=
  match map_first (getQueue p w) with
  | None => w
  | Some (nextKey, nextItem) =>
      match hostResolve host (target nextItem) with
      | None => w
      | Some instance =>
          let checkTimeoutDuration := doneCheckTimeout nextItem in
          let parts := split_underscore nextKey in
          let moduleName := element 0 parts in
          let method := element 1 parts in
          if negb (instance (methodName nextItem)) then
            log (missingMethodMessage moduleName method) w
          else
            let (doneCheckTimeoutId, w1) :=
              setTimeout (LDoneTimeout moduleName method checkTimeoutDuration)
                checkTimeoutDuration w in
            emit (EvInvoke p nextKey nextItem doneCheckTimeoutId) w1
      end
  end.

(** [propertyCount.next(size)]: every observer's [next] in subscription
    order.  [takeLast] only stores the value; since storing it cannot be
    observed by [processQueueItem], the buffers are written first. *)
Definition bufferValue (v : nat) (o : CountObserver) : CountObserver :=
  match o with
  | ObsTakeLast _ l => ObsTakeLast (Some v) l
  | ObsFilterNonZero => ObsFilterNonZero
  end.

Definition deliver (p : LoaderServiceQueueType) (v : nat) (w : World)
  (o : CountObserver) : World :=
  match o with
  | ObsTakeLast _ _ => w
  | ObsFilterNonZero => if Nat.eqb v 0 then w else processQueueItem p w
  end.

Definition countNext (p : LoaderServiceQueueType) (v : nat) (w : World) : World :=
  let c := getSubject p w in
  if isStopped c then w
  else
    let c' := mkSubject (map (bufferValue v) (observers c)) false in
    fold_left (deliver p v) (observers c) (setQueue (setCount p c' (queue w)) w).

(** [propertyCount.complete()]: no-op on a stopped subject; else the
    subject stops, every observer completes ([takeLast] then emits the
    value it holds, which runs the subscriber of [bootstrap]) and the
    observer list is emptied. *)
Definition completeObserver (w : World) (o : CountObserver) : World :=
  match o with
  | ObsTakeLast (Some _) l => nextTick l w
  | ObsTakeLast None _ => w
  | ObsFilterNonZero => w
  end.

Definition countComplete (p : LoaderServiceQueueType) (w : World) : World :=
  let c := getSubject p w in
  if isStopped c then w
  else
    fold_left completeObserver (observers c)
      (setQueue (setCount p (mkSubject [] true) (queue w)) w).

(** [doneCallback(property, propertyCount, key = null, doneCheckIntervalId?)]. *)
Definition doneCallback (p : LoaderServiceQueueType) (key : option string)
  (doneCheckIntervalId : option nat) (w : World) : World :=
  let w1 :=
    match doneCheckIntervalId with
    | Some id => if Nat.eqb id 0 then w else clearInterval id w
    | None => w
    end in
  let w2 :=
    match key with
    | Some k => setQueue (setMap p (map_delete k (getQueue p w1)) (queue w1)) w1
    | None => w1
    end in
  let w3 := countNext p (map_size (getQueue p w2)) w2 in
  if Nat.eqb (map_size (getQueue p w3)) 0 then countComplete p w3 else w3.

(** [processQueue]. *)
Definition processQueue (p : LoaderServiceQueueType) (w : World) : World :=
  if Nat.eqb (map_size (getQueue p w)) 0 then doneCallback p None None w
  else
    let w1 :=
      setQueue (setCount p (subscribe ObsFilterNonZero (getSubject p w)) (queue w)) w in
    processQueueItem p w1.

Definition targetName (t : InjectionToken) : string :=
  match t with
  | TokenString token => token
  | TokenClass _ name => name
  end.

Definition identifier (queueItem : LoaderServiceQueueItemModel) : string :=
  targetName (target queueItem) ++ "_" ++ methodName queueItem.

(** [add]. *)
Definition add (queueItem : LoaderServiceQueueItemModel)
  (q : LoaderServiceQueueModel) : LoaderServiceQueueModel :=
  setMap (type queueItem)
    (map_set (identifier queueItem) queueItem (getMap (type queueItem) q)) q.

(** [resolveMetaDataAndAdd]. *)
Definition resolveMetaDataAndAdd (w : World) : World :=
  setQueue (fold_left (fun q queueItem => add queueItem q) (metadata w) (queue w)) w.

(** [startLoading]. *)
Definition startLoading (w : World) : World :=
  snd (setTimeout LStartLoading 125 w).

(** [setupQueueCounts]. *)
Definition setupQueueCounts (w : World) : World :=
  let w1 := countNext frameworkBeforeBoot
              (map_size (getQueue frameworkBeforeBoot w)) w in
  let w2 := countNext before (map_size (getQueue before w1)) w1 in
  let w3 := countNext after (map_size (getQueue after w2)) w2 in
  countNext frameworkAfterBoot (map_size (getQueue frameworkAfterBoot w3)) w3.

Definition subscribeCount (p : LoaderServiceQueueType) (o : CountObserver)
  (w : World) : World :=
  setQueue (setCount p (subscribe o (getSubject p w)) (queue w)) w.

(** [bootstrap]. *)
Definition bootstrap (target : InjectionToken) (w : World) : World :=
  if isBootstrapped w then w
  else
    let w := resolveMetaDataAndAdd w in
    let w := subscribeCount frameworkBeforeBoot
               (ObsTakeLast None (LProcessQueue before)) w in
    let w := subscribeCount before (ObsTakeLast None (LProcessQueue after)) w in
    let w := subscribeCount after
               (ObsTakeLast None (LProcessQueue frameworkAfterBoot)) w in
    let w := subscribeCount frameworkAfterBoot
               (ObsTakeLast None (LFinishUp target)) w in
    let w := setStartingSubject (subscribe None (startingSubject w)) w in
    let w := setupQueueCounts w in
    let w := startLoading w in
    setIsBootstrapped true w.

(** [done]. *)
Definition done (callback : nat) (w : World) : World :=
  setFinishSubject (subscribe callback (finishSubject w)) w.

(** [setupDoneTimeout]. *)
Definition setupDoneTimeout (moduleName method : string) (timeoutDuration : Z)
  (timeoutId : nat) (w : World) : World :=
  let w := log ("~lb~[Module: " ++ moduleName ++ "]~y~{Method: " ++ method
                ++ "}~w~ - ~r~Have you maybe forgotten the done callback?~w~") w in
  let w := log ("~y~If not, increase decorator runtime parameter ~w~[yours: "
                ++ number_to_string timeoutDuration
                ++ "ms] ~lg~[default: 5000ms] ~w~") w in
  clearInterval timeoutId w.

(** [startingSubject$.next(value)] and [.complete()]. *)
Definition startingNext (value : bool) (w : World) : World :=
  let s := startingSubject w in
  if isStopped s then w
  else setStartingSubject (mkSubject (map (fun _ => Some value) (observers s)) false) w.

Definition completeStartingObserver (w : World) (o : option bool) : World :=
  match o with
  | Some true => nextTick (LProcessQueue frameworkBeforeBoot) w
  | _ => w
  end.

Definition startingComplete (w : World) : World :=
  let s := startingSubject w in
  if isStopped s then w
  else fold_left completeStartingObserver (observers s)
         (setStartingSubject (mkSubject [] true) w).

(** [finishSubject$.next(value)]: the subscriber of [done] is the callback
    itself, so rxjs calls it with the value that passed the filter. *)
Definition finishNext (value : bool) (w : World) : World :=
  let s := finishSubject w in
  if isStopped s then w
  else fold_left
         (fun w callback =>
            if value then emit (EvCallback callback [JsBool value]) w else w)
         (observers s) w.

Definition finishComplete (w : World) : World :=
  let s := finishSubject w in
  if isStopped s then w else setFinishSubject (mkSubject [] true) w.

(** [finishUpBooting(target)] together with the [container.resolve(target)]
    that follows it in the tick callback of [bootstrap]: the
    [afterResolution] callback that [finishUpBooting] registers, with
    frequency [Once], runs within that resolution and asks for the next
    tick that fires the finish subject; nothing happens if the container
    throws. *)
Definition finishUpBooting (target : InjectionToken) (w : World) : World :=
  match hostResolve host target with
  | Some _ => nextTick LFinish w
  | None => w
  end.

(** ** Transitions *)

(** A callback given to [nextTick] runs. *)
Definition runTick (l : Listener) (w : World) : World :=
  match l with
  | LProcessQueue p => processQueue p w
  | LFinishUp target => finishUpBooting target w
  | LFinish => finishComplete (finishNext true w)
  | LStartLoading => w
  | LDoneTimeout _ _ _ => w
  end.

(** A callback given to [setTimeout] runs, [id] being its own handle. *)
Definition runTimer (id : nat) (l : Listener) (w : World) : World :=
  match l with
  | LStartLoading =>
      let w := log "~lg~Start booting => ~w~Please wait..." w in
      let w := startingNext true w in
      let w := startingComplete w in
      clearTimeout id w
  | LDoneTimeout moduleName method timeoutDuration =>
      setupDoneTimeout moduleName method timeoutDuration id w
  | _ => w
  end.

Inductive Action : Type :=
| ActBootstrap (target : InjectionToken)
| ActDone (callback : nat)
| ActTimer (id : nat)
| ActTick (n : nat)
| ActComplete (p : LoaderServiceQueueType) (key : string) (timeoutId : nat).

Definition isInvoke (p : LoaderServiceQueueType) (key : string) (id : nat)
  (e : Event) : bool :=
  match e with
  | EvInvoke p' key' _ id' => type_eqb p p' && String.eqb key key' && Nat.eqb id id'
  | _ => false
  end.

Fixpoint findTimer (id : nat) (timers : list (nat * Listener)) : option Listener :=
  match timers with
  | [] => None
  | (id', l) :: rest => if Nat.eqb id' id then Some l else findTimer id rest
  end.

Fixpoint removeNth {A} (n : nat) (l : list A) : list A :=
  match n, l with
  | _, [] => []
  | O, _ :: rest => rest
  | S n', x :: rest => x :: removeNth n' rest
  end.

(** One transition; [None] when the action cannot happen in [w]: a timer
    that is not pending, a tick that is not waiting, a done callback that
    was never bound and given to a method. *)
Definition step (a : Action) (w : World) : option World :=
  match a with
  | ActBootstrap target => Some (bootstrap target w)
  | ActDone callback => Some (done callback w)
  | ActTimer id =>
      match findTimer id (pendingTimers w) with
      | Some l => Some (runTimer id l (setPendingTimers (cancelTimer id (pendingTimers w)) w))
      | None => None
      end
  | ActTick n =>
      match nth_error (pendingTicks w) n with
      | Some l => Some (runTick l (setPendingTicks (removeNth n (pendingTicks w)) w))
      | None => None
      end
  | ActComplete p key id =>
      if existsb (isInvoke p key id) (trace w)
      then Some (doneCallback p (Some key) (Some id) (emit (EvDone p key id) w))
      else None
  end.

End Service.

(** A run: the transitions of a list of actions, in order. *)
Fixpoint run (host : Host) (actions : list Action) (w : World) : option World :=
  match actions with
  | [] => Some w
  | a :: rest =>
      match step host a w with
      | Some w' => run host rest w'
      | None => None
      end
  end.

(** ** The [Autoload] decorator *)

(** [AutoloadOptionsInterface]: both fields are optional; [None] is a
    field that is not there. *)
Record AutoloadOptionsInterface : Type := mkOptions {
  optMethodName : option string;
  optDoneCheckTimeout : option Z
}.

Section Decorator.

(** [castToString()] and [castToNumber()] of the json-entity library,
    through which [cast] passes the fields of the model. *)
Variable castToString : string -> string.
Variable castToNumber : Z -> Z.

(** [{ methodName: 'autoStart', doneCheckTimeout: 5000, ...options }]:
    the spread copies the fields [options] has; spreading [undefined]
    copies nothing. *)
Definition defaultOptions (options : option AutoloadOptionsInterface)
  : string * Z :=
  let supplied (A : Type) (field : AutoloadOptionsInterface -> option A) :=
    match options with
    | Some o => field o
    | None => None
    end in
  (match supplied _ optMethodName with Some m => m | None => "autoStart" end,
   match supplied _ optDoneCheckTimeout with Some t => t | None => 5000%Z end).

(** [new LoaderServiceQueueItemModel().cast({ type, target, ...defaultOptions })]. *)
Definition castQueueItem (ty : LoaderServiceQueueType) (tgt : InjectionToken)
  (options : string * Z) : LoaderServiceQueueItemModel :=
  mkItem ty tgt (castToString (fst options)) (castToNumber (snd options)).

(** [Autoload(type, options)(target)], on the metadata of the loader
    service ([None]: no metadata defined yet). *)
Definition Autoload (ty : LoaderServiceQueueType)
  (options : option AutoloadOptionsInterface) (tgt : InjectionToken)
  (meta : option (list LoaderServiceQueueItemModel))
  : option (list LoaderServiceQueueItemModel) :=
  let config := match meta with Some c => c | None => [] end in
  let queueItemModel := castQueueItem ty tgt (defaultOptions options) in
  Some (config ++ [queueItemModel]).

(** The queue item the decorator has just recorded. *)
Definition recorded (meta : option (list LoaderServiceQueueItemModel))
  : option LoaderServiceQueueItemModel :=
  match meta with
  | Some config => last (map Some config) None
  | None => None
  end.

End Decorator.

(** ** Runs and reachable worlds *)

Inductive reachable (host : Host) (items : list LoaderServiceQueueItemModel)
  : World -> Prop :=
| reach_init : reachable host items (initialWorld host items)
| reach_step : forall w a w',
    reachable host items w -> step host a w = Some w' ->
    reachable host items w'.

(** The events of a trace that are calls of bound done callbacks. *)
Definition isDone (e : Event) : bool :=
  match e with EvDone _ _ _ => true | _ => false end.

Definition isCallback (e : Event) : bool :=
  match e with EvCallback _ _ => true | _ => false end.

(** The drained event of queue [p] is the emission of the [takeLast(1)]
    pipe [bootstrap] subscribed to [p]'s count subject; its subscriber asks
    for a next tick that processes the following queue, or finishes up. *)
Definition isDrained (p : LoaderServiceQueueType) (e : Event) : bool :=
  match e with
  | EvNextTick (LProcessQueue q) =>
      match nextPhase p with Some q' => type_eqb q q' | None => false end
  | EvNextTick (LFinishUp _) => type_eqb p frameworkAfterBoot
  | _ => false
  end.


(** ** Notions used in the proofs *)

(** [f] leaves the part [proj] of the world alone. *)
Definition keeps {A} (proj : World -> A) (f : World -> World) : Prop :=
  forall w, proj (f w) = proj w.

(** [w'] has the trace of [w] and maybe newer events. *)
Definition extends (w w' : World) : Prop :=
  exists newer, trace w' = newer ++ trace w.

Section Outcomes.

Variable host : Host.

(** The three outcomes of [processQueueItem]. *)
Inductive pqi_outcome (p : LoaderServiceQueueType) (w : World) : World -> Prop :=
| pqi_nothing :
    getQueue p w = [] \/
    (exists key item rest, getQueue p w = (key, item) :: rest /\
                           hostResolve host (target item) = None) ->
    pqi_outcome p w w
| pqi_missing : forall key item rest instance,
    getQueue p w = (key, item) :: rest ->
    hostResolve host (target item) = Some instance ->
    instance (methodName item) = false ->
    pqi_outcome p w
      (log (missingMethodMessage (element 0 (split_underscore key))
              (element 1 (split_underscore key))) w)
| pqi_started : forall key item rest instance,
    getQueue p w = (key, item) :: rest ->
    hostResolve host (target item) = Some instance ->
    instance (methodName item) = true ->
    pqi_outcome p w
      (emit (EvInvoke p key item (nextTimerId w))
         (snd (setTimeout
                 (LDoneTimeout (element 0 (split_underscore key))
                    (element 1 (split_underscore key)) (doneCheckTimeout item))
                 (doneCheckTimeout item) w))).

(** The world after the first statement of [doneCallback]. *)
Definition cleared (doneCheckIntervalId : option nat) (w : World) : World :=
  match doneCheckIntervalId with
  | Some id => if Nat.eqb id 0 then w else clearInterval host id w
  | None => w
  end.

End Outcomes.

(** [w'] has the trace of [w] and newer events, which all satisfy [P]. *)
Definition adds (P : Event -> bool) (w w' : World) : Prop :=
  exists newer, trace w' = newer ++ trace w /\ Forall (fun e => P e = true) newer.

(** Logs, timers and ticks. *)
Definition quiet (e : Event) : bool :=
  match e with
  | EvInvoke _ _ _ _ => false
  | EvDone _ _ _ => false
  | EvCallback _ _ => false
  | _ => true
  end.

(** What processing queue [p] can add to the trace. *)
Definition phaseEvent (p : LoaderServiceQueueType) (e : Event) : bool :=
  match e with
  | EvInvoke q _ _ _ => type_eqb p q
  | EvDone _ _ _ => false
  | EvCallback _ _ => false
  | _ => true
  end.

(** The bound done callbacks of queue [p] given to methods, and those
    called, each as key and timeout handle, newest first. *)
Fixpoint invokes (p : LoaderServiceQueueType) (tr : list Event)
  : list (string * nat) :=
  match tr with
  | [] => []
  | EvInvoke q k _ id :: older =>
      if type_eqb p q then (k, id) :: invokes p older else invokes p older
  | _ :: older => invokes p older
  end.

Fixpoint dones (p : LoaderServiceQueueType) (tr : list Event)
  : list (string * nat) :=
  match tr with
  | [] => []
  | EvDone q k id :: older =>
      if type_eqb p q then (k, id) :: dones p older else dones p older
  | _ :: older => dones p older
  end.

(** The keys of the methods of [p] started, and of the done callbacks of
    [p] called, oldest first. *)
Definition startedKeys (p : LoaderServiceQueueType) (tr : list Event) : list string :=
  rev (map fst (invokes p tr)).

Definition completedKeys (p : LoaderServiceQueueType) (tr : list Event) : list string :=
  rev (map fst (dones p tr)).

(** A part of the world that the queues, the trace, the timers and the
    ticks have no bearing on. *)
Definition serviceBlind {A} (proj : World -> A) : Prop :=
  (forall q w, proj (setQueue q w) = proj w) /\
  (forall e w, proj (emit e w) = proj w) /\
  (forall t w, proj (setPendingTimers t w) = proj w) /\
  (forall t w, proj (setPendingTicks t w) = proj w) /\
  (forall l d w, proj (snd (setTimeout l d w)) = proj w).

(** ** The invariant of a bootstrapped service *)

(** The queues as [bootstrap] fills them from the metadata. *)
Definition registered (items : list LoaderServiceQueueItemModel)
  : LoaderServiceQueueModel :=
  fold_left (fun q queueItem => add queueItem q) items newQueueModel.

Definition registeredKeys (items : list LoaderServiceQueueItemModel)
  (p : LoaderServiceQueueType) : list string :=
  map_keys (getMap p (registered items)).

Definition prevPhase (p : LoaderServiceQueueType) : option LoaderServiceQueueType :=
  match p with
  | frameworkBeforeBoot => None
  | before => Some frameworkBeforeBoot
  | after => Some before
  | frameworkAfterBoot => Some after
  end.

Definition b2n (b : bool) : nat := if b then 1 else 0.

Definition isFilter (o : CountObserver) : bool :=
  match o with ObsFilterNonZero => true | ObsTakeLast _ _ => false end.

Definition isProcessQueue (p : LoaderServiceQueueType) (l : Listener) : bool :=
  match l with LProcessQueue q => type_eqb p q | _ => false end.

(** How many times the drained event of [p] was emitted. *)
Definition drainedCount (p : LoaderServiceQueueType) (tr : list Event) : nat :=
  List.length (filter (isDrained p) tr).

(** How many next ticks wait to process queue [p]. *)
Definition pendingCount (p : LoaderServiceQueueType) (ticks : list Listener) : nat :=
  List.length (filter (isProcessQueue p) ticks).

(** [processQueue] has run for [p]: the subject has its filter observer,
    or has completed already. *)
Definition opened (p : LoaderServiceQueueType) (q : LoaderServiceQueueModel) : bool :=
  isStopped (getCount p q) || existsb isFilter (observers (getCount p q)).

(** What triggers the processing of [p] has completed: the count subject
    of the queue before it, or the starting subject. *)
Definition triggered (p : LoaderServiceQueueType) (q : LoaderServiceQueueModel)
  (starting : Subject (option bool)) : bool :=
  match prevPhase p with
  | Some p0 => isStopped (getCount p0 q)
  | None => isStopped starting
  end.

Definition shape (p : LoaderServiceQueueType) (q : LoaderServiceQueueModel) : Prop :=
  if isStopped (getCount p q)
  then getMap p q = [] /\ observers (getCount p q) = []
  else exists n l,
      isDrained p (EvNextTick l) = true /\
      (observers (getCount p q) = [ObsTakeLast (Some n) l] \/
       observers (getCount p q) = [ObsTakeLast (Some n) l; ObsFilterNonZero]).

(** When a method of queue [q] is started, the queue before [q] has
    emitted its drained event and each of its registered keys has had its
    done callback called. *)
Definition okInvoke (items : list LoaderServiceQueueItemModel)
  (q : LoaderServiceQueueType) (older : list Event) : Prop :=
  forall p, nextPhase p = Some q ->
    (exists e, In e older /\ isDrained p e = true) /\
    (forall k, In k (registeredKeys items p) ->
               exists id, In (EvDone p k id) older).

(** When queue [q] emits its drained event, each of its registered keys
    has had its done callback called. *)
Definition allDone (items : list LoaderServiceQueueItemModel)
  (q : LoaderServiceQueueType) (older : list Event) : Prop :=
  forall k, In k (registeredKeys items q) -> exists id, In (EvDone q k id) older.

Fixpoint wf_trace (items : list LoaderServiceQueueItemModel) (tr : list Event)
  : Prop :=
  match tr with
  | [] => True
  | e :: older =>
      match e with
      | EvInvoke q _ _ _ => okInvoke items q older
      | EvNextTick _ =>
          forall q, isDrained q e = true ->
                    okInvoke items q older /\ allDone items q older
      | _ => True
      end /\ wf_trace items older
  end.

(** Events that neither start a method nor ask for a next tick. *)
Definition neutral (e : Event) : bool :=
  match e with
  | EvInvoke _ _ _ _ => false
  | EvNextTick _ => false
  | _ => true
  end.

Record Booted (items : list LoaderServiceQueueItemModel) (w : World) : Prop :=
  mkBooted {
  b_flag : isBootstrapped w = true;
  b_shape : forall p, shape p (queue w);
  b_start : isStopped (startingSubject w) = false ->
            observers (startingSubject w) = [None];
  b_gate : forall p,
      pendingCount p (pendingTicks w) + b2n (opened p (queue w)) <=
      b2n (triggered p (queue w) (startingSubject w));
  b_count : forall p,
      drainedCount p (trace w) = b2n (isStopped (getCount p (queue w)));
  b_keys : forall p k, In k (registeredKeys items p) ->
      In k (map_keys (getMap p (queue w))) \/ exists id, In (EvDone p k id) (trace w);
  b_invoke : forall p k it id,
      In (EvInvoke p k it id) (trace w) -> opened p (queue w) = true;
  b_wf : wf_trace items (trace w)
}.

(** The insertion order of a JS Map spelt out on the keys alone, to
    compare [registeredKeys] with: going through the registrations in
    order, a key that is new goes to the end, a key registered before
    keeps its place. *)
Fixpoint insertAll (keys new : list string) : list string :=
  match new with
  | [] => keys
  | k :: rest =>
      insertAll (if existsb (String.eqb k) keys then keys else keys ++ [k]) rest
  end.

Definition insertionOrder (items : list LoaderServiceQueueItemModel)
  (p : LoaderServiceQueueType) : list string :=
  insertAll []
    (map identifier (filter (fun i => type_eqb (type i) p) items)).

(** From [w] to [w'] no method of queue [p] was started, or one was, for
    the first key of the queue. *)
Definition startsAtMostHead (p : LoaderServiceQueueType) (w w' : World) : Prop :=
  invokes p (trace w') = invokes p (trace w) \/
  exists k it rest id,
    getQueue p w' = (k, it) :: rest /\
    invokes p (trace w') = (k, id) :: invokes p (trace w).

(** The order inside a queue, for runs in which no bound done callback is
    called twice: the keys are distinct; the done callbacks called are
    the callbacks given to methods, but for at most the newest one, which
    then belongs to the first key of the queue; and the registered keys are
    the keys completed, in the order of their completion, followed by the
    keys still in the queue. *)
Record Ordered (items : list LoaderServiceQueueItemModel) (w : World)
  (p : LoaderServiceQueueType) : Prop := mkOrdered {
  o_nodup : NoDup (map_keys (getMap p (queue w)));
  o_flight :
    invokes p (trace w) = dones p (trace w) \/
    exists k id rest,
      map_keys (getMap p (queue w)) = k :: rest /\
      invokes p (trace w) = (k, id) :: dones p (trace w);
  o_prefix :
    registeredKeys items p =
    completedKeys p (trace w) ++ map_keys (getMap p (queue w))
}.

(** A service on which [bootstrap] has not run yet: only [done] can have
    left something, in the finish subject. *)
Definition pristine (host : Host) (items : list LoaderServiceQueueItemModel)
  (w : World) : Prop :=
  exists callbacks,
    w = mkWorld newQueueModel (newSubject _) (mkSubject callbacks false) false
          items [] [] (hostFirstTimerId host) [].

Definition Inv (host : Host) (items : list LoaderServiceQueueItemModel)
  (w : World) : Prop :=
  pristine host items w \/ Booted items w.

(** ** A sample run

    The scenario of three items: [A] and [B] registered for [before], [C]
    for [after], each with a timeout of 100 ms; [B] is slow, so its
    watchdog fires before its done callback is called. *)

Definition sampleHost : Host :=
  mkHost (fun _ => Some (fun m => String.eqb m "autoStart")) false 1.

Definition sampleItems : list LoaderServiceQueueItemModel :=
  [ mkItem before (TokenClass 0 "A") "autoStart" 100;
    mkItem before (TokenClass 1 "B") "autoStart" 100;
    mkItem after (TokenClass 2 "C") "autoStart" 100 ].

Definition sampleActions : list Action :=
  [ ActDone 7;
    ActBootstrap (TokenString "root");
    ActTimer 1;                         (* warm-up delay elapses *)
    ActTick 0;                          (* frameworkBeforeBoot: empty *)
    ActTick 0;                          (* before: A is started *)
    ActComplete before "A_autoStart" 2; (* A done, B is started *)
    ActTimer 3;                         (* watchdog of B *)
    ActComplete before "B_autoStart" 3; (* B done, before drained *)
    ActTick 0;                          (* after: C is started *)
    ActComplete after "C_autoStart" 4;
    ActTick 0;                          (* frameworkAfterBoot: empty *)
    ActTick 0;                          (* finish up *)
    ActTick 0 ].                        (* the finish subject fires *)

Definition worldAfter (host : Host) (items : list LoaderServiceQueueItemModel)
  (actions : list Action) : World :=
  match run host actions (initialWorld host items) with
  | Some w => w
  | None => initialWorld host items
  end.

Definition sampleWorld : World := worldAfter sampleHost sampleItems sampleActions.

(** The sample run up to, and without, the next tick that fires the
    finish subject; its first action is [done 7]. *)
Definition sampleActionsBeforeFinish : list Action :=
  firstn 12 sampleActions.

Definition sampleWorldBeforeFinish : World :=
  worldAfter sampleHost sampleItems sampleActionsBeforeFinish.

(** The sample run up to the moment [B] is in flight and its watchdog has
    not fired yet, and up to just before the done callback of [B]. *)
Definition sampleWorldInFlight : World :=
  worldAfter sampleHost sampleItems (firstn 6 sampleActions).

Definition sampleWorldLastPending : World :=
  worldAfter sampleHost sampleItems (firstn 7 sampleActions).

Definition sampleWorldDrained : World :=
  worldAfter sampleHost sampleItems (firstn 8 sampleActions).

(** A class whose name has an underscore, registered for [before] with the
    default method name, on a host whose instances have no method at
    all; and the world when [before] is about to be processed. *)
Definition underscoreItem : LoaderServiceQueueItemModel :=
  mkItem before (TokenClass 0 "My_Service") "autoStart" 5000.

Definition noMethodHost : Host :=
  mkHost (fun _ => Some (fun _ => false)) false 1.

Definition underscoreWorld : World :=
  worldAfter noMethodHost [underscoreItem]
    [ActBootstrap (TokenString "root"); ActTimer 1; ActTick 0].

(** One item in flight: the world after [A], the only item, was started
    with the timeout handle 2. *)
Definition singleItem : LoaderServiceQueueItemModel :=
  mkItem before (TokenClass 0 "A") "autoStart" 100.

Definition singleWorld : World :=
  worldAfter sampleHost [singleItem]
    [ActBootstrap (TokenString "root"); ActTimer 1; ActTick 0; ActTick 0].
From Stdlib Require Import Permutation.


(** ** More notions about runs *)

(** What is left of the registered queue [p] once the keys whose done
    callback was called have been deleted, oldest call first. *)
Definition remaining (items : list LoaderServiceQueueItemModel)
  (p : LoaderServiceQueueType) (tr : list Event)
  : JsMap LoaderServiceQueueItemModel :=
  fold_right (fun kd m => map_delete (fst kd) m)
    (getMap p (registered items)) (dones p tr).

(** [w'] has the trace of [w] and newer events, which all satisfy [P]. *)
Definition addsP (P : Event -> Prop) (w w' : World) : Prop :=
  exists newer, trace w' = newer ++ trace w /\ Forall P newer.

(** A method started for queue [p] belongs to an entry of [m] whose
    target resolves and has the method. *)
Definition startable (host : Host) (m : JsMap LoaderServiceQueueItemModel)
  (p : LoaderServiceQueueType) (e : Event) : Prop :=
  match e with
  | EvInvoke q k it _ =>
      q = p /\ In (k, it) m /\
      exists instance, hostResolve host (target it) = Some instance /\
                       instance (methodName it) = true
  | _ => True
  end.

(** The registered entry cannot be started: its target does not resolve,
    or the instance lacks the method. *)
Definition unstartable (host : Host) (it : LoaderServiceQueueItemModel) : Prop :=
  match hostResolve host (target it) with
  | None => True
  | Some instance => instance (methodName it) = false
  end.

(** What a transition from [w] may add to the trace: a method start for
    an entry of the queue of [w] that can be started, and the call of a
    done callback that was given to a method. *)
Definition newEvent (host : Host) (w : World) (e : Event) : Prop :=
  match e with
  | EvInvoke q k it _ =>
      In (k, it) (getQueue q w) /\
      exists instance, hostResolve host (target it) = Some instance /\
                       instance (methodName it) = true
  | EvDone q k id => exists it, In (EvInvoke q k it id) (trace w)
  | _ => True
  end.

(** Every method start in the trace is that of a registered entry that
    can be started, and every done callback called belongs to a method
    start. *)
Definition tracedEvent (host : Host) (items : list LoaderServiceQueueItemModel)
  (tr : list Event) (e : Event) : Prop :=
  match e with
  | EvInvoke q k it _ =>
      In (k, it) (getMap q (registered items)) /\
      exists instance, hostResolve host (target it) = Some instance /\
                       instance (methodName it) = true
  | EvDone q k id => exists it, In (EvInvoke q k it id) tr
  | _ => True
  end.

(** The next ticks that lead to the finish subject. *)
Definition isFinishTick (l : Listener) : bool :=
  match l with
  | LFinishUp _ => true
  | LFinish => true
  | _ => false
  end.

(** The finish subject fires only behind the last queue: a next tick
    that leads to it waits, or it has completed, only if the count subject
    of [frameworkAfterBoot] has completed; and no callback is called
    before it completes. *)
Record FinishInv (w : World) : Prop := mkFinishInv {
  f_ticks : forall l, In l (pendingTicks w) -> isFinishTick l = true ->
                      isStopped (getSubject frameworkAfterBoot w) = true;
  f_stopped : isStopped (finishSubject w) = true ->
              isStopped (getSubject frameworkAfterBoot w) = true;
  f_quiet : isStopped (finishSubject w) = false ->
            filter isCallback (trace w) = []
}.

(** A run on a host where nothing has the method: [My_Service] is started
    never, although the warm-up delay elapsed and both ticks ran. *)
Definition stalledWorld : World :=
  worldAfter noMethodHost [underscoreItem]
    [ActDone 7; ActBootstrap (TokenString "root"); ActTimer 1; ActTick 0; ActTick 0].

(** The sample run just after [bootstrap]: the warm-up timer is pending. *)
Definition sampleWorldWarmingUp : World :=
  worldAfter sampleHost sampleItems (firstn 2 sampleActions).

(** The callbacks given to [done] in a run, in the order of the calls. *)
Definition doneCallbacks (actions : list Action) : list nat :=
  flat_map (fun a => match a with ActDone callback => [callback] | _ => [] end)
           actions.

(** The target of the first [bootstrap] call of a run: the one the
    subscriber of the last count subject is closed over. *)
Fixpoint firstBootstrap (actions : list Action) : option InjectionToken :=
  match actions with
  | [] => None
  | ActBootstrap target :: _ => Some target
  | _ :: rest => firstBootstrap rest
  end.

(** What a next-tick listener says about the root target [t]: the finish-up
    listener is closed over [t], and the listener that fires the finish
    subject exists only if the container resolved [t]. *)
Definition rootListener (host : Host) (t : InjectionToken) (l : Listener) : Prop :=
  match l with
  | LFinishUp target => target = t
  | LFinish => hostResolve host t <> None
  | _ => True
  end.

Definition rootObserver (host : Host) (t : InjectionToken) (o : CountObserver)
  : Prop :=
  match o with
  | ObsTakeLast _ l => rootListener host t l
  | ObsFilterNonZero => True
  end.

Record RootInv (host : Host) (t : InjectionToken) (w : World) : Prop := mkRootInv {
  r_obs : forall p, Forall (rootObserver host t) (observers (getSubject p w));
  r_ticks : Forall (rootListener host t) (pendingTicks w);
  r_finish : isStopped (finishSubject w) = true -> hostResolve host t <> None
}.

(** A container that resolves classes, not string tokens. *)
Definition classOnlyHost : Host :=
  mkHost (fun t => match t with
                   | TokenString _ => None
                   | TokenClass _ _ => Some (fun m => String.eqb m "autoStart")
                   end) false 1.

(** * BaseEventService

    The event service keeps the events and entity handlers that the
    decorators hand to it and, when it is started, subscribes the methods
    of the resolved instances.  The models it stores ([EventModel],
    [EntityHandleModel], [ValidateOptionsModel]) are declared outside the
    sources at hand: they are records of the fields the service reads,
    and [cast] keeps the fields it is given.  A field that may be
    [undefined] is an [option]. *)

Module ValidateOptionsModel.

Record t : Type := mk {
  name : option string;
  entity : option Z;
  metaKey : option string
}.

End ValidateOptionsModel.

Module EventModel.

Record t : Type := mk {
  type : string;
  eventName : option string;
  targetName : string;
  methodName : string;
  validateOptions : option ValidateOptionsModel.t
}.

End EventModel.

Module EntityHandleModel.

Record t : Type := mk {
  type : string;
  targetName : string;
  methodName : string;
  options : ValidateOptionsModel.t
}.

End EntityHandleModel.

Module BaseEventService.

(** An argument of an entity event, as far as [===] with a meta key can
    tell: a string, a number, or some other value known by its identity. *)
Inductive JsArg : Type :=
| ArgString (s : string)
| ArgNumber (n : Z)
| ArgOther (id : nat).

(** An instance resolved by the container: its identity and the names
    under which it has a function. *)
Record Instance : Type := mkInstance {
  instanceId : nat;
  hasMethod : string -> bool
}.

(** [container.resolveAll(token)]: the registered instances, or [None]
    when the container throws because the token is not registered. *)
Definition Container : Type := string -> option (list Instance).

(** What the service does to the outside, in the order it does it. *)
Inductive Effect : Type :=
| EffLog (message : string)
| EffOn (eventName : option string) (instance : nat) (methodName : string)
| EffOnce (eventName : option string) (instance : nat) (methodName : string)
| EffRejected (type : string)
| EffOther (type : string) (eventName : option string) (instance : nat)
           (methodName : string)
| EffListen (type : string) (handlers : list EntityHandleModel.t)
| EffCall (instance : nat) (methodName : string) (entity : nat) (args : list JsArg)
| EffDone.

(** A computation that has effects and then returns or throws ([None]). *)
Definition Eff (A : Type) : Type := (list Effect * option A)%type.

Definition ret {A} (a : A) : Eff A := ([], Some a).

Definition throw {A} : Eff A := ([], None).

Definition emitEffect (e : Effect) : Eff unit := ([e], Some tt).

Definition bind {A B} (m : Eff A) (f : A -> Eff B) : Eff B :=
  match snd m with
  | None => (fst m, None)
  | Some a => (fst m ++ fst (f a), snd (f a))
  end.

Notation "x <- m ;; k" := (bind m (fun x => k))
  (at level 61, m at next level, right associativity).
Notation "m ;;; k" := (bind m (fun _ => k))
  (at level 61, right associativity).

(** [array.forEach] with a callback that may throw. *)
Fixpoint forEach {A} (f : A -> Eff unit) (l : list A) : Eff unit :=
  match l with
  | [] => ret tt
  | x :: rest => f x ;;; forEach f rest
  end.

Definition includes (l : list string) (s : string) : bool :=
  existsb (String.eqb s) l.

Record Service : Type := mkService {
  events : list EventModel.t;
  handlers : list EntityHandleModel.t
}.

Definition newService : Service := mkService [] [].

Definition handlerTypes : list string :=
  [ "syncedMetaChange"; "streamSyncedMetaChange"; "gameEntityCreate";
    "gameEntityDestroy"; "entityEnterColshape"; "entityLeaveColshape" ].

Definition availableDecoratorListenerTypes : list string :=
  [ "on"; "once"; "onGui"; "onServer"; "onClient"; "onceServer"; "onceClient" ].

(** [add]. *)
Definition add (type targetName methodName : string)
  (options : ValidateOptionsModel.t) (s : Service) : Service :=
  if includes availableDecoratorListenerTypes type then
    mkService
      (events s ++ [EventModel.mk type (ValidateOptionsModel.name options)
                      targetName methodName None])
      (handlers s)
  else s.

(** [addHandlerMethods]. *)
Definition addHandlerMethods (type targetName methodName : string)
  (options : ValidateOptionsModel.t) (s : Service) : Service :=
  if includes handlerTypes type then
    mkService (events s)
      (handlers s ++ [EntityHandleModel.mk type targetName methodName options])
  else s.

(** [isEntityType]: [entityType === type], where the type of a handler
    without the option is [undefined]. *)
Definition isEntityType (entityType : Z) (type : option Z) : bool :=
  match type with
  | Some t => Z.eqb entityType t
  | None => false
  end.

(** [getHandler]. *)
Definition getHandler (type : string) (s : Service) : list EntityHandleModel.t :=
  filter (fun handle => String.eqb (EntityHandleModel.type handle) type) (handlers s).

(** [startEntityHandle].  [listenHandlerForType] has an empty body in this
    class and is there for subclasses to override: the call is recorded
    with its arguments. *)
Definition startEntityHandle (s : Service) : Eff unit :=
  forEach (fun type =>
             let handler := getHandler type s in
             if Nat.eqb (List.length handler) 0 then ret tt
             else emitEffect (EffListen type handler))
          handlerTypes.

(** [this[event.type]] as far as this class goes: it has [on] and [once];
    it has no member of the name of the five other listener types, which
    subclasses add; any other name is some other member or none. *)
Inductive Member : Type :=
| MemberOn
| MemberOnce
| MemberUndefined
| MemberOther.

Definition member (type : string) : Member :=
  if String.eqb type "on" then MemberOn
  else if String.eqb type "once" then MemberOnce
  else if includes availableDecoratorListenerTypes type then MemberUndefined
  else MemberOther.

(** The body of the async callback of [startBaseMethods] for one instance,
    up to its [await]: [on] and [once] hand the bound method to the host;
    binding an undefined member throws inside the async function, which
    rejects its promise and lets the loop go on. *)
Definition startInstance (event : EventModel.t) (instance : Instance) : Eff unit :=
  if hasMethod instance (EventModel.methodName event) then
    match member (EventModel.type event) with
    | MemberOn =>
        emitEffect (EffOn (EventModel.eventName event) (instanceId instance)
                      (EventModel.methodName event))
    | MemberOnce =>
        emitEffect (EffOnce (EventModel.eventName event) (instanceId instance)
                      (EventModel.methodName event))
    | MemberUndefined => emitEffect (EffRejected (EventModel.type event))
    | MemberOther =>
        emitEffect (EffOther (EventModel.type event) (EventModel.eventName event)
                      (instanceId instance) (EventModel.methodName event))
    end
  else ret tt.

Section Started.

Variable container : Container.

Definition resolveAll (token : string) : Eff (list Instance) :=
  match container token with
  | Some instances => ret instances
  | None => throw
  end.

(** [startBaseMethods]. *)
Definition startBaseMethods (s : Service) : Eff unit :=
  forEach (fun event =>
             instances <- resolveAll (EventModel.targetName event) ;;
             forEach (startInstance event) instances)
          (events s).

(** [autoStart]. *)
Definition autoStart (s : Service) : Eff unit :=
  (if Nat.eqb (List.length (events s)) 0 then ret tt
   else emitEffect (EffLog "Starting ~y~EventService Decorator~w~") ;;;
        startBaseMethods s ;;;
        emitEffect (EffLog "Started ~lg~EventService Decorator~w~")) ;;;
  (if Nat.eqb (List.length (handlers s)) 0 then ret tt
   else emitEffect (EffLog "Starting ~y~EntityEvent Handle Decorator~w~") ;;;
        startEntityHandle s ;;;
        emitEffect (EffLog "Started ~lg~EntityEvent Handle Decorator~w~")) ;;;
  emitEffect EffDone.

(** [args[0] === handler.options.metaKey] behind
    [handler.options.metaKey !== undefined]. *)
Definition hasMetaKey (metaKey : option string) (args : list JsArg) : bool :=
  match metaKey, args with
  | Some key, ArgString s :: _ => String.eqb s key
  | _, _ => false
  end.

(** The inner loop of [handleMetaChangeMethods].  The rest parameter
    [args] is one array for the whole call: [args.shift()] changes it for
    every later instance and handler, so the loop passes it on.  Binding a
    method that the instance lacks throws. *)
Fixpoint callInstances (entity : nat) (methodName : string) (shift : bool)
  (instances : list Instance) (args : list JsArg) : Eff (list JsArg) :=
  match instances with
  | [] => ret args
  | instance :: rest =>
      if hasMethod instance methodName then
        let args := if shift then tl args else args in
        emitEffect (EffCall (instanceId instance) methodName entity args) ;;;
        callInstances entity methodName shift rest args
      else throw
  end.

Fixpoint handleHandlers (entity : nat) (entityType : Z) (isMetaChange : bool)
  (handlers : list EntityHandleModel.t) (args : list JsArg) : Eff (list JsArg) :=
  match handlers with
  | [] => ret args
  | handler :: rest =>
      let options := EntityHandleModel.options handler in
      if isEntityType entityType (ValidateOptionsModel.entity options) then
        let hasKey := hasMetaKey (ValidateOptionsModel.metaKey options) args in
        instances <- resolveAll (EntityHandleModel.targetName handler) ;;
        args <- callInstances entity (EntityHandleModel.methodName handler)
                  (isMetaChange && hasKey) instances args ;;
        handleHandlers entity entityType isMetaChange rest args
      else handleHandlers entity entityType isMetaChange rest args
  end.

(** [handleMetaChangeMethods]. *)
Definition handleMetaChangeMethods (entity : nat) (entityType : Z)
  (handlers : list EntityHandleModel.t) (isMetaChange : bool)
  (args : list JsArg) : Eff unit :=
  handleHandlers entity entityType isMetaChange handlers args ;;; ret tt.

End Started.

(** A call of one of the two registering methods. *)
Inductive Registration : Type :=
| RegAdd (type targetName methodName : string) (options : ValidateOptionsModel.t)
| RegAddHandlerMethods (type targetName methodName : string)
    (options : ValidateOptionsModel.t).

Definition register (s : Service) (r : Registration) : Service :=
  match r with
  | RegAdd type targetName methodName options =>
      add type targetName methodName options s
  | RegAddHandlerMethods type targetName methodName options =>
      addHandlerMethods type targetName methodName options s
  end.

(** The service after the registrations of the decorators, in order. *)
Definition registeredService (rs : list Registration) : Service :=
  fold_left register rs newService.

(** The calls that [handleMetaChangeMethods] makes for one handler when
    it shifts: the [n]-th instance from here gets the arguments without
    their first [first + n] elements. *)
Fixpoint shiftedCalls (entity : nat) (methodName : string) (first : nat)
  (instances : list Instance) (args : list JsArg) : list Effect :=
  match instances with
  | [] => []
  | instance :: rest =>
      EffCall (instanceId instance) methodName entity (skipn first args)
        :: shiftedCalls entity methodName (S first) rest args
  end.

(** The handlers handed to [listenHandlerForType], call after call. *)
Definition listened (effects : list Effect) : list EntityHandleModel.t :=
  flat_map (fun e => match e with EffListen _ handlers => handlers | _ => [] end)
           effects.

Definition isDoneEffect (e : Effect) : bool :=
  match e with
  | EffDone => true
  | _ => false
  end.

Definition isSubscription (e : Effect) : bool :=
  match e with
  | EffOn _ _ _ | EffOnce _ _ _ => true
  | _ => false
  end.

(** The instances the container has for a token; none when it throws. *)
Definition instancesOf (container : Container) (token : string) : list Instance :=
  match container token with
  | Some instances => instances
  | None => []
  end.

(** The container has the target of [event] registered. *)
Definition resolvable (container : Container) (event : EventModel.t) : Prop :=
  container (EventModel.targetName event) <> None.

(** What [startBaseMethods] does when every target is registered. *)
Definition subscriptions (container : Container) (s : Service) : list Effect :=
  flat_map (fun event =>
              flat_map (fun i => fst (startInstance event i))
                (instancesOf container (EventModel.targetName event)))
           (events s).

(** What [autoStart] does before it calls [done] when every target is
    registered. *)
Definition startedEffects (container : Container) (s : Service) : list Effect :=
  (if Nat.eqb (List.length (events s)) 0 then []
   else EffLog "Starting ~y~EventService Decorator~w~"
          :: subscriptions container s
          ++ [EffLog "Started ~lg~EventService Decorator~w~"])
  ++ (if Nat.eqb (List.length (handlers s)) 0 then []
      else EffLog "Starting ~y~EntityEvent Handle Decorator~w~"
             :: fst (startEntityHandle s)
             ++ [EffLog "Started ~lg~EntityEvent Handle Decorator~w~"]).



(** Sample data: two players' services listening, one of them without
    the method, and a container that knows both tokens and no other. *)
Definition sampleRegistrations : list Registration :=
  [ RegAdd "on" "PlayerService" "onConnect"
      (ValidateOptionsModel.mk (Some "playerConnect") None None);
    RegAdd "onServer" "PlayerService" "onSync"
      (ValidateOptionsModel.mk (Some "sync") None None);
    RegAdd "custom" "PlayerService" "onCustom"
      (ValidateOptionsModel.mk (Some "custom") None None);
    RegAddHandlerMethods "syncedMetaChange" "VehicleService" "onFuel"
      (ValidateOptionsModel.mk None (Some 1%Z) (Some "fuel"));
    RegAddHandlerMethods "gameEntityCreate" "VehicleService" "onCreate"
      (ValidateOptionsModel.mk None (Some 1%Z) None) ].

Definition sampleContainer : Container :=
  fun token =>
    if String.eqb token "PlayerService" then
      Some [mkInstance 1 (fun m => String.eqb m "onConnect" || String.eqb m "onSync")]
    else if String.eqb token "VehicleService" then
      Some [mkInstance 2 (fun _ => true); mkInstance 3 (fun _ => true)]
    else None.

Definition emptyContainer : Container := fun _ => None.

(** A handler for the meta key [fuel] of entities of type 1, the
    arguments of a change of that key (key, value, old value), and a
    handler whose target has no such method. *)
Definition sampleHandler : EntityHandleModel.t :=
  EntityHandleModel.mk "syncedMetaChange" "VehicleService" "onFuel"
    (ValidateOptionsModel.mk None (Some 1%Z) (Some "fuel")).

Definition sampleArgs : list JsArg :=
  [ArgString "fuel"; ArgNumber 80; ArgNumber 60].

Definition brokenHandler : EntityHandleModel.t :=
  EntityHandleModel.mk "syncedMetaChange" "PlayerService" "onFuel"
    (ValidateOptionsModel.mk None (Some 1%Z) (Some "fuel")).

End BaseEventService.

(** * The event decorators

    [On], [Once] and [Cmd] record an [EventModel] in the reflection
    metadata of the event service.  The metadata of that one target is a
    map from keys to lists of events; [Reflect.getMetadata] gives
    [undefined] ([None]) for a key that was never defined.  The keys of
    [EventEnum] and the helper [getAtlasMetaData] are declared outside the
    sources at hand and are parameters here; [registerDescriptor] only
    wraps the method's descriptor. *)

Definition Metadata : Type := string -> option (list EventModel.t).

Definition getMetadata (key : string) (m : Metadata) : option (list EventModel.t) :=
  m key.

Definition defineMetadata (key : string) (config : list EventModel.t)
  (m : Metadata) : Metadata :=
  fun k => if String.eqb k key then Some config else m k.

(** [name || propertyKey]: an absent name and the empty string are falsy. *)
Definition nameOr (name : option string) (propertyKey : string) : string :=
  match name with
  | Some (String c rest) => String c rest
  | _ => propertyKey
  end.

(** [event.eventName === commandName]. *)
Definition hasEventName (commandName : string) (event : EventModel.t) : bool :=
  match EventModel.eventName event with
  | Some n => String.eqb n commandName
  | None => false
  end.

Section EventDecorators.

Variable ON ONCE CONSOLE_COMMAND : string.
Variable getAtlasMetaData : string -> Metadata -> list EventModel.t.

(** [setEventServiceReflectMetaData]. *)
Definition setEventServiceReflectMetaData (key : string) (data : EventModel.t)
  (m : Metadata) : Metadata :=
  let config := getAtlasMetaData key m in
  defineMetadata key (config ++ [data]) m.

(** [On(name)] applied to the method [propertyKey] of a class
    [targetName]. *)
Definition On (name : option string) (targetName propertyKey : string)
  (m : Metadata) : Metadata :=
  let eventName := nameOr name propertyKey in
  setEventServiceReflectMetaData ON
    (EventModel.mk "on" (Some eventName) targetName propertyKey
       (Some (ValidateOptionsModel.mk (Some eventName) None None))) m.

(** [Once(name)]. *)
Definition Once (name : option string) (targetName propertyKey : string)
  (m : Metadata) : Metadata :=
  let eventName := nameOr name propertyKey in
  setEventServiceReflectMetaData ONCE
    (EventModel.mk "once" (Some eventName) targetName propertyKey None) m.

(** [Cmd(name)]: [None] when it throws, which [events.find] does on the
    [undefined] that [getMetadata] gives for a key never defined. *)
Definition Cmd (name : option string) (targetName propertyKey : string)
  (m : Metadata) : option Metadata :=
  let commandName := nameOr name propertyKey in
  match getMetadata CONSOLE_COMMAND m with
  | None => None
  | Some events =>
      if existsb (hasEventName commandName) events then Some m
      else Some (setEventServiceReflectMetaData CONSOLE_COMMAND
                   (EventModel.mk "consoleCommand" (Some commandName) targetName
                      propertyKey
                      (Some (ValidateOptionsModel.mk (Some commandName) None None)))
                   m)
  end.

(** The [Cmd] decorators of a program, applied in order: name, class and
    method of each. *)
Fixpoint applyCmds (cmds : list (option string * string * string)) (m : Metadata)
  : option Metadata :=
  match cmds with
  | [] => Some m
  | (name, targetName, propertyKey) :: rest =>
      match Cmd name targetName propertyKey m with
      | Some m' => applyCmds rest m'
      | None => None
      end
  end.

(** The [On] decorators of a program, applied in order. *)
Definition applyOns (ons : list (option string * string * string)) (m : Metadata)
  : Metadata :=
  fold_left (fun m on =>
               match on with
               | (name, targetName, propertyKey) => On name targetName propertyKey m
               end) ons m.

End EventDecorators.

(** The event that [On(name)] records for the method [propertyKey] of
    [targetName]. *)
Definition onEvent (on : option string * string * string) : EventModel.t :=
  match on with
  | (name, targetName, propertyKey) =>
      EventModel.mk "on" (Some (nameOr name propertyKey)) targetName propertyKey
        (Some (ValidateOptionsModel.mk (Some (nameOr name propertyKey)) None None))
  end.

(** The names of the events recorded under [key]. *)
Definition recordedNames (key : string) (m : Metadata) : list (option string) :=
  match m key with
  | Some events => map EventModel.eventName events
  | None => []
  end.

(** A helper that gives the list defined under the key, or a new one. *)
Definition storedOrEmpty (key : string) (m : Metadata) : list EventModel.t :=
  match m key with
  | Some events => events
  | None => []
  end.

Definition sampleCmds : list (option string * string * string) :=
  [ (Some "kick", "AdminService", "kickPlayer");
    (None, "AdminService", "ban");
    (Some "kick", "OtherService", "kick");
    (Some "", "OtherService", "ban") ].
(** ** Basic facts *)

Unset Implicit Arguments.

Lemma type_eqb_refl p : type_eqb p p = true.
Proof. destruct p; reflexivity. Qed.

Lemma type_eqb_eq p q : type_eqb p q = true <-> p = q.
Proof. destruct p, q; simpl; split; congruence. Qed.

Lemma type_eq_dec (p q : LoaderServiceQueueType) : {p = q} + {p <> q}.
Proof. decide equality. Defined.

Lemma getMap_setMap_same p m q : getMap p (setMap p m q) = m.
Proof. destruct p; reflexivity. Qed.

Lemma getMap_setMap_other p p' m q :
  p <> p' -> getMap p (setMap p' m q) = getMap p q.
Proof. destruct p, p'; simpl; congruence. Qed.

Lemma getMap_setCount p p' c q : getMap p (setCount p' c q) = getMap p q.
Proof. destruct p, p'; reflexivity. Qed.

Lemma getCount_setCount_same p c q : getCount p (setCount p c q) = c.
Proof. destruct p; reflexivity. Qed.

Lemma getCount_setCount_other p p' c q :
  p <> p' -> getCount p (setCount p' c q) = getCount p q.
Proof. destruct p, p'; simpl; congruence. Qed.

Lemma getCount_setMap p p' m q : getCount p (setMap p' m q) = getCount p q.
Proof. destruct p, p'; reflexivity. Qed.

Lemma run_reachable host items actions w w' :
  reachable host items w -> run host actions w = Some w' ->
  reachable host items w'.
Proof.
  revert w. induction actions as [|a rest IH]; simpl; intros w Hw Hrun.
  - inversion Hrun; subst; assumption.
  - destruct (step host a w) as [w1|] eqn:Hstep; [|discriminate].
    eapply IH; [|eassumption]. eapply reach_step; eassumption.
Qed.

Lemma run_app host a1 a2 w :
  run host (a1 ++ a2) w =
  match run host a1 w with Some w1 => run host a2 w1 | None => None end.
Proof.
  revert w. induction a1 as [|a rest IH]; simpl; intros w; [reflexivity|].
  destruct (step host a w); [apply IH|reflexivity].
Qed.

Lemma reachable_run host items w :
  reachable host items w ->
  exists actions, run host actions (initialWorld host items) = Some w.
Proof.
  induction 1 as [|w a w' _ [actions Hrun] Hstep].
  - exists []. reflexivity.
  - exists (actions ++ [a]). rewrite run_app, Hrun. simpl. now rewrite Hstep.
Qed.

(** ** What each operation leaves alone *)


Lemma keeps_fold {A O} (proj : World -> A) (f : World -> O -> World) l :
  (forall o, keeps proj (fun w => f w o)) ->
  keeps proj (fun w => fold_left f l w).
Proof.
  intros Hf. induction l as [|o l IH]; intros w; simpl; [reflexivity|].
  rewrite IH. apply Hf.
Qed.


Lemma extends_refl w : extends w w.
Proof. exists []. reflexivity. Qed.

Lemma extends_trans w1 w2 w3 : extends w1 w2 -> extends w2 w3 -> extends w1 w3.
Proof.
  intros [n1 H1] [n2 H2]. exists (n2 ++ n1). now rewrite H2, H1, app_assoc.
Qed.

Lemma extends_emit e w : extends w (emit e w).
Proof. exists [e]. reflexivity. Qed.

Lemma extends_same w w' : trace w' = trace w -> extends w w'.
Proof. intros H. exists []. now rewrite H. Qed.

Lemma extends_fold {O} (f : World -> O -> World) l w :
  (forall w o, extends w (f w o)) -> extends w (fold_left f l w).
Proof.
  intros Hf. revert w. induction l as [|o l IH]; intros w; simpl.
  - apply extends_refl.
  - eapply extends_trans; [apply Hf|apply IH].
Qed.

Section Frames.

Variable host : Host.

Ltac pqi :=
  unfold processQueueItem;
  match goal with
  | |- context [map_first ?m] => destruct (map_first m) as [[? ?]|]
  end;
  [ match goal with
    | |- context [hostResolve ?h ?t] => destruct (hostResolve h t) as [?|]
    end;
    [ match goal with
      | |- context [negb ?b] => destruct b
      end | ] | ].

Lemma processQueueItem_queue p : keeps queue (processQueueItem host p).
Proof. intros w. pqi; reflexivity. Qed.

Lemma processQueueItem_startingSubject p :
  keeps startingSubject (processQueueItem host p).
Proof. intros w. pqi; reflexivity. Qed.

Lemma processQueueItem_finishSubject p :
  keeps finishSubject (processQueueItem host p).
Proof. intros w. pqi; reflexivity. Qed.

Lemma processQueueItem_isBootstrapped p :
  keeps isBootstrapped (processQueueItem host p).
Proof. intros w. pqi; reflexivity. Qed.

Lemma processQueueItem_metadata p : keeps metadata (processQueueItem host p).
Proof. intros w. pqi; reflexivity. Qed.

Lemma processQueueItem_pendingTicks p :
  keeps pendingTicks (processQueueItem host p).
Proof. intros w. pqi; reflexivity. Qed.

Lemma processQueueItem_outcome p w :
  pqi_outcome host p w (processQueueItem host p w).
Proof.
  unfold processQueueItem.
  destruct (getQueue p w) as [|[key item] rest] eqn:Hq; simpl.
  - apply pqi_nothing. now left.
  - destruct (hostResolve host (target item)) as [instance|] eqn:Hres.
    + destruct (instance (methodName item)) eqn:Hm; simpl.
      * eapply pqi_started; eauto.
      * eapply pqi_missing; eauto.
    + apply pqi_nothing. right. eauto.
Qed.

End Frames.

(** ** The invariant holds after [bootstrap] *)

Lemma add_getCount p i q : getCount p (add i q) = getCount p q.
Proof. unfold add. apply getCount_setMap. Qed.

Lemma registered_getCount p items : getCount p (registered items) = newSubject _.
Proof.
  unfold registered.
  assert (H : forall q, getCount p (fold_left (fun q i => add i q) items q)
                        = getCount p q).
  { induction items as [|i items IH]; intros q; simpl; [reflexivity|].
    rewrite IH. apply add_getCount. }
  rewrite H. destruct p; reflexivity.
Qed.

Lemma bootstrap_pristine host items target w :
  pristine host items w ->
  exists n1 n2 n3 n4,
    bootstrap host target w =
    mkWorld
      (mkQueueModel
         (getMap frameworkBeforeBoot (registered items))
         (getMap before (registered items))
         (getMap after (registered items))
         (getMap frameworkAfterBoot (registered items))
         (mkSubject [ObsTakeLast (Some n1) (LProcessQueue before)] false)
         (mkSubject [ObsTakeLast (Some n2) (LProcessQueue after)] false)
         (mkSubject [ObsTakeLast (Some n3) (LProcessQueue frameworkAfterBoot)] false)
         (mkSubject [ObsTakeLast (Some n4) (LFinishUp target)] false))
      (mkSubject [None] false) (finishSubject w) true items [] 
      [(hostFirstTimerId host, LStartLoading)] (S (hostFirstTimerId host))
      [EvSetTimeout (hostFirstTimerId host) LStartLoading 125].
Proof.
  intros [callbacks ->].
  unfold bootstrap, resolveMetaDataAndAdd. simpl.
  fold (registered items).
  pose proof (registered_getCount frameworkBeforeBoot items) as H1.
  pose proof (registered_getCount before items) as H2.
  pose proof (registered_getCount after items) as H3.
  pose proof (registered_getCount frameworkAfterBoot items) as H4.
  destruct (registered items) as [m1 m2 m3 m4 c1 c2 c3 c4].
  simpl in *. subst.
  exists (List.length m1), (List.length m2), (List.length m3), (List.length m4).
  vm_compute. reflexivity.
Qed.

Lemma bootstrap_booted host items target w :
  pristine host items w -> Booted items (bootstrap host target w).
Proof.
  intros Hp. destruct (bootstrap_pristine _ _ target _ Hp) as (n1 & n2 & n3 & n4 & ->).
  constructor; simpl.
  - reflexivity.
  - intros p. unfold shape. destruct p; simpl; do 2 eexists;
      (split; [|left; reflexivity]); reflexivity.
  - reflexivity.
  - intros p. destruct p; simpl; lia.
  - intros p. destruct p; reflexivity.
  - intros p k Hk. left. unfold registeredKeys in Hk. destruct p; exact Hk.
  - intros p k it id [H|[]]. discriminate.
  - auto.
Qed.

(** ** Traces *)

Lemma drainedCount_app p newer tr :
  drainedCount p (newer ++ tr) = drainedCount p newer + drainedCount p tr.
Proof. unfold drainedCount. now rewrite filter_app, length_app. Qed.

Lemma drainedCount_cons p e tr :
  drainedCount p (e :: tr) = b2n (isDrained p e) + drainedCount p tr.
Proof. unfold drainedCount. simpl. now destruct (isDrained p e). Qed.

Lemma drainedCount_neutral p newer :
  Forall (fun e => neutral e = true) newer -> drainedCount p newer = 0.
Proof.
  induction 1 as [|e newer He _ IH]; [reflexivity|].
  unfold drainedCount in *. simpl.
  destruct e; simpl in *; try discriminate; exact IH.
Qed.

Lemma isDrained_unique p q e :
  isDrained p e = true -> isDrained q e = true -> p = q.
Proof.
  destruct e as [| | | |l| | |]; simpl; try discriminate.
  destruct l as [r| | | |]; simpl; try discriminate;
    try destruct r; destruct p, q; simpl; congruence.
Qed.

Lemma pendingCount_app p t1 t2 :
  pendingCount p (t1 ++ t2) = pendingCount p t1 + pendingCount p t2.
Proof. unfold pendingCount. now rewrite filter_app, length_app. Qed.

Lemma pendingCount_removeNth p n ticks :
  pendingCount p (removeNth n ticks) <= pendingCount p ticks.
Proof.
  revert n. induction ticks as [|l ticks IH]; intros [|n]; simpl; try lia.
  - unfold pendingCount. simpl. destruct (isProcessQueue p l); simpl; lia.
  - unfold pendingCount in *. simpl.
    destruct (isProcessQueue p l); simpl; specialize (IH n); lia.
Qed.

Lemma pendingCount_removeNth_hit p n ticks :
  nth_error ticks n = Some (LProcessQueue p) ->
  S (pendingCount p (removeNth n ticks)) = pendingCount p ticks.
Proof.
  revert n. induction ticks as [|l ticks IH]; intros [|n]; simpl; try discriminate.
  - intros [= ->]. unfold pendingCount. simpl. now rewrite type_eqb_refl.
  - intros H. specialize (IH _ H). unfold pendingCount in *. simpl.
    destruct (isProcessQueue p l); simpl; lia.
Qed.

Lemma okInvoke_mono items q newer older :
  okInvoke items q older -> okInvoke items q (newer ++ older).
Proof.
  intros H p Hp. destruct (H p Hp) as [[e [He Hd]] Hk]. split.
  - exists e. split; [apply in_or_app; now right|assumption].
  - intros k Hin. destruct (Hk k Hin) as [id Hid]. exists id.
    apply in_or_app. now right.
Qed.

Lemma wf_trace_neutral items newer tr :
  Forall (fun e => neutral e = true) newer ->
  wf_trace items tr -> wf_trace items (newer ++ tr).
Proof.
  induction 1 as [|e newer He _ IH]; intros Hwf; simpl; [assumption|].
  split; [|auto]. destruct e; simpl in *; try discriminate; exact I.
Qed.

Lemma wf_trace_tick items l tr :
  (forall q, isDrained q (EvNextTick l) = false) ->
  wf_trace items tr -> wf_trace items (EvNextTick l :: tr).
Proof.
  intros Hnd Hwf. split; [|assumption].
  intros q Hq. rewrite Hnd in Hq. discriminate.
Qed.

Lemma wf_trace_drained items l tr p :
  isDrained p (EvNextTick l) = true ->
  okInvoke items p tr -> allDone items p tr ->
  wf_trace items tr -> wf_trace items (EvNextTick l :: tr).
Proof.
  intros Hd Hok Hall Hwf. split; [|assumption].
  intros q Hq. assert (q = p) by (eapply isDrained_unique; eauto). subst. auto.
Qed.

Lemma in_neutral_invoke newer tr p k it id :
  Forall (fun e => neutral e = true) newer ->
  In (EvInvoke p k it id) (newer ++ tr) -> In (EvInvoke p k it id) tr.
Proof.
  intros Hn Hin. apply in_app_or in Hin. destruct Hin as [Hin|Hin]; [|assumption].
  rewrite Forall_forall in Hn. apply Hn in Hin. discriminate.
Qed.

(** ** Moves that keep the invariant *)

Lemma Booted_frame items w w' :
  Booted items w ->
  isBootstrapped w' = true ->
  queue w' = queue w ->
  startingSubject w' = startingSubject w ->
  (forall p, pendingCount p (pendingTicks w') <= pendingCount p (pendingTicks w)) ->
  (exists newer, trace w' = newer ++ trace w /\
                 Forall (fun e => neutral e = true) newer) ->
  Booted items w'.
Proof.
  intros [Hf Hs Hst Hg Hc Hk Hi Hwf] Hf' Hq Hs' Ht (newer & Htr & Hn).
  constructor; rewrite ?Hq, ?Hs', ?Htr; auto.
  - intros p. specialize (Hg p). specialize (Ht p). lia.
  - intros p. rewrite drainedCount_app, (drainedCount_neutral p _ Hn). apply Hc.
  - intros p k Hin. destruct (Hk p k Hin) as [H|[id H]]; [now left|right].
    exists id. apply in_or_app. now right.
  - intros p k it id Hin. eapply Hi. eapply in_neutral_invoke; eassumption.
  - now apply wf_trace_neutral.
Qed.

Lemma nextPhase_prevPhase p q : nextPhase p = Some q <-> prevPhase q = Some p.
Proof. destruct p, q; simpl; split; congruence. Qed.

Lemma drainedCount_pos p tr :
  0 < drainedCount p tr -> exists e, In e tr /\ isDrained p e = true.
Proof.
  unfold drainedCount. induction tr as [|e tr IH]; simpl; [lia|].
  destruct (isDrained p e) eqn:He; simpl; intros H.
  - exists e. auto.
  - destruct (IH H) as [e' [Hin Hd]]. exists e'. auto.
Qed.

Lemma okInvoke_of_triggered items w p :
  Booted items w ->
  triggered p (queue w) (startingSubject w) = true ->
  okInvoke items p (trace w).
Proof.
  intros HB Ht p0 Hp0. apply nextPhase_prevPhase in Hp0.
  unfold triggered in Ht. rewrite Hp0 in Ht.
  pose proof (b_count HB p0) as Hc. rewrite Ht in Hc. simpl in Hc.
  pose proof (b_shape HB p0) as Hs. unfold shape in Hs. rewrite Ht in Hs.
  destruct Hs as [Hq _]. split.
  - apply drainedCount_pos. lia.
  - intros k Hk. destruct (b_keys HB p0 k Hk) as [Hin|Hd]; [|assumption].
    rewrite Hq in Hin. destruct Hin.
Qed.

Lemma opened_triggered items w p :
  Booted items w -> opened p (queue w) = true ->
  pendingCount p (pendingTicks w) = 0 /\
  triggered p (queue w) (startingSubject w) = true.
Proof.
  intros HB Ho. pose proof (b_gate HB p) as Hg. rewrite Ho in Hg. simpl in Hg.
  destruct (triggered p (queue w) (startingSubject w)); simpl in Hg; split;
    try lia; reflexivity.
Qed.

Section Moves.

Variable host : Host.
Variable items : list LoaderServiceQueueItemModel.

Lemma Booted_processQueueItem p w :
  Booted items w -> opened p (queue w) = true ->
  Booted items (processQueueItem host p w).
Proof.
  intros HB Ho.
  destruct (processQueueItem_outcome host p w)
    as [_|key item rest instance _ _ _|key item rest instance _ _ _].
  - assumption.
  - apply Booted_frame with (w := w); auto.
    + apply (b_flag HB).
    + eexists [_]. split; [reflexivity|]. repeat constructor.
  - destruct (opened_triggered _ _ _ HB Ho) as [_ Ht].
    pose proof (okInvoke_of_triggered _ _ _ HB Ht) as Hok.
    destruct HB as [Hf Hs Hst Hg Hc Hk Hi Hwf].
    constructor; simpl; auto.
    + intros r k Hin. destruct (Hk r k Hin) as [H|[id H]]; [now left|right].
      exists id. simpl. auto.
    + intros r k it id [H|[H|H]]; try discriminate.
      * inversion H; subst. assumption.
      * eauto.
    + split; [|split; [exact I|assumption]].
      refine (okInvoke_mono _ _ [_] _ Hok).
Qed.

(** Changing the queues without touching what is stopped or opened. *)
Lemma Booted_requeue w q' :
  Booted items w ->
  (forall p, shape p q') ->
  (forall p, isStopped (getCount p q') = isStopped (getCount p (queue w))) ->
  (forall p, opened p q' = opened p (queue w)) ->
  (forall p k, In k (map_keys (getMap p (queue w))) ->
               In k (map_keys (getMap p q')) \/
               exists id, In (EvDone p k id) (trace w)) ->
  Booted items (setQueue q' w).
Proof.
  intros [Hf Hs Hst Hg Hc Hk Hi Hwf] Hs' Hstop Hop Hkeys.
  constructor; simpl; auto.
  - intros p. specialize (Hg p). rewrite Hop.
    replace (triggered p q' (startingSubject w))
      with (triggered p (queue w) (startingSubject w)); [assumption|].
    unfold triggered. destruct (prevPhase p); [now rewrite Hstop|reflexivity].
  - intros p. rewrite Hstop. apply Hc.
  - intros p k Hin. destruct (Hk p k Hin) as [H|H]; [|now right].
    apply Hkeys. assumption.
  - intros p k it id Hin. rewrite Hop. eauto.
Qed.

Lemma map_delete_keys {V} k k' (m : JsMap V) :
  In k' (map_keys (map_delete k m)) <-> In k' (map_keys m) /\ k' <> k.
Proof.
  unfold map_keys, map_delete. rewrite !in_map_iff. split.
  - intros [[k0 v] [<- Hin]]. apply filter_In in Hin. destruct Hin as [Hin Hneq].
    simpl in *. split; [exists (k0, v); auto|].
    intros ->. now rewrite String.eqb_refl in Hneq.
  - intros [[[k0 v] [<- Hin]] Hneq]. exists (k0, v). split; [reflexivity|].
    apply filter_In. split; [assumption|]. simpl in *.
    destruct (String.eqb_spec k0 k); [contradiction|reflexivity].
Qed.

Lemma Booted_delete p k w :
  Booted items w ->
  (exists id, In (EvDone p k id) (trace w)) ->
  Booted items
    (setQueue (setMap p (map_delete k (getQueue p w)) (queue w)) w).
Proof.
  intros HB Hd. apply Booted_requeue; auto.
  - intros r. pose proof (b_shape HB r) as Hs. unfold shape in *.
    rewrite !getCount_setMap.
    destruct (isStopped (getCount r (queue w))); [|assumption].
    destruct Hs as [Hm Ho]. split; [|assumption].
    destruct (type_eq_dec r p) as [->|Hne].
    + rewrite getMap_setMap_same. unfold getQueue. now rewrite Hm.
    + now rewrite getMap_setMap_other.
  - intros r. now rewrite getCount_setMap.
  - intros r. unfold opened. now rewrite getCount_setMap.
  - intros r k' Hin. destruct (type_eq_dec r p) as [->|Hne].
    + rewrite getMap_setMap_same.
      destruct (String.eqb_spec k' k) as [->|Hneq]; [now right|left].
      apply map_delete_keys. auto.
    + left. now rewrite getMap_setMap_other.
Qed.

End Moves.

Lemma triggered_setCount r p c q s :
  triggered r (setCount p c q) s =
  match prevPhase r with
  | Some p0 => if type_eqb p0 p then isStopped c else isStopped (getCount p0 q)
  | None => isStopped s
  end.
Proof. destruct r, p; reflexivity. Qed.

Lemma triggered_setMap r p m q s : triggered r (setMap p m q) s = triggered r q s.
Proof. destruct r, p; reflexivity. Qed.

Lemma opened_setCount r p c q :
  opened r (setCount p c q) =
  if type_eqb r p then isStopped c || existsb isFilter (observers c)
  else opened r q.
Proof. destruct r, p; reflexivity. Qed.

Lemma shape_setCount_other r p c q :
  r <> p -> shape r (setCount p c q) <-> shape r q.
Proof.
  intros Hne. unfold shape.
  rewrite getCount_setCount_other, getMap_setCount by assumption. reflexivity.
Qed.

Lemma type_eqb_neq p q : p <> q -> type_eqb p q = false.
Proof. destruct p, q; simpl; congruence. Qed.

Section Subjects.

Variable host : Host.
Variable items : list LoaderServiceQueueItemModel.

(** Replacing the subject of [p] by one that is stopped and opened as
    before. *)
Lemma Booted_resubject p c' w :
  Booted items w ->
  isStopped c' = isStopped (getCount p (queue w)) ->
  existsb isFilter (observers c') =
    existsb isFilter (observers (getCount p (queue w))) ->
  shape p (setCount p c' (queue w)) ->
  Booted items (setQueue (setCount p c' (queue w)) w).
Proof.
  intros HB Hst Hfi Hsh. apply Booted_requeue; auto.
  - intros r. destruct (type_eq_dec r p) as [->|Hne]; [assumption|].
    apply shape_setCount_other; [assumption|]. apply (b_shape HB).
  - intros r. destruct (type_eq_dec r p) as [->|Hne].
    + now rewrite getCount_setCount_same.
    + now rewrite getCount_setCount_other.
  - intros r. rewrite opened_setCount.
    destruct (type_eq_dec r p) as [->|Hne].
    + rewrite type_eqb_refl. unfold opened. now rewrite Hst, Hfi.
    + now rewrite type_eqb_neq.
  - intros r k Hin. left. now rewrite getMap_setCount.
Qed.

Lemma countNext_stopped p v w :
  isStopped (getCount p (queue w)) = true -> countNext host p v w = w.
Proof. intros H. unfold countNext, getSubject. now rewrite H. Qed.

Lemma countNext_plain p v w n l :
  isStopped (getCount p (queue w)) = false ->
  observers (getCount p (queue w)) = [ObsTakeLast n l] ->
  countNext host p v w =
  setQueue (setCount p (mkSubject [ObsTakeLast (Some v) l] false) (queue w)) w.
Proof.
  intros Hst Hobs. unfold countNext, getSubject. rewrite Hst, Hobs. reflexivity.
Qed.

Lemma countNext_filter p v w n l :
  isStopped (getCount p (queue w)) = false ->
  observers (getCount p (queue w)) = [ObsTakeLast n l; ObsFilterNonZero] ->
  countNext host p v w =
  let w1 := setQueue
              (setCount p (mkSubject [ObsTakeLast (Some v) l; ObsFilterNonZero] false)
                 (queue w)) w in
  if Nat.eqb v 0 then w1 else processQueueItem host p w1.
Proof.
  intros Hst Hobs. unfold countNext, getSubject. rewrite Hst, Hobs. reflexivity.
Qed.

Lemma Booted_countNext p v w :
  Booted items w -> Booted items (countNext host p v w).
Proof.
  intros HB. pose proof (b_shape HB p) as Hs. unfold shape in Hs.
  destruct (isStopped (getCount p (queue w))) eqn:Hst.
  - now rewrite countNext_stopped.
  - destruct Hs as (n & l & Hd & [Hobs|Hobs]).
    + rewrite (countNext_plain p v w _ l Hst Hobs).
      apply Booted_resubject; auto.
      * now rewrite Hobs.
      * unfold shape. rewrite getCount_setCount_same. simpl. eauto.
    + rewrite (countNext_filter p v w _ l Hst Hobs).
      assert (HB1 : Booted items
                (setQueue (setCount p
                   (mkSubject [ObsTakeLast (Some v) l; ObsFilterNonZero] false)
                   (queue w)) w)).
      { apply Booted_resubject; auto.
        - now rewrite Hobs.
        - unfold shape. rewrite getCount_setCount_same. simpl. eauto. }
      simpl. destruct (Nat.eqb v 0); [assumption|].
      apply Booted_processQueueItem; [assumption|].
      simpl. rewrite opened_setCount, type_eqb_refl. reflexivity.
Qed.

Lemma countComplete_stopped p w :
  isStopped (getCount p (queue w)) = true -> countComplete p w = w.
Proof. intros H. unfold countComplete, getSubject. now rewrite H. Qed.

Lemma countComplete_live p w n l rest :
  isStopped (getCount p (queue w)) = false ->
  observers (getCount p (queue w)) = ObsTakeLast (Some n) l :: rest ->
  Forall (fun o => isFilter o = true) rest ->
  countComplete p w =
  nextTick l (setQueue (setCount p (mkSubject [] true) (queue w)) w).
Proof.
  intros Hst Hobs Hrest. unfold countComplete, getSubject. rewrite Hst, Hobs.
  cbn [fold_left completeObserver].
  generalize (nextTick l (setQueue (setCount p (mkSubject [] true) (queue w)) w)).
  clear Hobs.
  induction Hrest as [|o rest Ho _ IH]; intros w0; simpl; [reflexivity|].
  destruct o; [discriminate|apply IH].
Qed.

Lemma isDrained_isProcessQueue p r l :
  isDrained p (EvNextTick l) = true ->
  isProcessQueue r l = match prevPhase r with
                       | Some p0 => type_eqb p0 p
                       | None => false
                       end.
Proof.
  destruct l as [q| | | |]; simpl; try discriminate.
  - destruct p, q, r; simpl; congruence.
  - destruct p, r; simpl; congruence.
Qed.

Lemma Booted_countComplete p w :
  Booted items w ->
  getMap p (queue w) = [] ->
  pendingCount p (pendingTicks w) = 0 ->
  triggered p (queue w) (startingSubject w) = true ->
  Booted items (countComplete p w).
Proof.
  intros HB Hq Hpend Htrig.
  pose proof (b_shape HB p) as Hs. unfold shape in Hs.
  destruct (isStopped (getCount p (queue w))) eqn:Hst.
  - now rewrite countComplete_stopped.
  - destruct Hs as (n & l & Hd & Hobs).
    assert (Hc : countComplete p w =
                 nextTick l (setQueue (setCount p (mkSubject [] true) (queue w)) w)).
    { destruct Hobs as [Hobs|Hobs];
        eapply countComplete_live; eauto; repeat constructor. }
    rewrite Hc. clear Hc Hobs.
    pose proof (okInvoke_of_triggered _ _ _ HB Htrig) as Hok.
    assert (Hall : allDone items p (trace w)).
    { intros k Hk. destruct (b_keys HB p k Hk) as [Hin|Hdone]; [|assumption].
      rewrite Hq in Hin. destruct Hin. }
    destruct HB as [Hf Hsh Hstart Hg Hcount Hk Hi Hwf].
    constructor; simpl; auto;
      [| | | | |change (wf_trace items (EvNextTick l :: trace w));
                apply wf_trace_drained with (p := p); auto].
    + intros r. destruct (type_eq_dec r p) as [->|Hne].
      * unfold shape. rewrite getCount_setCount_same, getMap_setCount. simpl. auto.
      * apply shape_setCount_other; auto.
    + intros r. rewrite pendingCount_app, opened_setCount, triggered_setCount.
      unfold pendingCount at 2. simpl.
      rewrite (isDrained_isProcessQueue p r l Hd).
      specialize (Hg r). unfold triggered in Hg.
      destruct (type_eq_dec r p) as [->|Hne].
      * rewrite type_eqb_refl. simpl. unfold triggered in Htrig.
        destruct (prevPhase p) as [p0|] eqn:Hp0.
        -- assert (type_eqb p0 p = false) by (destruct p, p0; simpl in *; congruence).
           rewrite H. simpl. rewrite Htrig. simpl. lia.
        -- rewrite Htrig. simpl. lia.
      * rewrite (type_eqb_neq _ _ Hne).
        destruct (prevPhase r) as [p0|]; [|simpl; lia].
        destruct (type_eq_dec p0 p) as [->|Hne0].
        -- rewrite type_eqb_refl. rewrite Hst in Hg. simpl in *. lia.
        -- rewrite (type_eqb_neq _ _ Hne0). simpl. lia.
    + intros r. rewrite drainedCount_cons.
      destruct (type_eq_dec r p) as [->|Hne].
      * rewrite Hd, getCount_setCount_same. simpl.
        specialize (Hcount p). rewrite Hst in Hcount. simpl in Hcount.
        now rewrite Hcount.
      * rewrite getCount_setCount_other by assumption.
        destruct (isDrained r (EvNextTick l)) eqn:Hr; [|apply Hcount].
        exfalso. apply Hne. eapply isDrained_unique; eauto.
    + intros r k Hin. rewrite getMap_setCount.
      destruct (Hk r k Hin) as [H|[id H]]; [now left|right]. exists id. now right.
    + intros r k it id [H|H]; [discriminate|].
      rewrite opened_setCount. specialize (Hi r k it id H).
      destruct (type_eqb r p); [reflexivity|assumption].
Qed.

End Subjects.

Section Callbacks.

Variable host : Host.
Variable items : list LoaderServiceQueueItemModel.

Lemma deliver_keeps {A} (proj : World -> A) p v :
  keeps proj (processQueueItem host p) ->
  forall o, keeps proj (fun w => deliver host p v w o).
Proof.
  intros H o w. destruct o; simpl; [reflexivity|].
  destruct (Nat.eqb v 0); [reflexivity|apply H].
Qed.

Lemma countNext_keeps {A} (proj : World -> A) p v :
  keeps proj (processQueueItem host p) ->
  (forall q w, proj (setQueue q w) = proj w) ->
  keeps proj (countNext host p v).
Proof.
  intros H Hq w. unfold countNext.
  destruct (isStopped (getSubject p w)); [reflexivity|].
  rewrite (keeps_fold proj (deliver host p v) _ (deliver_keeps proj p v H)).
  apply Hq.
Qed.

Lemma countNext_pendingTicks p v : keeps pendingTicks (countNext host p v).
Proof.
  apply countNext_keeps; [apply processQueueItem_pendingTicks|reflexivity].
Qed.

Lemma countNext_startingSubject p v : keeps startingSubject (countNext host p v).
Proof.
  apply countNext_keeps; [apply processQueueItem_startingSubject|reflexivity].
Qed.

Lemma countNext_finishSubject p v : keeps finishSubject (countNext host p v).
Proof.
  apply countNext_keeps; [apply processQueueItem_finishSubject|reflexivity].
Qed.

Lemma countNext_isBootstrapped p v : keeps isBootstrapped (countNext host p v).
Proof.
  apply countNext_keeps; [apply processQueueItem_isBootstrapped|reflexivity].
Qed.

Lemma countNext_metadata p v : keeps metadata (countNext host p v).
Proof.
  apply countNext_keeps; [apply processQueueItem_metadata|reflexivity].
Qed.

Lemma countNext_queue p v w :
  queue (countNext host p v w) =
  if isStopped (getCount p (queue w)) then queue w
  else setCount p
         (mkSubject (map (bufferValue v) (observers (getCount p (queue w)))) false)
         (queue w).
Proof.
  unfold countNext, getSubject.
  destruct (isStopped (getCount p (queue w))); [reflexivity|].
  rewrite (keeps_fold queue (deliver host p v) _
             (deliver_keeps queue p v (processQueueItem_queue host p))).
  reflexivity.
Qed.

Lemma countNext_getMap p v w r :
  getMap r (queue (countNext host p v w)) = getMap r (queue w).
Proof.
  rewrite countNext_queue. destruct (isStopped (getCount p (queue w)));
    [reflexivity|apply getMap_setCount].
Qed.

Lemma countNext_isStopped p v w r :
  isStopped (getCount r (queue (countNext host p v w))) =
  isStopped (getCount r (queue w)).
Proof.
  rewrite countNext_queue.
  destruct (isStopped (getCount p (queue w))) eqn:Hst; [reflexivity|].
  destruct (type_eq_dec r p) as [->|Hne].
  - rewrite getCount_setCount_same. simpl. now rewrite Hst.
  - now rewrite getCount_setCount_other.
Qed.

Lemma countNext_triggered p v w r :
  triggered r (queue (countNext host p v w)) (startingSubject (countNext host p v w))
  = triggered r (queue w) (startingSubject w).
Proof.
  unfold triggered. rewrite countNext_startingSubject.
  destruct (prevPhase r); [apply countNext_isStopped|reflexivity].
Qed.

End Callbacks.

Section Processing.

Variable host : Host.
Variable items : list LoaderServiceQueueItemModel.

Lemma cleared_neutral tid w :
  queue (cleared host tid w) = queue w /\
  startingSubject (cleared host tid w) = startingSubject w /\
  finishSubject (cleared host tid w) = finishSubject w /\
  isBootstrapped (cleared host tid w) = isBootstrapped w /\
  metadata (cleared host tid w) = metadata w /\
  pendingTicks (cleared host tid w) = pendingTicks w /\
  nextTimerId (cleared host tid w) = nextTimerId w /\
  exists newer, trace (cleared host tid w) = newer ++ trace w /\
                Forall (fun e => neutral e = true) newer.
Proof.
  unfold cleared, clearInterval.
  destruct tid as [id|]; [destruct (Nat.eqb id 0)|];
    try (repeat split; try reflexivity; exists []; split; [reflexivity|constructor]).
  destruct (hostClearIntervalCancelsTimeout host);
    (repeat split; try reflexivity; exists [EvClearInterval id];
     split; [reflexivity|repeat constructor]).
Qed.

Lemma Booted_cleared tid w : Booted items w -> Booted items (cleared host tid w).
Proof.
  intros HB.
  destruct (cleared_neutral tid w) as (Hq & Hs & _ & Hf & _ & Ht & _ & Htr).
  apply Booted_frame with (w := w); auto.
  - rewrite Hf. apply (b_flag HB).
  - intros p. rewrite Ht. lia.
Qed.

Lemma doneCallback_unfold p key tid w :
  doneCallback host p key tid w =
  let w1 := cleared host tid w in
  let w2 := match key with
            | Some k => setQueue (setMap p (map_delete k (getQueue p w1)) (queue w1)) w1
            | None => w1
            end in
  let w3 := countNext host p (map_size (getQueue p w2)) w2 in
  if Nat.eqb (map_size (getQueue p w3)) 0 then countComplete p w3 else w3.
Proof. reflexivity. Qed.

Lemma Booted_doneCallback p key tid w :
  Booted items w ->
  (forall k, key = Some k -> exists id, In (EvDone p k id) (trace w)) ->
  pendingCount p (pendingTicks w) = 0 ->
  triggered p (queue w) (startingSubject w) = true ->
  Booted items (doneCallback host p key tid w).
Proof.
  intros HB Hkey Hpend Htrig. rewrite doneCallback_unfold. cbv zeta.
  destruct (cleared_neutral tid w) as (Hq & Hs & _ & _ & _ & Ht & _ & newer & Htr & _).
  pose proof (Booted_cleared tid w HB) as HB1.
  set (w1 := cleared host tid w) in *.
  assert (HB2 : Booted items
            match key with
            | Some k => setQueue (setMap p (map_delete k (getQueue p w1)) (queue w1)) w1
            | None => w1
            end).
  { destruct key as [k|]; [|assumption].
    apply Booted_delete; [assumption|].
    destruct (Hkey k eq_refl) as [id Hid]. exists id. rewrite Htr.
    apply in_or_app. now right. }
  assert (Hpend2 : pendingCount p (pendingTicks
            match key with
            | Some k => setQueue (setMap p (map_delete k (getQueue p w1)) (queue w1)) w1
            | None => w1
            end) = 0).
  { destruct key; simpl; now rewrite Ht. }
  assert (Htrig2 : (fun w2 => triggered p (queue w2) (startingSubject w2) = true)
            match key with
            | Some k => setQueue (setMap p (map_delete k (getQueue p w1)) (queue w1)) w1
            | None => w1
            end).
  { destruct key; simpl; rewrite ?triggered_setMap, Hq, Hs; assumption. }
  simpl in Htrig2.
  set (w2 := match key with
             | Some k => setQueue (setMap p (map_delete k (getQueue p w1)) (queue w1)) w1
             | None => w1
             end) in *.
  pose proof (Booted_countNext host items p (map_size (getQueue p w2)) w2 HB2) as HB3.
  set (w3 := countNext host p (map_size (getQueue p w2)) w2) in *.
  destruct (Nat.eqb (map_size (getQueue p w3)) 0) eqn:Hsize; [|assumption].
  apply Booted_countComplete; auto.
  - apply Nat.eqb_eq in Hsize. unfold map_size, getQueue in Hsize.
    now apply length_zero_iff_nil.
  - unfold w3. now rewrite countNext_pendingTicks.
  - unfold w3. now rewrite countNext_triggered.
Qed.

Lemma Booted_processQueue p w :
  Booted items w ->
  pendingCount p (pendingTicks w) = 0 ->
  triggered p (queue w) (startingSubject w) = true ->
  opened p (queue w) = false ->
  Booted items (processQueue host p w).
Proof.
  intros HB Hpend Htrig Hop. unfold processQueue.
  destruct (Nat.eqb (map_size (getQueue p w)) 0).
  - apply Booted_doneCallback; auto. discriminate.
  - pose proof (b_shape HB p) as Hs. unfold shape in Hs.
    unfold opened in Hop. apply orb_false_iff in Hop. destruct Hop as [Hst Hfi].
    rewrite Hst in Hs. destruct Hs as (n & l & Hd & [Hobs|Hobs]);
      [|rewrite Hobs in Hfi; discriminate].
    unfold subscribe, getSubject. rewrite Hst, Hobs. simpl.
    apply Booted_processQueueItem;
      [|simpl; rewrite opened_setCount, type_eqb_refl; reflexivity].
    destruct HB as [Hf Hsh Hstart Hg Hcount Hk Hi Hwf].
    constructor; simpl; auto.
    + intros r. destruct (type_eq_dec r p) as [->|Hne].
      * unfold shape. rewrite getCount_setCount_same. simpl. eauto.
      * apply shape_setCount_other; auto.
    + intros r. rewrite opened_setCount, triggered_setCount.
      specialize (Hg r). unfold triggered in *.
      destruct (type_eq_dec r p) as [->|Hne].
      * rewrite type_eqb_refl. simpl.
        destruct (prevPhase p) as [p0|] eqn:Hp0.
        -- assert (type_eqb p0 p = false) by (destruct p, p0; simpl in *; congruence).
           rewrite H, Htrig, Hpend. simpl. lia.
        -- rewrite Htrig, Hpend. simpl. lia.
      * rewrite (type_eqb_neq _ _ Hne).
        destruct (prevPhase r) as [p0|]; [|assumption].
        destruct (type_eq_dec p0 p) as [->|Hne0].
        -- rewrite type_eqb_refl. simpl. now rewrite Hst in Hg.
        -- now rewrite (type_eqb_neq _ _ Hne0).
    + intros r. destruct (type_eq_dec r p) as [->|Hne].
      * rewrite getCount_setCount_same. simpl isStopped.
        rewrite Hcount. now rewrite Hst.
      * rewrite getCount_setCount_other by assumption. apply Hcount.
    + intros r k Hin. rewrite getMap_setCount. auto.
    + intros r k it id Hin. rewrite opened_setCount.
      specialize (Hi r k it id Hin). destruct (type_eqb r p); [reflexivity|assumption].
Qed.

End Processing.

(** ** Every transition keeps the invariant *)

Section Steps.

Variable host : Host.
Variable items : list LoaderServiceQueueItemModel.

Lemma Booted_nextTick_other l w :
  Booted items w ->
  (forall p, isProcessQueue p l = false) ->
  (forall p, isDrained p (EvNextTick l) = false) ->
  Booted items (nextTick l w).
Proof.
  intros [Hf Hsh Hstart Hg Hcount Hk Hi Hwf] Hpq Hdr.
  constructor; simpl; auto;
    [| | | |change (wf_trace items (EvNextTick l :: trace w));
            apply wf_trace_tick; auto].
  - intros p. rewrite pendingCount_app. unfold pendingCount at 2. simpl.
    rewrite Hpq. simpl. specialize (Hg p). lia.
  - intros p. rewrite drainedCount_cons, Hdr. apply Hcount.
  - intros p k Hin. destruct (Hk p k Hin) as [H|[id H]]; [now left|right].
    exists id. now right.
  - intros p k it id [H|H]; [discriminate|eauto].
Qed.

Lemma Booted_starting w :
  Booted items w -> Booted items (startingComplete (startingNext true w)).
Proof.
  intros HB. unfold startingNext.
  destruct (isStopped (startingSubject w)) eqn:Hst.
  - unfold startingComplete. now rewrite Hst.
  - pose proof (b_start HB Hst) as Hobs. rewrite Hobs.
    unfold startingComplete. simpl.
    destruct HB as [Hf Hsh Hstart Hg Hcount Hk Hi Hwf].
    constructor; simpl; auto;
      [| | | | |change (wf_trace items
                          (EvNextTick (LProcessQueue frameworkBeforeBoot) :: trace w));
                apply wf_trace_tick; auto; intros q; destruct q; reflexivity].
    + discriminate.
    + intros p. rewrite pendingCount_app. unfold pendingCount at 2. simpl.
      specialize (Hg p). unfold triggered in *.
      destruct p; simpl in *; try lia. rewrite Hst in Hg. simpl in Hg. lia.
    + intros p. rewrite drainedCount_cons.
      replace (isDrained p (EvNextTick (LProcessQueue frameworkBeforeBoot)))
        with false by (destruct p; reflexivity).
      apply Hcount.
    + intros p k Hin. destruct (Hk p k Hin) as [H|[id H]]; [now left|right].
      exists id. now right.
    + intros p k it id [H|H]; [discriminate|eauto].
Qed.

Lemma finishNext_neutral value w :
  queue (finishNext value w) = queue w /\
  startingSubject (finishNext value w) = startingSubject w /\
  finishSubject (finishNext value w) = finishSubject w /\
  isBootstrapped (finishNext value w) = isBootstrapped w /\
  pendingTicks (finishNext value w) = pendingTicks w /\
  exists newer, trace (finishNext value w) = newer ++ trace w /\
                Forall (fun e => isCallback e = true) newer.
Proof.
  unfold finishNext. destruct (isStopped (finishSubject w)).
  - repeat split; try reflexivity. exists []. split; [reflexivity|constructor].
  - generalize (observers (finishSubject w)) as cbs. intros cbs. revert w.
    induction cbs as [|cb cbs IH]; intros w; simpl.
    + repeat split; try reflexivity. exists []. split; [reflexivity|constructor].
    + destruct (IH (if value then emit (EvCallback cb [JsBool value]) w else w))
        as (H1 & H2 & H3 & H4 & H5 & newer & H6 & H7).
      rewrite H1, H2, H3, H4, H5, H6.
      destruct value; simpl; repeat split; try reflexivity.
      * exists (newer ++ [EvCallback cb [JsBool true]]).
        rewrite <- app_assoc. split; [reflexivity|].
        apply Forall_app. split; [assumption|repeat constructor].
      * exists newer. auto.
Qed.

Lemma callback_neutral newer :
  Forall (fun e => isCallback e = true) newer ->
  Forall (fun e => neutral e = true) newer.
Proof.
  apply Forall_impl. intros e. destruct e; simpl; congruence.
Qed.

Lemma Booted_finish w :
  Booted items w -> Booted items (finishComplete (finishNext true w)).
Proof.
  intros HB.
  destruct (finishNext_neutral true w) as (H1 & H2 & H3 & H4 & H5 & newer & H6 & H7).
  apply Booted_frame with (w := w); auto.
  - unfold finishComplete. destruct (isStopped (finishSubject (finishNext true w)));
      simpl; rewrite H4; apply (b_flag HB).
  - unfold finishComplete. destruct (isStopped (finishSubject (finishNext true w)));
      simpl; assumption.
  - unfold finishComplete. destruct (isStopped (finishSubject (finishNext true w)));
      simpl; assumption.
  - intros p. unfold finishComplete.
    destruct (isStopped (finishSubject (finishNext true w))); simpl; rewrite H5; lia.
  - exists newer. split; [|now apply callback_neutral].
    unfold finishComplete. destruct (isStopped (finishSubject (finishNext true w)));
      simpl; assumption.
Qed.

Lemma Booted_setupDoneTimeout m method duration id w :
  Booted items w -> Booted items (setupDoneTimeout host m method duration id w).
Proof.
  intros HB. apply Booted_frame with (w := w); auto;
    unfold setupDoneTimeout, clearInterval, log;
    destruct (hostClearIntervalCancelsTimeout host); simpl;
    try reflexivity; try apply (b_flag HB); try (intros; lia);
    (eexists [_; _; _]; split; [reflexivity|repeat constructor]).
Qed.

Lemma existsb_isInvoke p k id tr :
  existsb (isInvoke p k id) tr = true <-> exists it, In (EvInvoke p k it id) tr.
Proof.
  rewrite existsb_exists. split.
  - intros [e [Hin He]]. destruct e; simpl in He; try discriminate.
    apply andb_true_iff in He. destruct He as [He Hid].
    apply andb_true_iff in He. destruct He as [Hp Hk].
    apply type_eqb_eq in Hp. apply String.eqb_eq in Hk. apply Nat.eqb_eq in Hid.
    subst. eauto.
  - intros [it Hin]. exists (EvInvoke p k it id). split; [assumption|].
    simpl. now rewrite type_eqb_refl, String.eqb_refl, Nat.eqb_refl.
Qed.

Lemma pendingCount_nth p n ticks :
  nth_error ticks n = Some (LProcessQueue p) -> 0 < pendingCount p ticks.
Proof.
  intros H. rewrite <- (pendingCount_removeNth_hit p n ticks H). lia.
Qed.

Lemma step_Booted a w w' :
  Booted items w -> step host a w = Some w' -> Booted items w'.
Proof.
  intros HB Hstep. destruct a as [target|cb|id|n|p k id]; simpl in Hstep.
  - inversion Hstep; subst. unfold bootstrap. now rewrite (b_flag HB).
  - inversion Hstep; subst.
    apply Booted_frame with (w := w); auto.
    + apply (b_flag HB).
    + exists []. split; [reflexivity|constructor].
  - destruct (findTimer id (pendingTimers w)) as [l|]; [|discriminate].
    inversion Hstep; subst. clear Hstep.
    assert (HB0 : Booted items (setPendingTimers (cancelTimer id (pendingTimers w)) w)).
    { apply Booted_frame with (w := w); auto.
      - apply (b_flag HB).
      - exists []. split; [reflexivity|constructor]. }
    destruct l; simpl; try assumption.
    + set (w0 := setPendingTimers (cancelTimer id (pendingTimers w)) w) in *.
      assert (HB1 : Booted items (log "~lg~Start booting => ~w~Please wait..." w0)).
      { apply Booted_frame with (w := w0); auto.
        - apply (b_flag HB0).
        - eexists [_]. split; [reflexivity|repeat constructor]. }
      apply Booted_starting in HB1.
      apply Booted_frame with (w := startingComplete (startingNext true
              (log "~lg~Start booting => ~w~Please wait..." w0))); auto.
      * apply (b_flag HB1).
      * eexists [_]. split; [reflexivity|repeat constructor].
    + now apply Booted_setupDoneTimeout.
  - destruct (nth_error (pendingTicks w) n) as [l|] eqn:Hn; [|discriminate].
    inversion Hstep; subst. clear Hstep.
    assert (HB0 : Booted items (setPendingTicks (removeNth n (pendingTicks w)) w)).
    { apply Booted_frame with (w := w); auto.
      - apply (b_flag HB).
      - intros p. apply pendingCount_removeNth.
      - exists []. split; [reflexivity|constructor]. }
    destruct l as [p|target| | |]; simpl; try assumption.
    + pose proof (pendingCount_nth p n _ Hn) as Hpos.
      pose proof (pendingCount_removeNth_hit p n _ Hn) as Hhit.
      pose proof (b_gate HB p) as Hg.
      destruct (triggered p (queue w) (startingSubject w)) eqn:Htrig;
        simpl in Hg; [|lia].
      destruct (opened p (queue w)) eqn:Hop; simpl in Hg; [lia|].
      apply Booted_processQueue; simpl; auto. lia.
    + unfold finishUpBooting. destruct (hostResolve host target); [|assumption].
      apply Booted_nextTick_other; auto; intros p; destruct p; reflexivity.
    + now apply Booted_finish.
  - destruct (existsb (isInvoke p k id) (trace w)) eqn:Hinv; [|discriminate].
    inversion Hstep; subst. clear Hstep.
    apply existsb_isInvoke in Hinv. destruct Hinv as [it Hin].
    pose proof (b_invoke HB _ _ _ _ Hin) as Hop.
    destruct (opened_triggered _ _ _ HB Hop) as [Hpend Htrig].
    apply Booted_doneCallback; simpl; auto.
    + apply Booted_frame with (w := w); auto.
      * apply (b_flag HB).
      * eexists [_]. split; [reflexivity|repeat constructor].
    + intros k0 [= <-]. exists id. now left.
Qed.

Lemma step_pristine a w w' :
  pristine host items w -> step host a w = Some w' ->
  pristine host items w' \/ Booted items w'.
Proof.
  intros Hp Hstep. destruct a as [target|cb|id|n|p k id]; simpl in Hstep.
  - inversion Hstep; subst. right. now apply bootstrap_booted.
  - inversion Hstep; subst. left. destruct Hp as [cbs ->].
    exists (cbs ++ [cb]). reflexivity.
  - destruct Hp as [cbs ->]. discriminate.
  - destruct Hp as [cbs ->]. simpl in Hstep. destruct n; discriminate.
  - destruct Hp as [cbs ->]. discriminate.
Qed.

Lemma reachable_Inv w : reachable host items w -> Inv host items w.
Proof.
  induction 1 as [|w a w' _ IH Hstep].
  - left. exists []. reflexivity.
  - destruct IH as [Hp|HB].
    + eapply step_pristine; eassumption.
    + right. eapply step_Booted; eassumption.
Qed.

End Steps.

(** ** Registered keys *)

Lemma map_set_keys {V} k (v : V) m k' :
  In k' (map_keys (map_set k v m)) <-> k' = k \/ In k' (map_keys m).
Proof.
  unfold map_keys. induction m as [|[k0 v0] m IH]; simpl.
  - intuition auto.
  - destruct (String.eqb_spec k0 k) as [->|Hne]; simpl.
    + intuition auto.
    + rewrite IH. intuition auto.
Qed.

Lemma add_keys i q p k :
  In k (map_keys (getMap p (add i q))) <->
  In k (map_keys (getMap p q)) \/ (type i = p /\ identifier i = k).
Proof.
  unfold add. destruct (type_eq_dec p (type i)) as [->|Hne].
  - rewrite getMap_setMap_same, map_set_keys. split.
    + intros [->|H]; auto.
    + intros [H|[_ <-]]; auto.
  - rewrite getMap_setMap_other by assumption. split; [auto|].
    intros [H|[H _]]; [assumption|]. symmetry in H. contradiction.
Qed.

Lemma fold_add_keys items q p k :
  In k (map_keys (getMap p (fold_left (fun q i => add i q) items q))) <->
  In k (map_keys (getMap p q)) \/
  exists i, In i items /\ type i = p /\ identifier i = k.
Proof.
  revert q. induction items as [|i items IH]; intros q; simpl.
  - split; [auto|]. intros [H|(i & [] & _)]. assumption.
  - rewrite IH, add_keys. split.
    + intros [[H|[H1 H2]]|(j & Hj & H1 & H2)]; [now left|right..]; eauto 6.
    + intros [H|(j & [<-|Hj] & H1 & H2)]; [left; now left|left; now right|right];
        eauto 6.
Qed.

Lemma registered_In items i :
  In i items -> In (identifier i) (registeredKeys items (type i)).
Proof.
  intros Hin. unfold registeredKeys, registered. apply fold_add_keys.
  right. eauto.
Qed.

(** ** The order of the phases *)

Lemma wf_trace_split items later e earlier :
  wf_trace items (later ++ e :: earlier) ->
  match e with
  | EvInvoke q _ _ _ => okInvoke items q earlier
  | EvNextTick _ =>
      forall q, isDrained q e = true ->
                okInvoke items q earlier /\ allDone items q earlier
  | _ => True
  end.
Proof.
  induction later as [|e' later IH]; cbn [app wf_trace].
  - intros [H _]. exact H.
  - intros [_ H]. apply IH, H.
Qed.

Lemma isDrained_tick q e :
  isDrained q e = true -> exists l, e = EvNextTick l.
Proof. destruct e; simpl; try discriminate. eauto. Qed.

(** C1.  In every run the four queues are processed in the order
    frameworkBeforeBoot, before, after, frameworkAfterBoot: whenever a
    method of queue [q] is started, or [q] emits its drained event, the
    queue [p] just before [q] has already emitted its drained event, and the
    done callback of every item registered for [p] has already been
    called. *)
Theorem phases_in_order host items w later e earlier p q :
  reachable host items w ->
  trace w = later ++ e :: earlier ->
  nextPhase p = Some q ->
  (exists key item id, e = EvInvoke q key item id) \/ isDrained q e = true ->
  (exists d, In d earlier /\ isDrained p d = true) /\
  (forall i, In i items -> type i = p ->
             exists id, In (EvDone p (identifier i) id) earlier).
Proof.
  intros Hreach Htrace Hnext He.
  destruct (reachable_Inv host items w Hreach) as [[cbs ->]|HB].
  { simpl in Htrace. destruct later; discriminate. }
  pose proof (b_wf HB) as Hwf. rewrite Htrace in Hwf.
  apply wf_trace_split in Hwf.
  assert (Hok : okInvoke items q earlier).
  { destruct He as [(key & item & id & ->)|Hd]; [exact Hwf|].
    destruct (isDrained_tick q e Hd) as [l ->]. apply (Hwf q Hd). }
  destruct (Hok p Hnext) as [Hdr Hdone]. split; [exact Hdr|].
  intros i Hin <-. apply Hdone. now apply registered_In.
Qed.

Lemma sample_reachable : reachable sampleHost sampleItems sampleWorld.
Proof.
  apply run_reachable with (actions := sampleActions)
                           (w := initialWorld sampleHost sampleItems).
  - apply reach_init.
  - vm_compute. reflexivity.
Qed.

Lemma phases_in_order_witness :
  (exists d, In d (skipn 7 (trace sampleWorld)) /\ isDrained before d = true) /\
  (forall i, In i sampleItems -> type i = before ->
     exists id, In (EvDone before (identifier i) id) (skipn 7 (trace sampleWorld))).
Proof.
  apply (phases_in_order sampleHost sampleItems sampleWorld
           (firstn 6 (trace sampleWorld))
           (EvInvoke after "C_autoStart"
              (mkItem after (TokenClass 2 "C") "autoStart" 100) 4)
           (skipn 7 (trace sampleWorld)) before after).
  - apply sample_reachable.
  - vm_compute. reflexivity.
  - reflexivity.
  - left. do 3 eexists. reflexivity.
Defined.

(** ** What each operation adds to the trace *)

Lemma adds_refl P w : adds P w w.
Proof. exists []. split; [reflexivity|constructor]. Qed.

Lemma adds_same P w w' : trace w' = trace w -> adds P w w'.
Proof. intros H. exists []. split; [now rewrite H|constructor]. Qed.

Lemma adds_trans P w1 w2 w3 : adds P w1 w2 -> adds P w2 w3 -> adds P w1 w3.
Proof.
  intros (n1 & H1 & F1) (n2 & H2 & F2). exists (n2 ++ n1). split.
  - now rewrite H2, H1, app_assoc.
  - apply Forall_app. auto.
Qed.

Lemma adds_weaken (P Q : Event -> bool) w w' :
  (forall e, P e = true -> Q e = true) -> adds P w w' -> adds Q w w'.
Proof.
  intros HPQ (newer & H & F). exists newer. split; [assumption|].
  eapply Forall_impl; [|exact F]. auto.
Qed.

Lemma adds_emit (P : Event -> bool) e w : P e = true -> adds P w (emit e w).
Proof. intros H. exists [e]. split; [reflexivity|]. repeat constructor. exact H. Qed.

Lemma adds_fold {O} P (f : World -> O -> World) l w :
  (forall w o, adds P w (f w o)) -> adds P w (fold_left f l w).
Proof.
  intros Hf. revert w. induction l as [|o l IH]; intros w; simpl.
  - apply adds_refl.
  - eapply adds_trans; [apply Hf|apply IH].
Qed.

Lemma quiet_phaseEvent p e : quiet e = true -> phaseEvent p e = true.
Proof. destruct e; simpl; congruence. Qed.

Section Footprints.

Variable host : Host.

Lemma processQueueItem_adds p w :
  adds (phaseEvent p) w (processQueueItem host p w).
Proof.
  destruct (processQueueItem_outcome host p w)
    as [_|key item rest instance _ _ _|key item rest instance _ _ _].
  - apply adds_refl.
  - now apply adds_emit.
  - eexists [_; _]. split; [reflexivity|].
    repeat constructor. simpl. apply type_eqb_refl.
Qed.

Lemma countNext_adds p v w : adds (phaseEvent p) w (countNext host p v w).
Proof.
  unfold countNext. destruct (isStopped (getSubject p w)); [apply adds_refl|].
  eapply adds_trans; [|apply adds_fold].
  - apply adds_same. reflexivity.
  - intros w0 o. destruct o; simpl; [apply adds_refl|].
    destruct (Nat.eqb v 0); [apply adds_refl|apply processQueueItem_adds].
Qed.

Lemma completeObserver_adds w o : adds quiet w (completeObserver w o).
Proof.
  destruct o as [[n|] l|]; simpl; try apply adds_refl.
  eexists [_]. split; [reflexivity|]. repeat constructor.
Qed.

Lemma countComplete_adds p w : adds quiet w (countComplete p w).
Proof.
  unfold countComplete. destruct (isStopped (getSubject p w)); [apply adds_refl|].
  eapply adds_trans; [|apply adds_fold; apply completeObserver_adds].
  apply adds_same. reflexivity.
Qed.

Lemma cleared_adds tid w : adds quiet w (cleared host tid w).
Proof.
  unfold cleared. destruct tid as [id|]; [|apply adds_refl].
  destruct (Nat.eqb id 0); [apply adds_refl|].
  unfold clearInterval. destruct (hostClearIntervalCancelsTimeout host);
    (eexists [_]; split; [reflexivity|]; repeat constructor).
Qed.

Lemma doneCallback_adds p key tid w :
  adds (phaseEvent p) w (doneCallback host p key tid w).
Proof.
  rewrite doneCallback_unfold. cbv zeta.
  set (w1 := cleared host tid w).
  set (w2 := match key with
             | Some k => setQueue (setMap p (map_delete k (getQueue p w1)) (queue w1)) w1
             | None => w1
             end).
  set (w3 := countNext host p (map_size (getQueue p w2)) w2).
  assert (H3 : adds (phaseEvent p) w w3).
  { eapply adds_trans; [|apply countNext_adds].
    eapply adds_trans; [eapply adds_weaken; [apply quiet_phaseEvent|apply cleared_adds]|].
    apply adds_same. unfold w2. now destruct key. }
  destruct (Nat.eqb (map_size (getQueue p w3)) 0); [|assumption].
  eapply adds_trans; [exact H3|].
  eapply adds_weaken; [apply quiet_phaseEvent|apply countComplete_adds].
Qed.

Lemma processQueue_adds p w : adds (phaseEvent p) w (processQueue host p w).
Proof.
  unfold processQueue. destruct (Nat.eqb (map_size (getQueue p w)) 0).
  - apply doneCallback_adds.
  - eapply adds_trans; [|apply processQueueItem_adds]. apply adds_same. reflexivity.
Qed.

(** ** What each operation does to the queues *)

Lemma completeObserver_keeps {A} (proj : World -> A) :
  (forall l w, proj (nextTick l w) = proj w) ->
  forall o, keeps proj (fun w => completeObserver w o).
Proof. intros H o w. destruct o as [[n|] l|]; simpl; auto. Qed.

Lemma countComplete_keeps {A} (proj : World -> A) p :
  (forall l w, proj (nextTick l w) = proj w) ->
  (forall q w, proj (setQueue q w) = proj w) ->
  keeps proj (countComplete p).
Proof.
  intros Ht Hq w. unfold countComplete.
  destruct (isStopped (getSubject p w)); [reflexivity|].
  rewrite (keeps_fold proj completeObserver _ (completeObserver_keeps proj Ht)).
  apply Hq.
Qed.

Lemma countComplete_queue p w :
  queue (countComplete p w) =
  if isStopped (getCount p (queue w)) then queue w
  else setCount p (mkSubject [] true) (queue w).
Proof.
  unfold countComplete, getSubject.
  destruct (isStopped (getCount p (queue w))); [reflexivity|].
  rewrite (keeps_fold queue completeObserver _
             (completeObserver_keeps queue (fun l w => eq_refl))).
  reflexivity.
Qed.

Lemma countComplete_getMap p w r :
  getMap r (queue (countComplete p w)) = getMap r (queue w).
Proof.
  rewrite countComplete_queue. destruct (isStopped (getCount p (queue w)));
    [reflexivity|apply getMap_setCount].
Qed.

Lemma countComplete_isStopped p w :
  isStopped (getCount p (queue (countComplete p w))) = true.
Proof.
  rewrite countComplete_queue.
  destruct (isStopped (getCount p (queue w))) eqn:H; [assumption|].
  now rewrite getCount_setCount_same.
Qed.

Lemma doneCallback_getMap p key tid w r :
  getMap r (queue (doneCallback host p key tid w)) =
  match key with
  | Some k => if type_eqb r p then map_delete k (getMap p (queue w))
              else getMap r (queue w)
  | None => getMap r (queue w)
  end.
Proof.
  rewrite doneCallback_unfold. cbv zeta.
  destruct (cleared_neutral host tid w) as (Hq & _).
  set (w1 := cleared host tid w) in *.
  set (w2 := match key with
             | Some k => setQueue (setMap p (map_delete k (getQueue p w1)) (queue w1)) w1
             | None => w1
             end).
  set (w3 := countNext host p (map_size (getQueue p w2)) w2).
  assert (H3 : getMap r (queue w3) = getMap r (queue w2))
    by apply countNext_getMap.
  assert (H2 : getMap r (queue w2) =
               match key with
               | Some k => if type_eqb r p then map_delete k (getMap p (queue w))
                           else getMap r (queue w)
               | None => getMap r (queue w)
               end).
  { unfold w2. destruct key as [k|]; simpl; [|now rewrite Hq].
    unfold getQueue. rewrite Hq.
    destruct (type_eq_dec r p) as [->|Hne].
    - now rewrite type_eqb_refl, getMap_setMap_same.
    - now rewrite (type_eqb_neq _ _ Hne), getMap_setMap_other. }
  destruct (Nat.eqb (map_size (getQueue p w3)) 0).
  - now rewrite countComplete_getMap, H3.
  - now rewrite H3.
Qed.

Lemma doneCallback_empty_stopped p key tid w :
  getQueue p (doneCallback host p key tid w) = [] ->
  isStopped (getCount p (queue (doneCallback host p key tid w))) = true.
Proof.
  rewrite doneCallback_unfold. cbv zeta.
  set (w3 := countNext host p _ _).
  destruct (Nat.eqb (map_size (getQueue p w3)) 0) eqn:Hsize.
  - intros _. apply countComplete_isStopped.
  - intros H. rewrite H in Hsize. discriminate.
Qed.

Lemma processQueue_getMap p w r :
  getMap r (queue (processQueue host p w)) = getMap r (queue w).
Proof.
  unfold processQueue. destruct (Nat.eqb (map_size (getQueue p w)) 0).
  - now rewrite doneCallback_getMap.
  - rewrite processQueueItem_queue. simpl. apply getMap_setCount.
Qed.

End Footprints.

Section StepFrames.

Variable host : Host.

Lemma startingComplete_queue w : queue (startingComplete w) = queue w.
Proof.
  unfold startingComplete. destruct (isStopped (startingSubject w)); [reflexivity|].
  rewrite (keeps_fold queue completeStartingObserver).
  - reflexivity.
  - intros o w0. destruct o as [[|]|]; reflexivity.
Qed.

Lemma startingNext_queue v w : queue (startingNext v w) = queue w.
Proof.
  unfold startingNext. now destruct (isStopped (startingSubject w)).
Qed.

Lemma runTimer_queue id l w : queue (runTimer host id l w) = queue w.
Proof.
  destruct l; simpl; try reflexivity.
  - now rewrite startingComplete_queue, startingNext_queue.
  - unfold setupDoneTimeout, clearInterval.
    now destruct (hostClearIntervalCancelsTimeout host).
Qed.

Lemma finishComplete_queue w : queue (finishComplete w) = queue w.
Proof. unfold finishComplete. now destruct (isStopped (finishSubject w)). Qed.

Lemma runTick_getMap l w r :
  getMap r (queue (runTick host l w)) = getMap r (queue w).
Proof.
  destruct l as [p|tgt| | |]; simpl; try reflexivity.
  - apply processQueue_getMap.
  - unfold finishUpBooting. now destruct (hostResolve host tgt).
  - rewrite finishComplete_queue.
    destruct (finishNext_neutral true w) as (Hq & _). now rewrite Hq.
Qed.

(** Only a done callback takes something out of a queue. *)
Lemma step_getMap a w w' r :
  step host a w = Some w' -> isBootstrapped w = true ->
  getMap r (queue w') =
  match a with
  | ActComplete p k _ =>
      if type_eqb r p then map_delete k (getMap p (queue w)) else getMap r (queue w)
  | _ => getMap r (queue w)
  end.
Proof.
  intros Hstep Hflag. destruct a as [target|cb|id|n|p k id]; simpl in Hstep.
  - inversion Hstep; subst. unfold bootstrap. now rewrite Hflag.
  - inversion Hstep; subst. reflexivity.
  - destruct (findTimer id (pendingTimers w)) as [l|]; [|discriminate].
    inversion Hstep; subst. now rewrite runTimer_queue.
  - destruct (nth_error (pendingTicks w) n) as [l|]; [|discriminate].
    inversion Hstep; subst. now rewrite runTick_getMap.
  - destruct (existsb (isInvoke p k id) (trace w)); [|discriminate].
    inversion Hstep; subst. now rewrite doneCallback_getMap.
Qed.

Lemma step_extends a w w' : step host a w = Some w' -> isBootstrapped w = true ->
  extends w w'.
Proof.
  intros Hstep Hflag. destruct a as [target|cb|id|n|p k id]; simpl in Hstep.
  - inversion Hstep; subst. unfold bootstrap. rewrite Hflag. apply extends_refl.
  - inversion Hstep; subst. apply extends_same. reflexivity.
  - destruct (findTimer id (pendingTimers w)) as [l|]; [|discriminate].
    inversion Hstep; subst.
    destruct l; simpl; try (apply extends_same; reflexivity).
    + unfold startingNext, startingComplete, log. simpl.
      destruct (isStopped (startingSubject w)) eqn:Hst; simpl.
      * rewrite Hst. eexists [_; _]. reflexivity.
      * eapply extends_trans; [|apply extends_emit]. simpl.
        eapply extends_trans; [|apply extends_fold].
        -- eexists [_]. reflexivity.
        -- intros w0 o. destruct o as [[|]|]; simpl; try apply extends_refl.
           eexists [_]. reflexivity.
    + unfold setupDoneTimeout, clearInterval, log.
      destruct (hostClearIntervalCancelsTimeout host); eexists [_; _; _]; reflexivity.
  - destruct (nth_error (pendingTicks w) n) as [l|]; [|discriminate].
    inversion Hstep; subst.
    destruct l as [p|tgt| | |]; simpl; try (apply extends_same; reflexivity).
    + destruct (processQueue_adds host p
                  (setPendingTicks (removeNth n (pendingTicks w)) w)) as (nw & H & _).
      exists nw. exact H.
    + unfold finishUpBooting. destruct (hostResolve host tgt);
        [eexists [_]; reflexivity|apply extends_same; reflexivity].
    + destruct (finishNext_neutral true
                  (setPendingTicks (removeNth n (pendingTicks w)) w))
        as (_ & _ & _ & _ & _ & nw & H & _).
      exists nw. unfold finishComplete.
      destruct (isStopped (finishSubject (finishNext true _))); simpl; exact H.
  - destruct (existsb (isInvoke p k id) (trace w)); [|discriminate].
    inversion Hstep; subst.
    destruct (doneCallback_adds host p (Some k) (Some id) (emit (EvDone p k id) w))
      as (nw & H & _).
    exists (nw ++ [EvDone p k id]). rewrite H. simpl. now rewrite <- app_assoc.
Qed.

End StepFrames.

(** ** The drained event *)

Lemma drainedCount_extends p w w' :
  extends w w' -> drainedCount p (trace w) <= drainedCount p (trace w').
Proof. intros [newer ->]. rewrite drainedCount_app. lia. Qed.

Lemma Inv_drained_le host items w p :
  Inv host items w -> drainedCount p (trace w) <= 1.
Proof.
  intros [[cbs ->]|HB]; [simpl; unfold drainedCount; simpl; lia|].
  rewrite (b_count HB p). destruct (isStopped _); simpl; lia.
Qed.

(** C5.  In every run the drained event of a queue is emitted at most
    once, and exactly when the queue gets empty: with the transition
    that takes the last key out of the queue (the count goes from 0 to 1
    in that transition), or, for a queue that is empty when its
    processing begins, with the next tick that begins it.  Once emitted,
    no later transition (a repeated done callback, a repeated zero size)
    emits it again. *)
Theorem drained_exactly_once host items w p :
  reachable host items w ->
  drainedCount p (trace w) <= 1 /\
  forall a w', step host a w = Some w' ->
    (getQueue p w <> [] -> getQueue p w' = [] ->
     drainedCount p (trace w) = 0 /\ drainedCount p (trace w') = 1) /\
    (forall n, a = ActTick n ->
               nth_error (pendingTicks w) n = Some (LProcessQueue p) ->
               getQueue p w = [] ->
     drainedCount p (trace w) = 0 /\ drainedCount p (trace w') = 1) /\
    (drainedCount p (trace w) = 1 -> drainedCount p (trace w') = 1).
Proof.
  intros Hreach.
  pose proof (reachable_Inv host items w Hreach) as HI.
  split; [eapply Inv_drained_le; eassumption|].
  intros a w' Hstep.
  assert (Hreach' : reachable host items w') by (eapply reach_step; eassumption).
  pose proof (reachable_Inv host items w' Hreach') as HI'.
  pose proof (Inv_drained_le host items w' p HI') as Hle'.
  split; [|split].
  - intros Hne Hempty.
    destruct HI as [[cbs ->]|HB];
      [exfalso; apply Hne; destruct p; reflexivity|].
    pose proof (step_Booted host items a w w' HB Hstep) as HB'.
    pose proof (b_shape HB p) as Hs. unfold shape in Hs.
    destruct (isStopped (getCount p (queue w))) eqn:Hst.
    { destruct Hs as [Hq _]. now elim Hne. }
    split; [rewrite (b_count HB p), Hst; reflexivity|].
    rewrite (b_count HB' p).
    pose proof (step_getMap host a w w' p Hstep (b_flag HB)) as Hmap.
    destruct a as [target|cb|id|n|q k id];
      try (unfold getQueue in *; rewrite Hmap in Hempty; now elim Hne).
    destruct (type_eq_dec p q) as [<-|Hpq].
    + simpl in Hstep.
      destruct (existsb (isInvoke p k id) (trace w)); [|discriminate].
      inversion Hstep; subst.
      now rewrite (doneCallback_empty_stopped host p _ _ _ Hempty).
    + rewrite (type_eqb_neq _ _ Hpq) in Hmap.
      unfold getQueue in *. rewrite Hmap in Hempty. now elim Hne.
  - intros n -> Hn Hempty.
    destruct HI as [[cbs ->]|HB]; [destruct n; discriminate|].
    pose proof (step_Booted host items _ w w' HB Hstep) as HB'.
    pose proof (b_gate HB p) as Hg.
    pose proof (pendingCount_nth p n _ Hn) as Hpos.
    assert (Hop : opened p (queue w) = false).
    { destruct (opened p (queue w)); [|reflexivity].
      destruct (triggered p (queue w) (startingSubject w)); simpl in Hg; lia. }
    unfold opened in Hop. apply orb_false_iff in Hop. destruct Hop as [Hst _].
    split; [rewrite (b_count HB p), Hst; reflexivity|].
    rewrite (b_count HB' p).
    simpl in Hstep. rewrite Hn in Hstep. inversion Hstep; subst. simpl.
    unfold processQueue.
    replace (getQueue p (setPendingTicks (removeNth n (pendingTicks w)) w))
      with (@nil (string * LoaderServiceQueueItemModel)) by (symmetry; exact Hempty).
    simpl. rewrite doneCallback_empty_stopped; [reflexivity|].
    unfold getQueue. rewrite doneCallback_getMap. exact Hempty.
  - intros H1.
    assert (Hext : extends w w').
    { destruct HI as [[cbs ->]|HB]; [discriminate|].
      eapply step_extends; [eassumption|apply (b_flag HB)]. }
    pose proof (drainedCount_extends p w w' Hext). lia.
Qed.

(** ** Parts of the world that processing a queue never touches *)

Lemma blind_finishSubject : serviceBlind finishSubject.
Proof. repeat split. Qed.

Lemma blind_startingSubject : serviceBlind startingSubject.
Proof. repeat split. Qed.

Lemma blind_isBootstrapped : serviceBlind isBootstrapped.
Proof. repeat split. Qed.

Lemma blind_metadata : serviceBlind metadata.
Proof. repeat split. Qed.

Section Blind.

Variable host : Host.
Variable A : Type.
Variable proj : World -> A.
Hypothesis blind : serviceBlind proj.

Lemma blind_processQueueItem p : keeps proj (processQueueItem host p).
Proof.
  destruct blind as (Hq & He & Htm & Htk & Hst). intros w.
  destruct (processQueueItem_outcome host p w)
    as [_|key item rest instance _ _ _|key item rest instance _ _ _].
  - reflexivity.
  - apply He.
  - now rewrite He, Hst.
Qed.

Lemma blind_countNext p v : keeps proj (countNext host p v).
Proof.
  apply countNext_keeps; [apply blind_processQueueItem|apply blind].
Qed.

Lemma blind_nextTick l w : proj (nextTick l w) = proj w.
Proof.
  destruct blind as (Hq & He & Htm & Htk & Hst). unfold nextTick.
  now rewrite He, Htk.
Qed.

Lemma blind_countComplete p : keeps proj (countComplete p).
Proof.
  apply countComplete_keeps; [apply blind_nextTick|apply blind].
Qed.

Lemma blind_clearInterval id w : proj (clearInterval host id w) = proj w.
Proof.
  destruct blind as (Hq & He & Htm & Htk & Hst). unfold clearInterval.
  rewrite He. now destruct (hostClearIntervalCancelsTimeout host); rewrite ?Htm.
Qed.

Lemma blind_cleared tid : keeps proj (cleared host tid).
Proof.
  intros w. unfold cleared. destruct tid as [id|]; [|reflexivity].
  destruct (Nat.eqb id 0); [reflexivity|apply blind_clearInterval].
Qed.

Lemma blind_doneCallback p key tid : keeps proj (doneCallback host p key tid).
Proof.
  intros w. rewrite doneCallback_unfold. cbv zeta.
  set (w1 := cleared host tid w).
  set (w2 := match key with
             | Some k => setQueue (setMap p (map_delete k (getQueue p w1)) (queue w1)) w1
             | None => w1
             end).
  set (w3 := countNext host p (map_size (getQueue p w2)) w2).
  assert (H3 : proj w3 = proj w).
  { unfold w3. rewrite blind_countNext. unfold w2.
    destruct blind as (Hq & _).
    destruct key; rewrite ?Hq; apply blind_cleared. }
  destruct (Nat.eqb (map_size (getQueue p w3)) 0); [|assumption].
  now rewrite blind_countComplete.
Qed.

Lemma blind_processQueue p : keeps proj (processQueue host p).
Proof.
  intros w. unfold processQueue. destruct (Nat.eqb (map_size (getQueue p w)) 0).
  - apply blind_doneCallback.
  - rewrite blind_processQueueItem. apply blind.
Qed.

Lemma blind_setupDoneTimeout m method d id :
  keeps proj (setupDoneTimeout host m method d id).
Proof.
  intros w. unfold setupDoneTimeout, log. rewrite blind_clearInterval.
  destruct blind as (Hq & He & _). now rewrite !He.
Qed.

End Blind.

(** ** The finish subject *)

Section Finish.

Variable host : Host.

Lemma startingComplete_finishSubject w :
  finishSubject (startingComplete w) = finishSubject w.
Proof.
  unfold startingComplete. destruct (isStopped (startingSubject w)); [reflexivity|].
  rewrite (keeps_fold finishSubject completeStartingObserver).
  - reflexivity.
  - intros o w0. destruct o as [[|]|]; reflexivity.
Qed.

Lemma runTimer_finishSubject id l w :
  finishSubject (runTimer host id l w) = finishSubject w.
Proof.
  destruct l; simpl; try reflexivity.
  - rewrite startingComplete_finishSubject. unfold startingNext.
    now destruct (isStopped (startingSubject (log _ w))).
  - apply (blind_setupDoneTimeout host _ _ blind_finishSubject).
Qed.

Lemma runTimer_adds id l w : adds quiet w (runTimer host id l w).
Proof.
  destruct l; simpl; try apply adds_refl.
  - unfold startingNext, startingComplete, log. simpl.
    destruct (isStopped (startingSubject w)) eqn:Hst; simpl.
    + rewrite Hst. eexists [_; _]. split; [reflexivity|repeat constructor].
    + eapply adds_trans; [|eexists [_]; split; [reflexivity|repeat constructor]].
      simpl. eapply adds_trans; [|apply adds_fold].
      * eexists [_]. split; [reflexivity|repeat constructor].
      * intros w0 o. destruct o as [[|]|]; simpl; try apply adds_refl.
        eexists [_]. split; [reflexivity|repeat constructor].
  - unfold setupDoneTimeout, clearInterval, log.
    destruct (hostClearIntervalCancelsTimeout host);
      (eexists [_; _; _]; split; [reflexivity|repeat constructor]).
Qed.

(** What a transition adds to the trace. *)
Lemma step_adds a w w' :
  step host a w = Some w' -> isBootstrapped w = true ->
  match a with
  | ActComplete p k id =>
      exists newer, trace w' = newer ++ EvDone p k id :: trace w /\
                    Forall (fun e => phaseEvent p e = true) newer
  | ActTick n =>
      match nth_error (pendingTicks w) n with
      | Some (LProcessQueue p) => adds (phaseEvent p) w w'
      | Some LFinish => adds isCallback w w'
      | _ => adds quiet w w'
      end
  | _ => adds quiet w w'
  end.
Proof.
  intros Hstep Hflag. destruct a as [target|cb|id|n|p k id]; simpl in Hstep.
  - inversion Hstep; subst. unfold bootstrap. rewrite Hflag. apply adds_refl.
  - inversion Hstep; subst. apply adds_same. reflexivity.
  - destruct (findTimer id (pendingTimers w)) as [l|]; [|discriminate].
    inversion Hstep; subst.
    eapply adds_trans; [|apply runTimer_adds]. apply adds_same. reflexivity.
  - destruct (nth_error (pendingTicks w) n) as [l|]; [|discriminate].
    inversion Hstep; subst.
    destruct l as [p|tgt| | |]; simpl; try (apply adds_same; reflexivity).
    + eapply adds_trans; [|apply processQueue_adds]. apply adds_same. reflexivity.
    + unfold finishUpBooting. destruct (hostResolve host tgt);
        [|apply adds_same; reflexivity].
      eexists [_]. split; [reflexivity|repeat constructor].
    + destruct (finishNext_neutral true
                  (setPendingTicks (removeNth n (pendingTicks w)) w))
        as (_ & _ & _ & _ & _ & nw & H & HF).
      exists nw. split; [|assumption]. unfold finishComplete.
      destruct (isStopped (finishSubject (finishNext true _))); simpl; exact H.
  - destruct (existsb (isInvoke p k id) (trace w)); [|discriminate].
    inversion Hstep; subst.
    destruct (doneCallback_adds host p (Some k) (Some id) (emit (EvDone p k id) w))
      as (nw & H & HF).
    exists nw. split; assumption.
Qed.

(** What a transition does to the finish subject. *)
Lemma step_finishSubject a w w' :
  step host a w = Some w' -> isBootstrapped w = true ->
  match a with
  | ActDone cb => finishSubject w' = subscribe cb (finishSubject w)
  | ActTick n =>
      match nth_error (pendingTicks w) n with
      | Some LFinish =>
          w' = finishComplete
                 (finishNext true (setPendingTicks (removeNth n (pendingTicks w)) w))
      | _ => finishSubject w' = finishSubject w
      end
  | _ => finishSubject w' = finishSubject w
  end.
Proof.
  intros Hstep Hflag. destruct a as [target|cb|id|n|p k id]; simpl in Hstep.
  - inversion Hstep; subst. unfold bootstrap. now rewrite Hflag.
  - inversion Hstep; subst. reflexivity.
  - destruct (findTimer id (pendingTimers w)) as [l|]; [|discriminate].
    inversion Hstep; subst. now rewrite runTimer_finishSubject.
  - destruct (nth_error (pendingTicks w) n) as [l|]; [|discriminate].
    inversion Hstep; subst.
    destruct l as [p|tgt| | |]; simpl; try reflexivity.
    + now rewrite (blind_processQueue host _ _ blind_finishSubject).
    + unfold finishUpBooting. now destruct (hostResolve host tgt).
  - destruct (existsb (isInvoke p k id) (trace w)); [|discriminate].
    inversion Hstep; subst.
    now rewrite (blind_doneCallback host _ _ blind_finishSubject).
Qed.

Lemma finishNext_stopped value w :
  isStopped (finishSubject w) = true -> finishNext value w = w.
Proof. intros H. unfold finishNext. now rewrite H. Qed.

Lemma finishComplete_stopped w :
  isStopped (finishSubject w) = true -> finishComplete w = w.
Proof. intros H. unfold finishComplete. now rewrite H. Qed.

Lemma filter_callback_adds (P : Event -> bool) w w' :
  (forall e, P e = true -> isCallback e = false) ->
  adds P w w' ->
  filter isCallback (trace w') = filter isCallback (trace w).
Proof.
  intros HP (newer & -> & HF). rewrite filter_app.
  replace (filter isCallback newer) with (@nil Event); [reflexivity|].
  symmetry. induction HF as [|e newer He _ IH]; simpl; [reflexivity|].
  now rewrite (HP e He).
Qed.

(** Once the finish subject has completed it stays so, and no callback
    is called any more. *)
Lemma step_after_finish a w w' :
  isBootstrapped w = true ->
  isStopped (finishSubject w) = true ->
  step host a w = Some w' ->
  isStopped (finishSubject w') = true /\
  filter isCallback (trace w') = filter isCallback (trace w).
Proof.
  intros Hflag Hstop Hstep.
  pose proof (step_finishSubject a w w' Hstep Hflag) as Hfin.
  pose proof (step_adds a w w' Hstep Hflag) as Hadd.
  destruct a as [target|cb|id|n|p k id].
  - rewrite Hfin. split; [assumption|].
    apply (filter_callback_adds quiet); [|assumption].
    intros e. destruct e; simpl; congruence.
  - rewrite Hfin. unfold subscribe. rewrite Hstop. split; [assumption|].
    apply (filter_callback_adds quiet); [|assumption].
    intros e. destruct e; simpl; congruence.
  - rewrite Hfin. split; [assumption|].
    apply (filter_callback_adds quiet); [|assumption].
    intros e. destruct e; simpl; congruence.
  - destruct (nth_error (pendingTicks w) n) as [[q|tgt| | |]|];
      try (rewrite Hfin; split; [assumption|];
           first [ apply (filter_callback_adds quiet); [|assumption];
                   intros e; destruct e; simpl; congruence
                 | apply (filter_callback_adds (phaseEvent q)); [|assumption];
                   intros e; destruct e; simpl; congruence ]).
    subst w'. rewrite finishNext_stopped by assumption.
    rewrite finishComplete_stopped by assumption. split; [assumption|reflexivity].
  - rewrite Hfin. split; [assumption|].
    destruct Hadd as (newer & -> & HF). rewrite filter_app. simpl.
    replace (filter isCallback newer) with (@nil Event); [reflexivity|].
    symmetry. induction HF as [|e newer He _ IH]; simpl; [reflexivity|].
    destruct e; simpl in *; try discriminate; assumption.
Qed.

Lemma finishNext_true_trace w :
  isStopped (finishSubject w) = false ->
  trace (finishNext true w) =
  rev (map (fun cb => EvCallback cb [JsBool true]) (observers (finishSubject w)))
    ++ trace w.
Proof.
  intros H. unfold finishNext. rewrite H.
  generalize (observers (finishSubject w)) as cbs. intros cbs. revert w H.
  induction cbs as [|cb cbs IH]; intros w H; simpl; [reflexivity|].
  rewrite IH by exact H. simpl. now rewrite <- app_assoc.
Qed.

End Finish.

Lemma run_Booted host items actions w w' :
  Booted items w -> run host actions w = Some w' -> Booted items w'.
Proof.
  revert w. induction actions as [|a rest IH]; simpl; intros w HB Hrun.
  - inversion Hrun; subst; assumption.
  - destruct (step host a w) as [w1|] eqn:Hstep; [|discriminate].
    eapply IH; [|eassumption]. eapply step_Booted; eassumption.
Qed.

(** ** [bootstrap] and [done] *)

(** C6.  [bootstrap] is idempotent: in every run, once [bootstrap] has
    been called, whatever happened since, a further call gives back the
    service with nothing changed: no queue refilled, no timer or tick
    asked for, nothing added to the trace. *)
Theorem bootstrap_idempotent host items w target actions w' target' :
  reachable host items w ->
  run host (ActBootstrap target :: actions) w = Some w' ->
  bootstrap host target' w' = w' /\
  step host (ActBootstrap target') w' = Some w'.
Proof.
  intros Hreach Hrun. simpl in Hrun.
  assert (HB : Booted items (bootstrap host target w)).
  { destruct (reachable_Inv host items w Hreach) as [Hp|HB].
    - now apply bootstrap_booted.
    - unfold bootstrap. now rewrite (b_flag HB). }
  pose proof (run_Booted host items actions _ w' HB Hrun) as HB'.
  assert (H : bootstrap host target' w' = w').
  { unfold bootstrap. now rewrite (b_flag HB'). }
  split; [exact H|]. simpl. now rewrite H.
Qed.

Lemma bootstrap_idempotent_witness :
  reachable sampleHost sampleItems (initialWorld sampleHost sampleItems) /\
  bootstrap sampleHost (TokenString "other")
    (worldAfter sampleHost sampleItems
       [ActBootstrap (TokenString "root"); ActTimer 1; ActTick 0; ActTick 0])
  = worldAfter sampleHost sampleItems
      [ActBootstrap (TokenString "root"); ActTimer 1; ActTick 0; ActTick 0].
Proof.
  split; [apply reach_init|].
  apply (bootstrap_idempotent sampleHost sampleItems
           (initialWorld sampleHost sampleItems) (TokenString "root")
           [ActTimer 1; ActTick 0; ActTick 0] _ (TokenString "other")).
  - apply reach_init.
  - vm_compute. reflexivity.
Defined.

Lemma done_stopped_noop cb w :
  isStopped (finishSubject w) = true -> done cb w = w.
Proof.
  intros H. unfold done, subscribe. rewrite H. now destruct w.
Qed.

Lemma run_after_finish host items actions w w' :
  Booted items w -> isStopped (finishSubject w) = true ->
  run host actions w = Some w' ->
  isStopped (finishSubject w') = true /\
  filter isCallback (trace w') = filter isCallback (trace w).
Proof.
  revert w. induction actions as [|a rest IH]; simpl; intros w HB Hstop Hrun.
  - inversion Hrun; subst. auto.
  - destruct (step host a w) as [w1|] eqn:Hstep; [|discriminate].
    destruct (step_after_finish host a w w1 (b_flag HB) Hstop Hstep) as [Hs1 Hf1].
    destruct (IH w1 (step_Booted host items a w w1 HB Hstep) Hs1 Hrun) as [Hs' Hf'].
    split; [assumption|congruence].
Qed.

Lemma reachable_stopped_Booted host items w :
  reachable host items w -> isStopped (finishSubject w) = true -> Booted items w.
Proof.
  intros Hreach Hstop.
  destruct (reachable_Inv host items w Hreach) as [[cbs ->]|HB];
    [discriminate|assumption].
Qed.

(** C8.  A callback given to [done] after the finish subject has fired is
    never called: the registration leaves the service as it was, and
    whatever happens afterwards, no callback is called any more. *)
Theorem done_after_finish_never_invoked host items w cb actions w' :
  reachable host items w ->
  isStopped (finishSubject w) = true ->
  run host actions (done cb w) = Some w' ->
  done cb w = w /\
  filter isCallback (trace w') = filter isCallback (trace w).
Proof.
  intros Hreach Hstop Hrun.
  pose proof (done_stopped_noop cb w Hstop) as Hnoop.
  split; [exact Hnoop|]. rewrite Hnoop in Hrun.
  pose proof (reachable_stopped_Booted host items w Hreach Hstop) as HB.
  apply (run_after_finish host items actions w w' HB Hstop Hrun).
Qed.

Lemma done_after_finish_never_invoked_witness :
  isStopped (finishSubject sampleWorld) = true /\
  filter isCallback
    (trace (worldAfter sampleHost sampleItems
              (sampleActions ++
                 [ActDone 9; ActBootstrap (TokenString "again");
                  ActComplete after "C_autoStart" 4; ActTimer 2])))
  = filter isCallback (trace sampleWorld).
Proof.
  split; [reflexivity|].
  refine (proj2 (done_after_finish_never_invoked sampleHost sampleItems
                   sampleWorld 9
                   [ActBootstrap (TokenString "again");
                    ActComplete after "C_autoStart" 4; ActTimer 2] _ _ _ _)).
  - apply sample_reachable.
  - reflexivity.
  - vm_compute. reflexivity.
Defined.

Lemma finishComplete_isStopped w :
  isStopped (finishSubject (finishComplete w)) = true.
Proof.
  unfold finishComplete. destruct (isStopped (finishSubject w)) eqn:H;
    [assumption|reflexivity].
Qed.

Lemma subscribe_In {O} (o o' : O) s :
  In o (observers s) -> In o (observers (subscribe o' s)).
Proof.
  unfold subscribe. destruct (isStopped s); simpl; [auto|].
  intros H. apply in_or_app. now left.
Qed.

(** While the finish subject has not fired, it keeps its observers. *)
Lemma step_keeps_observer host items a w w' cb :
  Inv host items w ->
  In cb (observers (finishSubject w)) ->
  step host a w = Some w' ->
  isStopped (finishSubject w') = false ->
  In cb (observers (finishSubject w')).
Proof.
  intros HI Hin Hstep Hlive. destruct HI as [Hp|HB].
  - destruct a as [target|c|id|n|p k id]; simpl in Hstep.
    + inversion Hstep; subst.
      destruct (bootstrap_pristine host items target w Hp) as (? & ? & ? & ? & ->).
      exact Hin.
    + inversion Hstep; subst. simpl. now apply subscribe_In.
    + destruct Hp as [cbs ->]. discriminate.
    + destruct Hp as [cbs ->]. simpl in Hstep. destruct n; discriminate.
    + destruct Hp as [cbs ->]. discriminate.
  - pose proof (step_finishSubject host a w w' Hstep (b_flag HB)) as Hfin.
    destruct a as [target|c|id|n|p k id]; try (now rewrite Hfin).
    + rewrite Hfin. now apply subscribe_In.
    + destruct (nth_error (pendingTicks w) n) as [[q|tgt| | |]|];
        try (now rewrite Hfin).
      subst w'. rewrite finishComplete_isStopped in Hlive. discriminate.
Qed.

Lemma run_keeps_observer host items actions w w' cb :
  reachable host items w ->
  In cb (observers (finishSubject w)) ->
  run host actions w = Some w' ->
  isStopped (finishSubject w') = false ->
  In cb (observers (finishSubject w')).
Proof.
  revert w. induction actions as [|a rest IH]; simpl; intros w Hreach Hin Hrun Hlive.
  - inversion Hrun; subst. assumption.
  - destruct (step host a w) as [w1|] eqn:Hstep; [|discriminate].
    assert (Hreach1 : reachable host items w1) by (eapply reach_step; eassumption).
    destruct (isStopped (finishSubject w1)) eqn:Hs1.
    + pose proof (reachable_stopped_Booted host items w1 Hreach1 Hs1) as HB1.
      destruct (run_after_finish host items rest w1 w' HB1 Hs1 Hrun) as [Hs' _].
      congruence.
    + apply (IH w1); auto.
      apply (step_keeps_observer host items a w w1 cb); auto.
      now apply reachable_Inv.
Qed.

(** C7, as the code has it.  A callback given to [done] before the finish
    subject fires is called when it fires, with one argument, the value
    [true] the subject emits. *)
Theorem done_before_finish_invoked_with_true
  host items w cb actions w1 n w2 :
  reachable host items w ->
  run host (ActDone cb :: actions) w = Some w1 ->
  isStopped (finishSubject w1) = false ->
  nth_error (pendingTicks w1) n = Some LFinish ->
  step host (ActTick n) w1 = Some w2 ->
  isStopped (finishSubject w2) = true /\
  exists newer,
    trace w2 = newer ++ trace w1 /\
    In (EvCallback cb [JsBool true]) newer /\
    forall c args, In (EvCallback c args) newer -> args = [JsBool true].
Proof.
  intros Hreach Hrun Hlive Hn Hstep. simpl in Hrun.
  assert (Hreach0 : reachable host items (done cb w)).
  { apply reach_step with (w := w) (a := ActDone cb); [exact Hreach|reflexivity]. }
  assert (Hin0 : In cb (observers (finishSubject (done cb w)))).
  { destruct (isStopped (finishSubject w)) eqn:Hs.
    - exfalso.
      pose proof (reachable_stopped_Booted host items w Hreach Hs) as HB.
      rewrite (done_stopped_noop cb w Hs) in Hrun.
      destruct (run_after_finish host items actions w w1 HB Hs Hrun) as [Hs1 _].
      congruence.
    - simpl. unfold subscribe. rewrite Hs. simpl. apply in_or_app. right. now left. }
  pose proof (run_keeps_observer host items actions _ w1 cb Hreach0 Hin0 Hrun Hlive)
    as Hin1.
  simpl in Hstep. rewrite Hn in Hstep. inversion Hstep; subst. clear Hstep. simpl.
  split; [apply finishComplete_isStopped|].
  set (w1' := setPendingTicks (removeNth n (pendingTicks w1)) w1).
  assert (Htr : trace (finishComplete (finishNext true w1')) =
                rev (map (fun c => EvCallback c [JsBool true])
                       (observers (finishSubject w1))) ++ trace w1).
  { replace (trace (finishComplete (finishNext true w1')))
      with (trace (finishNext true w1')).
    - now rewrite finishNext_true_trace.
    - unfold finishComplete.
      now destruct (isStopped (finishSubject (finishNext true w1'))). }
  eexists. split; [exact Htr|]. split.
  - rewrite <- in_rev. apply in_map_iff. exists cb. auto.
  - intros c args Hc. rewrite <- in_rev in Hc. apply in_map_iff in Hc.
    destruct Hc as (c0 & Heq & _). congruence.
Qed.

Lemma sampleBeforeFinish_run :
  run sampleHost sampleActionsBeforeFinish (initialWorld sampleHost sampleItems)
  = Some sampleWorldBeforeFinish.
Proof. vm_compute. reflexivity. Qed.

Lemma done_before_finish_invoked_with_true_witness :
  isStopped (finishSubject sampleWorld) = true /\
  exists newer,
    trace sampleWorld = newer ++ trace sampleWorldBeforeFinish /\
    In (EvCallback 7 [JsBool true]) newer /\
    forall c args, In (EvCallback c args) newer -> args = [JsBool true].
Proof.
  apply (done_before_finish_invoked_with_true sampleHost sampleItems
           (initialWorld sampleHost sampleItems) 7
           (tl sampleActionsBeforeFinish) sampleWorldBeforeFinish 0 sampleWorld).
  - apply reach_init.
  - vm_compute. reflexivity.
  - reflexivity.
  - reflexivity.
  - vm_compute. reflexivity.
Defined.

(** C7, as the claim has it, fails: in the sample run the callback given
    to [done] is called with the argument [true], not without arguments. *)
Lemma done_callback_not_called_without_arguments :
  ~ (forall host items w cb actions w1 n w2,
        reachable host items w ->
        run host (ActDone cb :: actions) w = Some w1 ->
        isStopped (finishSubject w1) = false ->
        nth_error (pendingTicks w1) n = Some LFinish ->
        step host (ActTick n) w1 = Some w2 ->
        exists newer,
          trace w2 = newer ++ trace w1 /\ In (EvCallback cb []) newer).
Proof.
  intros H.
  destruct (H sampleHost sampleItems (initialWorld sampleHost sampleItems) 7
              (tl sampleActionsBeforeFinish) sampleWorldBeforeFinish 0 sampleWorld)
    as (newer & Htr & Hin).
  - apply reach_init.
  - vm_compute. reflexivity.
  - reflexivity.
  - reflexivity.
  - vm_compute. reflexivity.
  - assert (Hnewer : newer = [EvCallback 7 [JsBool true]]).
    { apply (app_inv_tail (trace sampleWorldBeforeFinish)).
      rewrite <- Htr. vm_compute. reflexivity. }
    subst newer. clear Htr. destruct Hin as [Hin|[]]. discriminate Hin.
Qed.

Lemma sampleLastPending_reachable :
  reachable sampleHost sampleItems sampleWorldLastPending.
Proof.
  apply run_reachable with (actions := firstn 7 sampleActions)
                           (w := initialWorld sampleHost sampleItems).
  - apply reach_init.
  - vm_compute. reflexivity.
Qed.

Lemma drained_exactly_once_witness :
  reachable sampleHost sampleItems sampleWorldLastPending /\
  drainedCount before (trace sampleWorldLastPending) = 0 /\
  drainedCount before (trace sampleWorldDrained) = 1.
Proof.
  split; [apply sampleLastPending_reachable|].
  destruct (drained_exactly_once sampleHost sampleItems sampleWorldLastPending
              before sampleLastPending_reachable) as [_ H].
  destruct (H (ActComplete before "B_autoStart" 3) sampleWorldDrained) as [H1 _].
  - vm_compute. reflexivity.
  - apply H1.
    + vm_compute. discriminate.
    + vm_compute. reflexivity.
Defined.

(** ** The watchdog *)

Lemma findTimer_cancel_same id timers :
  findTimer id (cancelTimer id timers) = None.
Proof.
  induction timers as [|[i x] timers IH]; simpl; [reflexivity|].
  destruct (Nat.eqb i id) eqn:Hi; simpl; [exact IH|]. now rewrite Hi.
Qed.

Lemma findTimer_cancel id id' timers l :
  findTimer id' (cancelTimer id timers) = Some l -> findTimer id' timers = Some l.
Proof.
  destruct (Nat.eqb_spec id id') as [->|Hne].
  { rewrite findTimer_cancel_same. discriminate. }
  induction timers as [|[i x] timers IH]; simpl; [auto|].
  destruct (Nat.eqb i id) eqn:Hi; simpl.
  - apply Nat.eqb_eq in Hi. subst i.
    destruct (Nat.eqb_spec id id'); [contradiction|exact IH].
  - destruct (Nat.eqb i id'); auto.
Qed.

Section Watchdog.

Variable host : Host.

(** The queues after [doneCallback] depend on the queues before only. *)
Lemma doneCallback_queue_congr p key tid wa wb :
  queue wa = queue wb ->
  queue (doneCallback host p key tid wa) = queue (doneCallback host p key tid wb).
Proof.
  intros Hq. rewrite !doneCallback_unfold. cbv zeta.
  destruct (cleared_neutral host tid wa) as (Ha & _).
  destruct (cleared_neutral host tid wb) as (Hb & _).
  set (wa1 := cleared host tid wa) in *. set (wb1 := cleared host tid wb) in *.
  set (wa2 := match key with
              | Some k => setQueue (setMap p (map_delete k (getQueue p wa1)) (queue wa1)) wa1
              | None => wa1
              end).
  set (wb2 := match key with
              | Some k => setQueue (setMap p (map_delete k (getQueue p wb1)) (queue wb1)) wb1
              | None => wb1
              end).
  assert (H2 : queue wa2 = queue wb2).
  { unfold wa2, wb2, getQueue. destruct key; simpl; congruence. }
  set (wa3 := countNext host p (map_size (getQueue p wa2)) wa2).
  set (wb3 := countNext host p (map_size (getQueue p wb2)) wb2).
  assert (H3 : queue wa3 = queue wb3).
  { unfold wa3, wb3, getQueue. rewrite !countNext_queue, H2. reflexivity. }
  unfold getQueue. rewrite H3.
  destruct (Nat.eqb (map_size (getMap p (queue wb3))) 0); [|assumption].
  now rewrite !countComplete_queue, H3.
Qed.

(** C9.  A watchdog that fires while its item is in flight only logs, and
    clears its own handle: the step is enabled; the queues (so the item),
    the subjects, the waiting ticks and the next timer handle stay as they
    are; nothing but two log lines and the clearing of the fired handle is
    added to the trace, so no method is started again and no timeout is
    set; no timer is pending that was not before; and every done callback
    that could be called before can still be called, with the same
    queues as its result. *)
Theorem watchdog_only_logs w id m method d :
  findTimer id (pendingTimers w) = Some (LDoneTimeout m method d) ->
  exists w',
    step host (ActTimer id) w = Some w' /\
    (queue w' = queue w /\ startingSubject w' = startingSubject w /\
     finishSubject w' = finishSubject w /\ isBootstrapped w' = isBootstrapped w /\
     metadata w' = metadata w /\ pendingTicks w' = pendingTicks w /\
     nextTimerId w' = nextTimerId w) /\
    (exists line1 line2,
        trace w' = [EvClearInterval id; EvLog line2; EvLog line1] ++ trace w) /\
    (forall id' l, findTimer id' (pendingTimers w') = Some l ->
                   findTimer id' (pendingTimers w) = Some l) /\
    (forall p k id' w1,
        step host (ActComplete p k id') w = Some w1 ->
        exists w1', step host (ActComplete p k id') w' = Some w1' /\
                    queue w1' = queue w1).
Proof.
  intros Hfind. simpl. rewrite Hfind. eexists. split; [reflexivity|].
  cbn [runTimer]. unfold setupDoneTimeout, clearInterval, log.
  split; [|split; [|split]].
  - destruct (hostClearIntervalCancelsTimeout host); repeat split.
  - do 2 eexists.
    destruct (hostClearIntervalCancelsTimeout host); reflexivity.
  - intros id' l.
    destruct (hostClearIntervalCancelsTimeout host); simpl; intros H;
      repeat apply findTimer_cancel in H; exact H.
  - intros p k id' w1 Hstep.
    destruct (existsb (isInvoke p k id') (trace w)) eqn:Hinv; [|discriminate].
    inversion Hstep; subst. clear Hstep.
    destruct (hostClearIntervalCancelsTimeout host); simpl;
      rewrite Hinv; (eexists; split; [reflexivity|]);
      apply doneCallback_queue_congr; reflexivity.
Qed.

End Watchdog.

Lemma watchdog_only_logs_witness :
  findTimer 3 (pendingTimers sampleWorldInFlight)
    = Some (LDoneTimeout "B" "autoStart" 100) /\
  exists w',
    step sampleHost (ActTimer 3) sampleWorldInFlight = Some w' /\
    queue w' = queue sampleWorldInFlight /\
    nextTimerId w' = nextTimerId sampleWorldInFlight.
Proof.
  split; [reflexivity|].
  destruct (watchdog_only_logs sampleHost sampleWorldInFlight 3 "B" "autoStart" 100)
    as (w' & Hstep & (Hq & _ & _ & _ & _ & _ & Hid) & _).
  - reflexivity.
  - exists w'. auto.
Defined.

(** ** The missing method *)

Lemma append_nil_r s : (s ++ "")%string = s.
Proof. induction s as [|c s IH]; simpl; [reflexivity|now rewrite IH]. Qed.

Lemma append_assoc' s1 s2 s3 : ((s1 ++ s2) ++ s3)%string = (s1 ++ (s2 ++ s3))%string.
Proof. induction s1 as [|c s1 IH]; simpl; [reflexivity|now rewrite IH]. Qed.

Lemma split_from_plain sep cur s :
  hasChar sep s = false -> split_from sep cur s = [(cur ++ s)%string].
Proof.
  revert cur. induction s as [|c s IH]; simpl; intros cur H.
  - now rewrite append_nil_r.
  - apply orb_false_iff in H. destruct H as [Hc Hs]. rewrite Hc.
    rewrite IH by assumption. now rewrite append_assoc'.
Qed.

Lemma split_from_sep sep cur s1 s2 :
  hasChar sep s1 = false ->
  split_from sep cur (s1 ++ String sep s2) = (cur ++ s1)%string :: split_from sep "" s2.
Proof.
  revert cur. induction s1 as [|c s1 IH]; simpl; intros cur H.
  - rewrite Ascii.eqb_refl. now rewrite append_nil_r.
  - apply orb_false_iff in H. destruct H as [Hc Hs]. rewrite Hc.
    rewrite IH by assumption. now rewrite append_assoc'.
Qed.

(** Splitting an identifier gives back the target name and the method
    name when neither has an underscore. *)
Lemma split_identifier item :
  hasChar "_" (targetName (target item)) = false ->
  hasChar "_" (methodName item) = false ->
  element 0 (split_underscore (identifier item)) = targetName (target item) /\
  element 1 (split_underscore (identifier item)) = methodName item.
Proof.
  intros Ht Hm. unfold split_underscore, identifier.
  change ("_" ++ methodName item)%string with (String "_" (methodName item)).
  rewrite split_from_sep by assumption.
  rewrite split_from_plain by assumption. simpl. auto.
Qed.

(** Where the method is missing, [processQueueItem] logs and does nothing
    else: the item stays, no timeout is set, no method is started; and
    the log names the target and the method if their names have no
    underscore. *)
Lemma missing_method_stalls host p w item rest instance :
  getQueue p w = (identifier item, item) :: rest ->
  hostResolve host (target item) = Some instance ->
  instance (methodName item) = false ->
  hasChar "_" (targetName (target item)) = false ->
  hasChar "_" (methodName item) = false ->
  processQueueItem host p w =
  log (missingMethodMessage (targetName (target item)) (methodName item)) w.
Proof.
  intros Hq Hres Hm Ht Hn. unfold processQueueItem. rewrite Hq. simpl.
  rewrite Hres, Hm. simpl.
  destruct (split_identifier item Ht Hn) as [-> ->]. reflexivity.
Qed.

(** C4, at the failing input.  The class [My_Service] is registered with
    the method [autoStart], which its instance lacks: the queue and the
    rest of the service are left as they are, but the error that is logged
    names the module [My] and the method [Service]. *)
Theorem missing_method_log_misnames :
  getQueue before underscoreWorld = [(identifier underscoreItem, underscoreItem)] /\
  targetName (target underscoreItem) = "My_Service" /\
  methodName underscoreItem = "autoStart" /\
  processQueueItem noMethodHost before underscoreWorld =
  log "~lb~[Module: My]~w~ - ~r~{Method: Service} does not exists~w~" underscoreWorld.
Proof. vm_compute. repeat split. Qed.

(** ** The done callback and the timeout handle *)

(** The first statement of [doneCallback] calls [clearInterval], whatever
    the non-zero handle, and calls nothing for the handle 0. *)
Lemma cleared_trace host id w :
  trace (cleared host (Some id) w) =
  if Nat.eqb id 0 then trace w else EvClearInterval id :: trace w.
Proof.
  unfold cleared, clearInterval. destruct (Nat.eqb id 0); [reflexivity|].
  now destruct (hostClearIntervalCancelsTimeout host).
Qed.

(** C3, at the failing input.  [A] is in flight, its watchdog armed by
    [setTimeout] with the handle 2.  When its done callback is called the
    key is taken out of the queue, but the handle is given to
    [clearInterval]; [clearTimeout] is never called for it, and on a host
    whose [clearInterval] leaves timeouts alone the watchdog is still
    pending. *)
Theorem done_callback_clears_with_clearInterval :
  In (EvSetTimeout 2 (LDoneTimeout "A" "autoStart" 100) 100) (trace singleWorld) /\
  getQueue before singleWorld = [("A_autoStart", singleItem)] /\
  exists w',
    step sampleHost (ActComplete before "A_autoStart" 2) singleWorld = Some w' /\
    getQueue before w' = [] /\
    In (EvClearInterval 2) (trace w') /\
    ~ In (EvClearTimeout 2) (trace w') /\
    findTimer 2 (pendingTimers w') = Some (LDoneTimeout "A" "autoStart" 100).
Proof.
  split; [vm_compute; auto 10|]. split; [reflexivity|].
  eexists. split; [vm_compute; reflexivity|].
  split; [reflexivity|]. split; [simpl; auto 10|]. split; [|reflexivity].
  simpl. intros H.
  repeat (destruct H as [H|H]; [discriminate H|]). exact H.
Qed.

(** ** The decorator *)

(** C10.  The queue item [Autoload] records takes [autoStart] as method
    name and 5000 as timeout where the options, or the field, are left
    out, and the given value where a field is given (json-entity's casts
    leaving a string and a number as they are). *)
Theorem Autoload_defaults castToString castToNumber ty options tgt meta :
  (forall s, castToString s = s) ->
  (forall z, castToNumber z = z) ->
  exists item,
    recorded (Autoload castToString castToNumber ty options tgt meta) = Some item /\
    type item = ty /\ target item = tgt /\
    methodName item =
      match options with
      | Some (mkOptions (Some m) _) => m
      | _ => "autoStart"
      end /\
    doneCheckTimeout item =
      match options with
      | Some (mkOptions _ (Some t)) => t
      | _ => 5000%Z
      end.
Proof.
  intros Hs Hn. eexists. split.
  - unfold recorded, Autoload. rewrite map_app. cbn [map].
    rewrite last_last. reflexivity.
  - unfold castQueueItem, defaultOptions. simpl. rewrite Hs, Hn.
    destruct options as [[[m|] [t|]]|]; repeat split.
Qed.

Lemma Autoload_defaults_witness :
  exists item,
    recorded (Autoload (fun s => s) (fun z => z) before
                (Some (mkOptions None (Some 250%Z))) (TokenClass 0 "A") None)
      = Some item /\
    type item = before /\ target item = TokenClass 0 "A" /\
    methodName item = "autoStart" /\ doneCheckTimeout item = 250%Z.
Proof.
  apply (Autoload_defaults (fun s => s) (fun z => z) before
           (Some (mkOptions None (Some 250%Z))) (TokenClass 0 "A") None);
    reflexivity.
Defined.

(** ** The order inside a queue *)

Lemma invokes_app p newer tr :
  invokes p (newer ++ tr) = invokes p newer ++ invokes p tr.
Proof.
  induction newer as [|e newer IH]; simpl; [reflexivity|].
  destruct e; simpl; try exact IH.
  destruct (type_eqb p p0); simpl; now rewrite IH.
Qed.

Lemma dones_app p newer tr :
  dones p (newer ++ tr) = dones p newer ++ dones p tr.
Proof.
  induction newer as [|e newer IH]; simpl; [reflexivity|].
  destruct e; simpl; try exact IH.
  destruct (type_eqb p p0); simpl; now rewrite IH.
Qed.

Lemma invokes_none (P : Event -> bool) p newer :
  (forall q k it id, P (EvInvoke q k it id) = true -> type_eqb p q = false) ->
  Forall (fun e => P e = true) newer -> invokes p newer = [].
Proof.
  intros HP. induction 1 as [|e newer He _ IH]; simpl; [reflexivity|].
  destruct e; simpl; try exact IH.
  now rewrite (HP _ _ _ _ He).
Qed.

Lemma dones_none (P : Event -> bool) p newer :
  (forall q k id, P (EvDone q k id) = false) ->
  Forall (fun e => P e = true) newer -> dones p newer = [].
Proof.
  intros HP. induction 1 as [|e newer He _ IH]; simpl; [reflexivity|].
  destruct e; simpl; try exact IH.
  rewrite HP in He. discriminate.
Qed.

Lemma adds_dones (P : Event -> bool) p w w' :
  (forall q k id, P (EvDone q k id) = false) ->
  adds P w w' -> dones p (trace w') = dones p (trace w).
Proof.
  intros HP (newer & -> & HF). rewrite dones_app.
  now rewrite (dones_none P p newer HP HF).
Qed.

Lemma adds_invokes (P : Event -> bool) p w w' :
  (forall q k it id, P (EvInvoke q k it id) = true -> type_eqb p q = false) ->
  adds P w w' -> invokes p (trace w') = invokes p (trace w).
Proof.
  intros HP (newer & -> & HF). rewrite invokes_app.
  now rewrite (invokes_none P p newer HP HF).
Qed.

Lemma quiet_no_invoke p q k it id :
  quiet (EvInvoke q k it id) = true -> type_eqb p q = false.
Proof. discriminate. Qed.

Lemma callback_no_invoke p q k it id :
  isCallback (EvInvoke q k it id) = true -> type_eqb p q = false.
Proof. discriminate. Qed.

Lemma phaseEvent_other_invoke p r q k it id :
  r <> p -> phaseEvent p (EvInvoke q k it id) = true -> type_eqb r q = false.
Proof.
  intros Hne H. simpl in H. apply type_eqb_eq in H. subst q.
  now apply type_eqb_neq.
Qed.

Lemma in_invokes p k id tr :
  In (k, id) (invokes p tr) <-> exists it, In (EvInvoke p k it id) tr.
Proof.
  induction tr as [|e tr IH]; simpl.
  - split; [intros []|intros [it []]].
  - destruct e; simpl;
      try (rewrite IH; split; intros [it H]; exists it; [now right|];
           destruct H as [H|H]; [discriminate|assumption]).
    destruct (type_eqb p p0) eqn:Hp.
    + apply type_eqb_eq in Hp. subst p0. simpl. rewrite IH. split.
      * intros [H|[it H]]; [inversion H; subst; eauto|eauto].
      * intros [it [H|H]]; [inversion H; subst; now left|right; eauto].
    + rewrite IH. split; intros [it H]; exists it; [now right|].
      destruct H as [H|H]; [|assumption].
      inversion H; subst. now rewrite type_eqb_refl in Hp.
Qed.

Lemma in_dones p k id tr :
  In (k, id) (dones p tr) <-> In (EvDone p k id) tr.
Proof.
  induction tr as [|e tr IH]; simpl; [tauto|].
  destruct e; simpl;
    try (rewrite IH; split; [now right|];
         intros [H|H]; [discriminate|assumption]).
  destruct (type_eqb p p0) eqn:Hp.
  - apply type_eqb_eq in Hp. subst p0. simpl. rewrite IH. split.
    + intros [H|H]; [inversion H; subst; now left|now right].
    + intros [H|H]; [inversion H; subst; now left|now right].
  - rewrite IH. split; [now right|].
    intros [H|H]; [|assumption].
    inversion H; subst. now rewrite type_eqb_refl in Hp.
Qed.

Lemma in_filter_isDone p k id tr :
  In (EvDone p k id) tr <-> In (EvDone p k id) (filter isDone tr).
Proof. rewrite filter_In. simpl. tauto. Qed.

Lemma map_set_NoDup {V} k (v : V) m :
  NoDup (map_keys m) -> NoDup (map_keys (map_set k v m)).
Proof.
  unfold map_keys. induction m as [|[k0 v0] m IH]; simpl; intros H.
  - constructor; [intros []|constructor].
  - inversion H as [|? ? Hnin Hnd]; subst.
    destruct (String.eqb_spec k0 k) as [->|Hne]; simpl.
    + constructor; assumption.
    + constructor; [|auto].
      intros Hin. apply (map_set_keys k v m k0) in Hin.
      destruct Hin as [Heq|Hin]; [congruence|contradiction].
Qed.

Lemma add_NoDup i q p :
  NoDup (map_keys (getMap p q)) -> NoDup (map_keys (getMap p (add i q))).
Proof.
  intros H. unfold add. destruct (type_eq_dec p (type i)) as [->|Hne].
  - rewrite getMap_setMap_same. now apply map_set_NoDup.
  - now rewrite getMap_setMap_other.
Qed.

Lemma registered_NoDup items p : NoDup (registeredKeys items p).
Proof.
  unfold registeredKeys, registered.
  assert (H : forall q, NoDup (map_keys (getMap p q)) ->
            NoDup (map_keys (getMap p (fold_left (fun q i => add i q) items q)))).
  { induction items as [|i items IH]; intros q Hq; simpl; [assumption|].
    apply IH. now apply add_NoDup. }
  apply H. destruct p; constructor.
Qed.

Lemma map_delete_NoDup {V} k (m : JsMap V) :
  NoDup (map_keys m) -> NoDup (map_keys (map_delete k m)).
Proof.
  unfold map_keys, map_delete. induction m as [|[k0 v0] m IH]; simpl; intros H.
  - constructor.
  - inversion H as [|? ? Hnin Hnd]; subst.
    destruct (negb (String.eqb k0 k)); simpl; [|auto].
    constructor; [|auto].
    intros Hin. apply Hnin. apply (map_delete_keys k k0 m) in Hin. tauto.
Qed.

Lemma map_delete_head {V} k (m : JsMap V) rest :
  NoDup (map_keys m) -> map_keys m = k :: rest ->
  map_keys (map_delete k m) = rest.
Proof.
  unfold map_keys, map_delete.
  destruct m as [|[k0 v0] m]; simpl; [discriminate|].
  intros Hnd [= -> <-]. rewrite String.eqb_refl. simpl.
  inversion Hnd as [|? ? Hnin _]; subst. clear Hnd.
  induction m as [|[k1 v1] m IH]; simpl; [reflexivity|].
  destruct (String.eqb_spec k1 k) as [->|Hne]; simpl.
  - exfalso. apply Hnin. now left.
  - f_equal. apply IH. intros Hin. apply Hnin. now right.
Qed.

Section Starts.

Variable host : Host.
Variable items : list LoaderServiceQueueItemModel.

Lemma processQueueItem_starts p w :
  startsAtMostHead p w (processQueueItem host p w).
Proof.
  unfold startsAtMostHead, getQueue. rewrite processQueueItem_queue.
  destruct (processQueueItem_outcome host p w)
    as [_|key item rest instance _ _ _|key item rest instance Hq _ _].
  - now left.
  - now left.
  - right. exists key, item, rest, (nextTimerId w). split; [exact Hq|].
    simpl. now rewrite type_eqb_refl.
Qed.

Lemma countNext_starts p v w :
  shape p (queue w) -> startsAtMostHead p w (countNext host p v w).
Proof.
  intros Hs. unfold shape in Hs.
  destruct (isStopped (getCount p (queue w))) eqn:Hst.
  - rewrite countNext_stopped by assumption. now left.
  - destruct Hs as (n & l & Hd & [Hobs|Hobs]).
    + rewrite (countNext_plain host p v w _ l Hst Hobs). now left.
    + rewrite (countNext_filter host p v w _ l Hst Hobs). cbv zeta.
      destruct (Nat.eqb v 0); [now left|].
      set (w1 := setQueue _ w).
      destruct (processQueueItem_starts p w1) as [H|H]; [left|right]; exact H.
Qed.

Lemma countNext_zero_trace p w : trace (countNext host p 0 w) = trace w.
Proof.
  unfold countNext. destruct (isStopped (getSubject p w)); [reflexivity|].
  rewrite (keeps_fold trace (deliver host p 0)); [reflexivity|].
  intros o w0. now destruct o.
Qed.

Lemma doneCallback_starts p key tid w :
  Booted items w ->
  (forall k, key = Some k -> exists id, In (EvDone p k id) (trace w)) ->
  startsAtMostHead p w (doneCallback host p key tid w).
Proof.
  intros HB Hkey. rewrite doneCallback_unfold. cbv zeta.
  destruct (cleared_neutral host tid w) as (Hq & _ & _ & _ & _ & _ & _ & newer & Htr & _).
  pose proof (Booted_cleared host items tid w HB) as HB1.
  pose proof (cleared_adds host tid w) as Hadd1.
  set (w1 := cleared host tid w) in *.
  assert (HB2 : Booted items
            match key with
            | Some k => setQueue (setMap p (map_delete k (getQueue p w1)) (queue w1)) w1
            | None => w1
            end).
  { destruct key as [k|]; [|assumption].
    apply Booted_delete; [assumption|].
    destruct (Hkey k eq_refl) as [id Hid]. exists id. rewrite Htr.
    apply in_or_app. now right. }
  assert (Htr2 : trace
            match key with
            | Some k => setQueue (setMap p (map_delete k (getQueue p w1)) (queue w1)) w1
            | None => w1
            end = trace w1) by (now destruct key).
  set (w2 := match key with
             | Some k => setQueue (setMap p (map_delete k (getQueue p w1)) (queue w1)) w1
             | None => w1
             end) in *.
  pose proof (countNext_starts p (map_size (getQueue p w2)) w2 (b_shape HB2 p)) as H3.
  set (w3 := countNext host p (map_size (getQueue p w2)) w2) in *.
  assert (Hinv : invokes p (trace w2) = invokes p (trace w)).
  { rewrite Htr2. apply (adds_invokes quiet); [apply quiet_no_invoke|exact Hadd1]. }
  assert (H3' : startsAtMostHead p w w3).
  { unfold startsAtMostHead in *. now rewrite <- Hinv. }
  destruct (Nat.eqb (map_size (getQueue p w3)) 0); [|exact H3'].
  unfold startsAtMostHead in *. unfold getQueue in *.
  rewrite countComplete_getMap.
  rewrite (adds_invokes quiet p w3 (countComplete p w3));
    [exact H3'|apply quiet_no_invoke|apply countComplete_adds].
Qed.

Lemma processQueue_starts p w :
  Booted items w -> startsAtMostHead p w (processQueue host p w).
Proof.
  intros HB. unfold processQueue.
  destruct (Nat.eqb (map_size (getQueue p w)) 0).
  - apply doneCallback_starts; [assumption|discriminate].
  - set (w1 := setQueue _ w).
    destruct (processQueueItem_starts p w1) as [H|H]; [left|right]; exact H.
Qed.

Lemma Ordered_same w w' r :
  getMap r (queue w') = getMap r (queue w) ->
  invokes r (trace w') = invokes r (trace w) ->
  dones r (trace w') = dones r (trace w) ->
  Ordered items w r -> Ordered items w' r.
Proof.
  intros Hq Hi Hd [H1 H2 H3]. unfold completedKeys in *.
  constructor; unfold completedKeys; rewrite ?Hq, ?Hi, ?Hd; assumption.
Qed.

Lemma Ordered_quiet w w' r :
  getMap r (queue w') = getMap r (queue w) ->
  adds quiet w w' ->
  Ordered items w r -> Ordered items w' r.
Proof.
  intros Hq Hadd. apply Ordered_same; [assumption| |].
  - apply (adds_invokes quiet); [apply quiet_no_invoke|assumption].
  - apply (adds_dones quiet); [reflexivity|assumption].
Qed.

Lemma Ordered_other_phase w w' r p :
  r <> p ->
  getMap r (queue w') = getMap r (queue w) ->
  adds (phaseEvent p) w w' ->
  Ordered items w r -> Ordered items w' r.
Proof.
  intros Hne Hq Hadd. apply Ordered_same; [assumption| |].
  - apply (adds_invokes (phaseEvent p)); [|assumption].
    intros q k it id. now apply phaseEvent_other_invoke.
  - apply (adds_dones (phaseEvent p)); [reflexivity|assumption].
Qed.

Lemma not_opened_no_invokes w p :
  Booted items w -> opened p (queue w) = false -> invokes p (trace w) = [].
Proof.
  intros HB Hop. destruct (invokes p (trace w)) as [|[k id] l] eqn:Hi; [reflexivity|].
  assert (Hin : In (k, id) (invokes p (trace w))) by (rewrite Hi; now left).
  apply in_invokes in Hin. destruct Hin as [it Hin].
  rewrite (b_invoke HB _ _ _ _ Hin) in Hop. discriminate.
Qed.

End Starts.

Section Order.

Variable host : Host.
Variable items : list LoaderServiceQueueItemModel.

Lemma Ordered_after_starts w0 w' p :
  NoDup (map_keys (getMap p (queue w'))) ->
  invokes p (trace w0) = dones p (trace w0) ->
  dones p (trace w') = dones p (trace w0) ->
  registeredKeys items p =
    completedKeys p (trace w') ++ map_keys (getMap p (queue w')) ->
  startsAtMostHead p w0 w' ->
  Ordered items w' p.
Proof.
  intros Hnd Heq Hd Hpre Hstarts. constructor; [assumption| |assumption].
  rewrite Hd. destruct Hstarts as [H|(k & it & rest & id & Hq & H)].
  - left. congruence.
  - right. exists k, id, (map_keys rest). unfold getQueue in Hq. rewrite Hq.
    split; [reflexivity|congruence].
Qed.

Lemma step_Ordered a w w' r :
  Booted items w -> Ordered items w r ->
  step host a w = Some w' ->
  NoDup (filter isDone (trace w')) ->
  Ordered items w' r.
Proof.
  intros HB HO Hstep Hnd.
  pose proof (step_getMap host a w w' r Hstep (b_flag HB)) as Hmap.
  pose proof (step_adds host a w w' Hstep (b_flag HB)) as Hadd.
  destruct a as [target|cb|id|n|p k id].
  - now apply (Ordered_quiet items w w' r).
  - now apply (Ordered_quiet items w w' r).
  - now apply (Ordered_quiet items w w' r).
  - simpl in Hstep.
    destruct (nth_error (pendingTicks w) n) as [l|] eqn:Hn; [|discriminate].
    destruct l as [p|tgt| | |]; try (now apply (Ordered_quiet items w w' r)).
    + destruct (type_eq_dec r p) as [->|Hne];
        [|now apply (Ordered_other_phase items w w' r p)].
      inversion Hstep; subst. clear Hstep. simpl in *.
      set (w0 := setPendingTicks (removeNth n (pendingTicks w)) w) in *.
      assert (HB0 : Booted items w0).
      { apply Booted_frame with (w := w); auto.
        - apply (b_flag HB).
        - intros q. apply pendingCount_removeNth.
        - exists []. split; [reflexivity|constructor]. }
      pose proof (pendingCount_nth p n _ Hn) as Hpos.
      pose proof (b_gate HB p) as Hg.
      assert (Hop : opened p (queue w) = false).
      { destruct (opened p (queue w)); [|reflexivity].
        destruct (triggered p (queue w) (startingSubject w)); simpl in Hg; lia. }
      pose proof (not_opened_no_invokes items w p HB Hop) as Hinv.
      destruct HO as [H1 H2 H3].
      assert (Hdn : dones p (trace w) = []).
      { destruct H2 as [H2|(k & id & rest & _ & H2)]; congruence. }
      apply (Ordered_after_starts w0 (processQueue host p w0) p).
      * now rewrite Hmap.
      * simpl. congruence.
      * apply (adds_dones (phaseEvent p)); [reflexivity|exact Hadd].
      * rewrite Hmap. unfold completedKeys in *.
        rewrite (adds_dones (phaseEvent p) p w (processQueue host p w0));
          [exact H3|reflexivity|exact Hadd].
      * apply (processQueue_starts host items p w0 HB0).
    + apply Ordered_same with (w := w); auto.
      * apply (adds_invokes isCallback); [apply callback_no_invoke|assumption].
      * apply (adds_dones isCallback); [reflexivity|assumption].
  - destruct Hadd as (newer & Htr & HF).
    destruct (type_eq_dec r p) as [->|Hne].
    + rewrite type_eqb_refl in Hmap.
      simpl in Hstep.
      destruct (existsb (isInvoke p k id) (trace w)) eqn:Hinv; [|discriminate].
      inversion Hstep; subst. clear Hstep.
      set (w0 := emit (EvDone p k id) w) in *.
      set (w' := doneCallback host p (Some k) (Some id) w0) in *.
      apply existsb_isInvoke in Hinv.
      assert (Hin : In (k, id) (invokes p (trace w))) by (now apply in_invokes).
      assert (Hnot : ~ In (k, id) (dones p (trace w))).
      { rewrite in_dones, in_filter_isDone. intros Hd.
        rewrite Htr, filter_app in Hnd. apply NoDup_app_remove_l in Hnd.
        simpl in Hnd. inversion Hnd; subst. contradiction. }
      destruct HO as [H1 H2 H3].
      destruct H2 as [H2|(k0 & id0 & rest & Hkeys & H2)];
        [rewrite H2 in Hin; contradiction|].
      rewrite H2 in Hin. destruct Hin as [Heq|Hin]; [|contradiction].
      inversion Heq; subst k0 id0. clear Heq.
      assert (HB0 : Booted items w0).
      { apply Booted_frame with (w := w); auto.
        - apply (b_flag HB).
        - eexists [_]. split; [reflexivity|repeat constructor]. }
      assert (Hd' : dones p (trace w') = (k, id) :: dones p (trace w)).
      { rewrite Htr, dones_app.
        rewrite (dones_none (phaseEvent p) p newer); [|reflexivity|exact HF].
        simpl. now rewrite type_eqb_refl. }
      assert (Hd0 : dones p (trace w0) = (k, id) :: dones p (trace w)).
      { simpl. now rewrite type_eqb_refl. }
      apply (Ordered_after_starts w0 w' p).
      * rewrite Hmap. now apply map_delete_NoDup.
      * rewrite Hd0. unfold w0. simpl. exact H2.
      * congruence.
      * rewrite Hmap, (map_delete_head k _ rest H1 Hkeys).
        unfold completedKeys in *. rewrite Hd'. simpl.
        rewrite <- app_assoc. simpl. rewrite <- Hkeys. exact H3.
      * apply doneCallback_starts with (items := items); [assumption|].
        intros k0 [= <-]. exists id. now left.
    + rewrite (type_eqb_neq _ _ Hne) in Hmap.
      apply Ordered_same with (w := w); auto.
      * rewrite Htr, invokes_app. simpl.
        rewrite (invokes_none (phaseEvent p) r newer); [reflexivity| |exact HF].
        intros q k0 it id0. now apply phaseEvent_other_invoke.
      * rewrite Htr, dones_app. simpl.
        rewrite (dones_none (phaseEvent p) r newer); [|reflexivity|exact HF].
        now rewrite (type_eqb_neq _ _ Hne).
Qed.

Lemma bootstrap_Ordered target w r :
  pristine host items w -> Ordered items (bootstrap host target w) r.
Proof.
  intros Hp. destruct (bootstrap_pristine host items target w Hp)
    as (n1 & n2 & n3 & n4 & ->).
  pose proof (registered_NoDup items r) as Hnd. unfold registeredKeys in *.
  constructor; simpl.
  - destruct r; exact Hnd.
  - now left.
  - unfold registeredKeys, completedKeys. simpl. destruct r; reflexivity.
Qed.

Lemma step_NoDup_done a w w' :
  isBootstrapped w = true -> step host a w = Some w' ->
  NoDup (filter isDone (trace w')) -> NoDup (filter isDone (trace w)).
Proof.
  intros Hflag Hstep Hnd.
  destruct (step_extends host a w w' Hstep Hflag) as [newer Htr].
  rewrite Htr, filter_app in Hnd. now apply NoDup_app_remove_l in Hnd.
Qed.

Lemma reachable_Ordered w :
  reachable host items w ->
  NoDup (filter isDone (trace w)) ->
  pristine host items w \/ (Booted items w /\ forall r, Ordered items w r).
Proof.
  induction 1 as [|w a w' Hreach IH Hstep]; intros Hnd.
  - left. exists []. reflexivity.
  - destruct (reachable_Inv host items w Hreach) as [Hp|HB].
    + destruct a as [target|cb|id|n|p k id]; simpl in Hstep.
      * inversion Hstep; subst. right. split.
        -- now apply bootstrap_booted.
        -- intros r. now apply bootstrap_Ordered.
      * inversion Hstep; subst. left. destruct Hp as [cbs ->].
        exists (cbs ++ [cb]). reflexivity.
      * destruct Hp as [cbs ->]. discriminate.
      * destruct Hp as [cbs ->]. simpl in Hstep. destruct n; discriminate.
      * destruct Hp as [cbs ->]. discriminate.
    + pose proof (step_NoDup_done a w w' (b_flag HB) Hstep Hnd) as Hnd0.
      destruct (IH Hnd0) as [[cbs ->]|[_ HO]].
      { pose proof (b_flag HB) as Hf. discriminate. }
      right. split.
      * eapply step_Booted; eassumption.
      * intros r. apply (step_Ordered a w w' r); auto.
Qed.

End Order.

(** ** Registered keys are in insertion order *)

Lemma map_set_key_order {V} k (v : V) m :
  map_keys (map_set k v m) =
  if existsb (String.eqb k) (map_keys m) then map_keys m else map_keys m ++ [k].
Proof.
  unfold map_keys. induction m as [|[k0 v0] m IH]; simpl; [reflexivity|].
  rewrite (String.eqb_sym k k0).
  destruct (String.eqb k0 k) eqn:Hk; simpl.
  - apply String.eqb_eq in Hk. now subst.
  - rewrite IH. now destruct (existsb (String.eqb k) (map fst m)).
Qed.

Lemma fold_add_key_order items q p :
  map_keys (getMap p (fold_left (fun q i => add i q) items q)) =
  insertAll (map_keys (getMap p q))
    (map identifier (filter (fun i => type_eqb (type i) p) items)).
Proof.
  revert q. induction items as [|i items IH]; intros q; simpl; [reflexivity|].
  rewrite IH. unfold add.
  destruct (type_eqb (type i) p) eqn:Hp; simpl.
  - apply type_eqb_eq in Hp. subst p.
    now rewrite getMap_setMap_same, map_set_key_order.
  - rewrite getMap_setMap_other; [reflexivity|].
    intros ->. now rewrite type_eqb_refl in Hp.
Qed.

Lemma registeredKeys_insertionOrder items p :
  registeredKeys items p = insertionOrder items p.
Proof.
  unfold registeredKeys, registered, insertionOrder.
  rewrite fold_add_key_order. now destruct p.
Qed.

Lemma insertAll_distinct keys new :
  NoDup (keys ++ new) -> insertAll keys new = keys ++ new.
Proof.
  revert keys. induction new as [|k new IH]; intros keys H; simpl.
  - now rewrite app_nil_r.
  - assert (Hk : existsb (String.eqb k) keys = false).
    { destruct (existsb (String.eqb k) keys) eqn:He; [|reflexivity].
      apply existsb_exists in He. destruct He as (k' & Hin & Heq).
      apply String.eqb_eq in Heq. subst k'.
      apply NoDup_remove_2 in H. exfalso. apply H.
      apply in_or_app. now left. }
    rewrite Hk. rewrite IH; rewrite <- app_assoc; [reflexivity|exact H].
Qed.

(** With distinct identifiers the insertion order of a queue is the order
    of registration of its items. *)
Lemma insertionOrder_distinct items p :
  NoDup (map identifier (filter (fun i => type_eqb (type i) p) items)) ->
  insertionOrder items p =
  map identifier (filter (fun i => type_eqb (type i) p) items).
Proof. intros H. unfold insertionOrder. now rewrite insertAll_distinct. Qed.

(** C2.  In every run in which no bound done callback is called twice,
    for every queue: the keys whose done callback has been called, in the
    order of the calls, followed by the keys still in the queue, are the
    registered keys of the queue, which are its keys in insertion order;
    and the methods started are those of the completed keys, in the same
    order, and at most one more, which is then the first key still in the
    queue. *)
Theorem items_complete_in_registration_order host items w p :
  reachable host items w ->
  NoDup (filter isDone (trace w)) ->
  registeredKeys items p = insertionOrder items p /\
  exists pending,
    registeredKeys items p = completedKeys p (trace w) ++ pending /\
    (isBootstrapped w = true -> map_keys (getQueue p w) = pending) /\
    (startedKeys p (trace w) = completedKeys p (trace w) \/
     exists k rest,
       pending = k :: rest /\
       startedKeys p (trace w) = completedKeys p (trace w) ++ [k]).
Proof.
  intros Hreach Hnd. split; [apply registeredKeys_insertionOrder|].
  destruct (reachable_Ordered host items w Hreach Hnd) as [[cbs ->]|[HB HO]].
  - exists (registeredKeys items p). simpl. split; [reflexivity|].
    split; [discriminate|]. now left.
  - destruct (HO p) as [H1 H2 H3].
    exists (map_keys (getMap p (queue w))). split; [exact H3|].
    split; [reflexivity|].
    unfold startedKeys, completedKeys.
    destruct H2 as [H2|(k & id & rest & Hkeys & H2)].
    + left. now rewrite H2.
    + right. exists k, rest. split; [exact Hkeys|]. rewrite H2. reflexivity.
Qed.

Lemma items_complete_in_registration_order_witness :
  NoDup (filter isDone (trace sampleWorldDrained)) /\
  completedKeys before (trace sampleWorldDrained) = ["A_autoStart"; "B_autoStart"] /\
  registeredKeys sampleItems before = insertionOrder sampleItems before /\
  exists pending,
    registeredKeys sampleItems before =
      completedKeys before (trace sampleWorldDrained) ++ pending /\
    (isBootstrapped sampleWorldDrained = true ->
     map_keys (getQueue before sampleWorldDrained) = pending) /\
    (startedKeys before (trace sampleWorldDrained) =
       completedKeys before (trace sampleWorldDrained) \/
     exists k rest,
       pending = k :: rest /\
       startedKeys before (trace sampleWorldDrained) =
         completedKeys before (trace sampleWorldDrained) ++ [k]).
Proof.
  assert (Hnd : NoDup (filter isDone (trace sampleWorldDrained))).
  { vm_compute. repeat constructor; simpl; intuition discriminate. }
  split; [exact Hnd|]. split; [reflexivity|].
  apply (items_complete_in_registration_order sampleHost sampleItems
           sampleWorldDrained before).
  - apply run_reachable with (actions := firstn 8 sampleActions)
                             (w := initialWorld sampleHost sampleItems).
    + apply reach_init.
    + vm_compute. reflexivity.
  - exact Hnd.
Defined.

(** ** Two remarks on the transitions *)

(** A method that calls its done callback before it returns makes
    [doneCallback] run inside [processQueueItem], itself inside the
    [next] of an outer [doneCallback]; when the inner call has completed
    the subject, the [complete] the outer call reaches afterwards does
    nothing.  So such a run ends in the world reached by taking the calls
    one after the other. *)
Lemma countComplete_idempotent p w :
  countComplete p (countComplete p w) = countComplete p w.
Proof.
  apply countComplete_stopped, countComplete_isStopped.
Qed.

(** When a done callback leaves a key first in its opened queue, the
    method of that key is started within the same transition, provided
    its target resolves and has the method. *)
Lemma completion_starts_next host items w p k id k2 it2 rest instance :
  Booted items w ->
  opened p (queue w) = true ->
  map_delete k (getQueue p w) = (k2, it2) :: rest ->
  hostResolve host (target it2) = Some instance ->
  instance (methodName it2) = true ->
  exists id2,
    In (EvInvoke p k2 it2 id2)
       (trace (doneCallback host p (Some k) (Some id) (emit (EvDone p k id) w))).
Proof.
  intros HB Hop Hq Hres Hm. rewrite doneCallback_unfold. cbv zeta.
  set (w0 := emit (EvDone p k id) w).
  destruct (cleared_neutral host (Some id) w0) as (Hq1 & _).
  set (w1 := cleared host (Some id) w0) in *.
  set (w2 := setQueue (setMap p (map_delete k (getQueue p w1)) (queue w1)) w1).
  assert (Hq2 : getQueue p w2 = (k2, it2) :: rest).
  { unfold w2, getQueue. simpl. rewrite getMap_setMap_same, Hq1. exact Hq. }
  assert (Hc2 : getCount p (queue w2) = getCount p (queue w)).
  { unfold w2. simpl. now rewrite getCount_setMap, Hq1. }
  pose proof (b_shape HB p) as Hs. unfold shape in Hs.
  destruct (isStopped (getCount p (queue w))) eqn:Hst.
  { destruct Hs as [Hempty _]. unfold getQueue in Hq. rewrite Hempty in Hq.
    discriminate. }
  destruct Hs as (n & l & _ & [Hobs|Hobs]).
  { unfold opened in Hop. rewrite Hst, Hobs in Hop. discriminate. }
  assert (Hst2 : isStopped (getCount p (queue w2)) = false) by (now rewrite Hc2).
  assert (Hobs2 : observers (getCount p (queue w2))
                  = [ObsTakeLast (Some n) l; ObsFilterNonZero]) by (now rewrite Hc2).
  rewrite (countNext_filter host p _ w2 _ l Hst2 Hobs2). cbv zeta.
  rewrite Hq2. simpl map_size. cbn [Nat.eqb].
  set (w2' := setQueue _ w2).
  assert (Hq2' : getQueue p w2' = (k2, it2) :: rest).
  { unfold w2', getQueue. simpl. rewrite getMap_setCount. exact Hq2. }
  assert (Hpqi : exists id2, In (EvInvoke p k2 it2 id2)
                               (trace (processQueueItem host p w2'))).
  { unfold processQueueItem. rewrite Hq2'. simpl. rewrite Hres, Hm. simpl.
    eexists. left. reflexivity. }
  assert (Hq3 : getQueue p (processQueueItem host p w2') = (k2, it2) :: rest).
  { unfold getQueue. rewrite processQueueItem_queue. exact Hq2'. }
  rewrite Hq3. simpl. exact Hpqi.
Qed.

(** * Further properties of the loader service *)

(** ** A queue is what was registered minus what was completed *)

Section Remaining.

Variable host : Host.
Variable items : list LoaderServiceQueueItemModel.

Lemma step_dones a w w' r :
  step host a w = Some w' -> isBootstrapped w = true ->
  dones r (trace w') =
  match a with
  | ActComplete p k id =>
      if type_eqb r p then (k, id) :: dones r (trace w) else dones r (trace w)
  | _ => dones r (trace w)
  end.
Proof.
  intros Hstep Hflag. pose proof (step_adds host a w w' Hstep Hflag) as Hadd.
  destruct a as [target|cb|id|n|p k id].
  - apply (adds_dones quiet); [reflexivity|assumption].
  - apply (adds_dones quiet); [reflexivity|assumption].
  - apply (adds_dones quiet); [reflexivity|assumption].
  - destruct (nth_error (pendingTicks w) n) as [[q|tgt| | |]|];
      first [ apply (adds_dones quiet); [reflexivity|assumption]
            | apply (adds_dones (phaseEvent q)); [reflexivity|assumption]
            | apply (adds_dones isCallback); [reflexivity|assumption] ].
  - destruct Hadd as (newer & -> & HF). rewrite dones_app.
    rewrite (dones_none (phaseEvent p) r newer); [|reflexivity|exact HF].
    reflexivity.
Qed.

Lemma bootstrap_remaining target w p :
  pristine host items w ->
  getQueue p (bootstrap host target w) =
  remaining items p (trace (bootstrap host target w)).
Proof.
  intros Hp. destruct (bootstrap_pristine host items target w Hp)
    as (n1 & n2 & n3 & n4 & ->).
  unfold remaining, getQueue. simpl. now destruct p.
Qed.

Lemma step_remaining a w w' p :
  isBootstrapped w = true ->
  getQueue p w = remaining items p (trace w) ->
  step host a w = Some w' ->
  getQueue p w' = remaining items p (trace w').
Proof.
  intros Hflag Hq Hstep. unfold getQueue, remaining in *.
  rewrite (step_getMap host a w w' p Hstep Hflag).
  rewrite (step_dones a w w' p Hstep Hflag).
  destruct a as [target|cb|id|n|q k id]; try exact Hq.
  destruct (type_eq_dec p q) as [<-|Hne].
  - rewrite type_eqb_refl. simpl. now rewrite Hq.
  - rewrite (type_eqb_neq _ _ Hne). exact Hq.
Qed.

Lemma queue_remaining w p :
  reachable host items w ->
  isBootstrapped w = true ->
  getQueue p w = remaining items p (trace w).
Proof.
  induction 1 as [|w a w' Hreach IH Hstep]; intros Hflag; [discriminate|].
  destruct (reachable_Inv host items w Hreach) as [Hp|HB].
  - destruct a as [target|cb|id|n|q k id]; simpl in Hstep.
    + inversion Hstep; subst. now apply bootstrap_remaining.
    + inversion Hstep; subst. destruct Hp as [cbs ->]. discriminate.
    + destruct Hp as [cbs ->]. discriminate.
    + destruct Hp as [cbs ->]. simpl in Hstep. destruct n; discriminate.
    + destruct Hp as [cbs ->]. discriminate.
  - apply (step_remaining a w w' p (b_flag HB)); auto. apply IH, (b_flag HB).
Qed.

End Remaining.

(** ** Which methods get started *)

Lemma addsP_refl P w : addsP P w w.
Proof. exists []. split; [reflexivity|constructor]. Qed.

Lemma addsP_same P w w' : trace w' = trace w -> addsP P w w'.
Proof. intros H. exists []. split; [now rewrite H|constructor]. Qed.

Lemma addsP_trans P w1 w2 w3 : addsP P w1 w2 -> addsP P w2 w3 -> addsP P w1 w3.
Proof.
  intros (n1 & H1 & F1) (n2 & H2 & F2). exists (n2 ++ n1). split.
  - now rewrite H2, H1, app_assoc.
  - apply Forall_app. auto.
Qed.

Lemma addsP_weaken (P Q : Event -> Prop) w w' :
  (forall e, P e -> Q e) -> addsP P w w' -> addsP Q w w'.
Proof.
  intros HPQ (newer & H & F). exists newer. split; [assumption|].
  eapply Forall_impl; [|exact F]. auto.
Qed.

Lemma adds_addsP (P : Event -> bool) (Q : Event -> Prop) w w' :
  (forall e, P e = true -> Q e) -> adds P w w' -> addsP Q w w'.
Proof.
  intros HPQ (newer & H & F). exists newer. split; [assumption|].
  eapply Forall_impl; [|exact F]. auto.
Qed.

Lemma startable_incl host m m' p e :
  incl m m' -> startable host m p e -> startable host m' p e.
Proof.
  intros Hincl. destruct e; simpl; auto.
  intros (Hp & Hin & Hres). auto.
Qed.

Lemma quiet_startable host m p e : quiet e = true -> startable host m p e.
Proof. destruct e; simpl; try discriminate; auto. Qed.

Lemma map_delete_incl {V} k (m : JsMap V) : incl (map_delete k m) m.
Proof. intros kv H. unfold map_delete in H. now apply filter_In in H. Qed.

Section Startable.

Variable host : Host.

Lemma processQueueItem_startable p w :
  addsP (startable host (getQueue p w) p) w (processQueueItem host p w).
Proof.
  destruct (processQueueItem_outcome host p w)
    as [_|key item rest instance _ _ _|key item rest instance Hq Hres Hm].
  - apply addsP_refl.
  - eexists [_]. split; [reflexivity|]. repeat constructor.
  - eexists [_; _]. split; [reflexivity|]. repeat constructor.
    + rewrite Hq. now left.
    + eauto.
Qed.

Lemma countNext_startable p v w :
  addsP (startable host (getQueue p w) p) w (countNext host p v w).
Proof.
  unfold countNext. destruct (isStopped (getSubject p w)); [apply addsP_refl|].
  set (w1 := setQueue _ w).
  assert (Hq1 : getQueue p w1 = getQueue p w).
  { unfold w1, getQueue. simpl. apply getMap_setCount. }
  rewrite <- Hq1.
  apply addsP_trans with (w2 := w1); [apply addsP_same; reflexivity|].
  generalize (observers (getSubject p w)). intros obs.
  clearbody w1. clear Hq1. revert w1.
  induction obs as [|o obs IH]; intros w1; simpl; [apply addsP_refl|].
  assert (Hq : getQueue p (deliver host p v w1 o) = getQueue p w1).
  { destruct o; simpl; [reflexivity|]. destruct (Nat.eqb v 0); [reflexivity|].
    unfold getQueue. now rewrite processQueueItem_queue. }
  apply addsP_trans with (w2 := deliver host p v w1 o).
  - destruct o; simpl; [apply addsP_refl|].
    destruct (Nat.eqb v 0); [apply addsP_refl|apply processQueueItem_startable].
  - rewrite <- Hq. apply IH.
Qed.

Lemma doneCallback_startable p key tid w :
  addsP (startable host (getQueue p w) p) w (doneCallback host p key tid w).
Proof.
  rewrite doneCallback_unfold. cbv zeta.
  destruct (cleared_neutral host tid w) as (Hq & _).
  pose proof (cleared_adds host tid w) as Hadd1.
  set (w1 := cleared host tid w) in *.
  set (w2 := match key with
             | Some k => setQueue (setMap p (map_delete k (getQueue p w1)) (queue w1)) w1
             | None => w1
             end).
  assert (Hincl : incl (getQueue p w2) (getQueue p w)).
  { unfold w2, getQueue. rewrite Hq. destruct key as [k|]; simpl.
    - rewrite getMap_setMap_same. apply map_delete_incl.
    - rewrite Hq. apply incl_refl. }
  set (w3 := countNext host p (map_size (getQueue p w2)) w2).
  assert (H3 : addsP (startable host (getQueue p w) p) w w3).
  { apply addsP_trans with (w2 := w1).
    - apply (adds_addsP quiet); [|exact Hadd1]. intros e. apply quiet_startable.
    - apply addsP_trans with (w2 := w2).
      + apply addsP_same. unfold w2. now destruct key.
      + eapply addsP_weaken; [|apply countNext_startable].
        intros e. now apply startable_incl. }
  destruct (Nat.eqb (map_size (getQueue p w3)) 0); [|exact H3].
  eapply addsP_trans; [exact H3|].
  apply (adds_addsP quiet); [|apply countComplete_adds].
  intros e. apply quiet_startable.
Qed.

Lemma processQueue_startable p w :
  addsP (startable host (getQueue p w) p) w (processQueue host p w).
Proof.
  unfold processQueue. destruct (Nat.eqb (map_size (getQueue p w)) 0).
  - apply doneCallback_startable.
  - set (w1 := setQueue _ w).
    assert (Hq1 : getQueue p w1 = getQueue p w).
    { unfold w1, getQueue. simpl. apply getMap_setCount. }
    rewrite <- Hq1.
    apply addsP_trans with (w2 := w1); [apply addsP_same; reflexivity|].
    apply processQueueItem_startable.
Qed.

End Startable.

Section NewEvents.

Variable host : Host.
Variable items : list LoaderServiceQueueItemModel.

Lemma step_newEvents a w w' :
  step host a w = Some w' -> isBootstrapped w = true ->
  addsP (newEvent host w) w w'.
Proof.
  intros Hstep Hflag.
  pose proof (step_adds host a w w' Hstep Hflag) as Hadd.
  destruct a as [target|cb|id|n|p k id].
  - apply (adds_addsP quiet); [|exact Hadd]. intros e; destruct e; simpl; auto; discriminate.
  - apply (adds_addsP quiet); [|exact Hadd]. intros e; destruct e; simpl; auto; discriminate.
  - apply (adds_addsP quiet); [|exact Hadd]. intros e; destruct e; simpl; auto; discriminate.
  - simpl in Hstep.
    destruct (nth_error (pendingTicks w) n) as [[q|tgt| | |]|] eqn:Hn;
      try discriminate;
      try (apply (adds_addsP quiet); [|exact Hadd];
           intros e; destruct e; simpl; auto; discriminate);
      try (apply (adds_addsP isCallback); [|exact Hadd];
           intros e; destruct e; simpl; auto; discriminate).
    inversion Hstep; subst. clear Hstep. simpl.
    set (w0 := setPendingTicks (removeNth n (pendingTicks w)) w) in *.
    destruct (processQueue_startable host q w0) as (newer & Htr & HF).
    destruct Hadd as (newer' & Htr' & HF').
    assert (newer' = newer).
    { apply (app_inv_tail (trace w)). rewrite <- Htr'. exact Htr. }
    subst newer'. exists newer. split; [exact Htr|].
    rewrite Forall_forall in *. intros e He.
    specialize (HF e He). specialize (HF' e He).
    destruct e; simpl in *; auto; try discriminate.
    destruct HF as (-> & Hin & Hres). auto.
  - destruct Hadd as (newer' & Htr' & HF').
    simpl in Hstep.
    destruct (existsb (isInvoke p k id) (trace w)) eqn:Hinv; [|discriminate].
    inversion Hstep; subst. clear Hstep.
    set (w0 := emit (EvDone p k id) w) in *.
    destruct (doneCallback_startable host p (Some k) (Some id) w0)
      as (newer & Htr & HF).
    assert (newer' = newer).
    { apply (app_inv_tail (EvDone p k id :: trace w)). rewrite <- Htr'. exact Htr. }
    subst newer'. exists (newer ++ [EvDone p k id]). split.
    + rewrite Htr'. now rewrite <- app_assoc.
    + apply Forall_app. split.
      * rewrite Forall_forall in *. intros e He.
        specialize (HF e He). specialize (HF' e He).
        destruct e; simpl in *; auto; try discriminate.
        destruct HF as (-> & Hin & Hres). auto.
      * constructor; [|constructor]. simpl. now apply existsb_isInvoke.
Qed.

Lemma remaining_incl p tr :
  incl (remaining items p tr) (getMap p (registered items)).
Proof.
  unfold remaining. induction (dones p tr) as [|kd l IH]; simpl.
  - apply incl_refl.
  - eapply incl_tran; [apply map_delete_incl|exact IH].
Qed.

Lemma tracedEvent_mono newer tr e :
  tracedEvent host items tr e -> tracedEvent host items (newer ++ tr) e.
Proof.
  destruct e; simpl; auto. intros [it H]. exists it. apply in_or_app. now right.
Qed.

Lemma reachable_traced w :
  reachable host items w ->
  Forall (tracedEvent host items (trace w)) (trace w).
Proof.
  induction 1 as [|w a w' Hreach IH Hstep]; [constructor|].
  destruct (reachable_Inv host items w Hreach) as [Hp|HB].
  - destruct a as [target|cb|id|n|q k id]; simpl in Hstep.
    + inversion Hstep; subst.
      destruct (bootstrap_pristine host items target w Hp) as (? & ? & ? & ? & ->).
      simpl. repeat constructor.
    + inversion Hstep; subst. destruct Hp as [cbs ->]. constructor.
    + destruct Hp as [cbs ->]. discriminate.
    + destruct Hp as [cbs ->]. simpl in Hstep. destruct n; discriminate.
    + destruct Hp as [cbs ->]. discriminate.
  - destruct (step_newEvents a w w' Hstep (b_flag HB)) as (newer & Htr & HF).
    rewrite Htr. apply Forall_app. split.
    + rewrite Forall_forall in *. intros e He. specialize (HF e He).
      destruct e; simpl in *; auto.
      * destruct HF as [Hin Hres]. split; [|exact Hres].
        rewrite (queue_remaining host items w p Hreach (b_flag HB)) in Hin.
        now apply remaining_incl in Hin.
      * destruct HF as [it Hin]. exists it. apply in_or_app. now right.
    + eapply Forall_impl; [|exact IH]. intros e. apply tracedEvent_mono.
Qed.

End NewEvents.

(** ** The finish subject fires behind the last queue *)

Lemma isDrained_listener p l :
  isDrained p (EvNextTick l) = true ->
  isFinishTick l = true -> p = frameworkAfterBoot.
Proof.
  destruct l as [q| | | |]; simpl; try discriminate.
  destruct p; simpl; congruence.
Qed.

Lemma in_removeNth {A} n (l : list A) x : In x (removeNth n l) -> In x l.
Proof.
  revert n. induction l as [|y l IH]; intros [|n]; simpl; auto.
  intros [H|H]; eauto.
Qed.

Section FinishChain.

Variable host : Host.
Variable items : list LoaderServiceQueueItemModel.

Lemma stopped_mono w w' p :
  Booted items w -> Booted items w' -> extends w w' ->
  isStopped (getSubject p w) = true -> isStopped (getSubject p w') = true.
Proof.
  intros HB HB' Hext Hst. unfold getSubject in *.
  pose proof (b_count HB p) as Hc. pose proof (b_count HB' p) as Hc'.
  pose proof (drainedCount_extends p w w' Hext) as Hle.
  rewrite Hst in Hc. simpl in Hc.
  destruct (isStopped (getCount p (queue w'))); [reflexivity|].
  simpl in Hc'. lia.
Qed.

(** The ticks waiting after [doneCallback] are those waiting before and,
    when the subject of [p] has now completed, maybe its drained tick. *)
Lemma doneCallback_ticks p key tid w :
  Booted items w ->
  (forall k, key = Some k -> exists id, In (EvDone p k id) (trace w)) ->
  pendingTicks (doneCallback host p key tid w) = pendingTicks w \/
  exists l,
    pendingTicks (doneCallback host p key tid w) = pendingTicks w ++ [l] /\
    isDrained p (EvNextTick l) = true /\
    isStopped (getSubject p (doneCallback host p key tid w)) = true.
Proof.
  intros HB Hkey. rewrite doneCallback_unfold. cbv zeta.
  destruct (cleared_neutral host tid w)
    as (Hq & _ & _ & _ & _ & Ht & _ & newer & Htr & _).
  pose proof (Booted_cleared host items tid w HB) as HB1.
  set (w1 := cleared host tid w) in *.
  assert (HB2 : Booted items
            match key with
            | Some k => setQueue (setMap p (map_delete k (getQueue p w1)) (queue w1)) w1
            | None => w1
            end).
  { destruct key as [k|]; [|assumption].
    apply Booted_delete; [assumption|].
    destruct (Hkey k eq_refl) as [id Hid]. exists id. rewrite Htr.
    apply in_or_app. now right. }
  assert (Ht2 : pendingTicks
            match key with
            | Some k => setQueue (setMap p (map_delete k (getQueue p w1)) (queue w1)) w1
            | None => w1
            end = pendingTicks w) by (destruct key; simpl; exact Ht).
  set (w2 := match key with
             | Some k => setQueue (setMap p (map_delete k (getQueue p w1)) (queue w1)) w1
             | None => w1
             end) in *.
  pose proof (Booted_countNext host items p (map_size (getQueue p w2)) w2 HB2) as HB3.
  assert (Ht3 : pendingTicks (countNext host p (map_size (getQueue p w2)) w2)
                = pendingTicks w) by (now rewrite countNext_pendingTicks).
  set (w3 := countNext host p (map_size (getQueue p w2)) w2) in *.
  destruct (Nat.eqb (map_size (getQueue p w3)) 0); [|now left].
  pose proof (b_shape HB3 p) as Hs. unfold shape in Hs.
  destruct (isStopped (getCount p (queue w3))) eqn:Hst.
  - left. now rewrite countComplete_stopped.
  - right. destruct Hs as (n & l & Hd & Hobs). exists l.
    assert (Hc : countComplete p w3 =
                 nextTick l (setQueue (setCount p (mkSubject [] true) (queue w3)) w3)).
    { destruct Hobs as [Hobs|Hobs];
        eapply countComplete_live; eauto; repeat constructor. }
    split; [|split; [exact Hd|]].
    + rewrite Hc. simpl. now rewrite Ht3.
    + unfold getSubject. apply countComplete_isStopped.
Qed.

Lemma processQueue_ticks p w :
  Booted items w ->
  pendingTicks (processQueue host p w) = pendingTicks w \/
  exists l,
    pendingTicks (processQueue host p w) = pendingTicks w ++ [l] /\
    isDrained p (EvNextTick l) = true /\
    isStopped (getSubject p (processQueue host p w)) = true.
Proof.
  intros HB. unfold processQueue.
  destruct (Nat.eqb (map_size (getQueue p w)) 0).
  - apply doneCallback_ticks; [assumption|discriminate].
  - left. now rewrite processQueueItem_pendingTicks.
Qed.

Lemma startingComplete_ticks w l :
  In l (pendingTicks (startingComplete w)) ->
  In l (pendingTicks w) \/ l = LProcessQueue frameworkBeforeBoot.
Proof.
  unfold startingComplete. destruct (isStopped (startingSubject w)); [auto|].
  generalize (observers (startingSubject w)). intros obs.
  change (pendingTicks w) with (pendingTicks (setStartingSubject (mkSubject [] true) w)).
  generalize (setStartingSubject (mkSubject [] true) w) as w0.
  induction obs as [|o obs IH]; intros w0; simpl; [auto|].
  intros H. apply IH in H. destruct H as [H|H]; [|auto].
  destruct o as [[|]|]; simpl in H; auto.
  apply in_app_or in H. destruct H as [H|[H|[]]]; auto.
Qed.

Lemma runTimer_ticks id l0 w l :
  In l (pendingTicks (runTimer host id l0 w)) ->
  In l (pendingTicks w) \/ l = LProcessQueue frameworkBeforeBoot.
Proof.
  destruct l0; simpl; auto.
  - intros H. apply startingComplete_ticks in H. destruct H as [H|H]; [|auto].
    left. unfold startingNext in H.
    destruct (isStopped (startingSubject (log _ w))); exact H.
  - unfold setupDoneTimeout, clearInterval, log.
    destruct (hostClearIntervalCancelsTimeout host); auto.
Qed.

Lemma finish_ticks w :
  pendingTicks (finishComplete (finishNext true w)) = pendingTicks w.
Proof.
  destruct (finishNext_neutral true w) as (_ & _ & _ & _ & Ht & _).
  unfold finishComplete. destruct (isStopped (finishSubject (finishNext true w)));
    simpl; exact Ht.
Qed.

Lemma step_FinishInv a w w' :
  Booted items w -> FinishInv w ->
  step host a w = Some w' -> FinishInv w'.
Proof.
  intros HB [F1 F2 F3] Hstep.
  pose proof (step_Booted host items a w w' HB Hstep) as HB'.
  pose proof (step_extends host a w w' Hstep (b_flag HB)) as Hext.
  pose proof (stopped_mono w w' frameworkAfterBoot HB HB' Hext) as Hmono.
  pose proof (step_finishSubject host a w w' Hstep (b_flag HB)) as Hfin.
  pose proof (step_adds host a w w' Hstep (b_flag HB)) as Hadd.
  assert (Hq : forall P : Event -> bool,
             (forall e, P e = true -> isCallback e = false) ->
             adds P w w' -> finishSubject w' = finishSubject w ->
             isStopped (finishSubject w') = false ->
             filter isCallback (trace w') = []).
  { intros P HP HaddP Hsame Hlive.
    rewrite (filter_callback_adds P w w' HP HaddP). apply F3. congruence. }
  destruct a as [target|cb|id|n|p k id].
  - simpl in Hstep. inversion Hstep; subst. unfold bootstrap.
    rewrite (b_flag HB). now constructor.
  - simpl in Hstep. inversion Hstep; subst. constructor; simpl; auto.
    + unfold subscribe. destruct (isStopped (finishSubject w)) eqn:Hs; simpl;
        intros H; [now apply F2|discriminate].
    + unfold subscribe. destruct (isStopped (finishSubject w)) eqn:Hs; simpl;
        intros H; [congruence|now apply F3].
  - constructor.
    + intros l Hin Hft. simpl in Hstep.
      destruct (findTimer id (pendingTimers w)) as [l0|]; [|discriminate].
      inversion Hstep; subst. apply runTimer_ticks in Hin.
      destruct Hin as [Hin|Heq]; [eauto|]. subst l. discriminate.
    + rewrite Hfin. auto.
    + apply (Hq quiet); auto. intros e; destruct e; simpl; congruence.
  - simpl in Hstep.
    destruct (nth_error (pendingTicks w) n) as [l0|] eqn:Hn; [|discriminate].
    inversion Hstep; subst. clear Hstep.
    set (w0 := setPendingTicks (removeNth n (pendingTicks w)) w) in *.
    assert (Hold : forall l, In l (pendingTicks w0) -> isFinishTick l = true ->
                             isStopped (getSubject frameworkAfterBoot w) = true).
    { intros l Hin. apply F1. simpl in Hin. now apply in_removeNth in Hin. }
    destruct l0 as [q|tgt| | |]; cbn [runTick] in *.
    + assert (HB0 : Booted items w0).
      { apply Booted_frame with (w := w); auto.
        - apply (b_flag HB).
        - intros r. apply pendingCount_removeNth.
        - exists []. split; [reflexivity|constructor]. }
      constructor.
      * intros l Hin Hft. simpl in Hin.
        destruct (processQueue_ticks q w0 HB0) as [Ht|(l1 & Ht & Hd & Hst)];
          rewrite Ht in Hin.
        -- eauto.
        -- apply in_app_or in Hin. destruct Hin as [Hin|[<-|[]]]; [eauto|].
           now rewrite <- (isDrained_listener q l1 Hd Hft).
      * simpl in Hfin. rewrite Hfin. auto.
      * apply (Hq (phaseEvent q)); auto. intros e; destruct e; simpl; congruence.
    + assert (Hfab : isStopped (getSubject frameworkAfterBoot w) = true).
      { apply (F1 (LFinishUp tgt)); [|reflexivity]. eapply nth_error_In; eauto. }
      constructor.
      * intros l Hin Hft. auto.
      * intros _. auto.
      * apply (Hq quiet); auto. intros e; destruct e; simpl; congruence.
    + assert (Hfab : isStopped (getSubject frameworkAfterBoot w) = true).
      { apply (F1 LFinish); [|reflexivity]. eapply nth_error_In; eauto. }
      constructor; auto.
      simpl. rewrite finishComplete_isStopped. discriminate.
    + constructor; simpl; eauto.
    + constructor; simpl; eauto.
  - simpl in Hstep.
    destruct (existsb (isInvoke p k id) (trace w)) eqn:Hinv; [|discriminate].
    inversion Hstep; subst. clear Hstep.
    set (w0 := emit (EvDone p k id) w) in *.
    assert (HB0 : Booted items w0).
    { apply Booted_frame with (w := w); auto.
      - apply (b_flag HB).
      - eexists [_]. split; [reflexivity|repeat constructor]. }
    constructor.
    + intros l Hin Hft.
      destruct (doneCallback_ticks p (Some k) (Some id) w0 HB0) as [Ht|(l1 & Ht & Hd & Hst)].
      * intros k0 [= <-]. exists id. now left.
      * rewrite Ht in Hin. eauto.
      * rewrite Ht in Hin.
        apply in_app_or in Hin. destruct Hin as [Hin|[<-|[]]]; [eauto|].
        now rewrite <- (isDrained_listener p l1 Hd Hft).
    + rewrite Hfin. auto.
    + intros Hlive. destruct Hadd as (newer & Htr & HF).
      rewrite Htr, filter_app. simpl.
      rewrite F3 by congruence.
      replace (filter isCallback newer) with (@nil Event); [reflexivity|].
      symmetry. clear Htr. induction HF as [|e newer He _ IH]; simpl; [reflexivity|].
      destruct e; simpl in *; try discriminate; assumption.
Qed.

Lemma reachable_FinishInv w : reachable host items w -> FinishInv w.
Proof.
  induction 1 as [|w a w' Hreach IH Hstep].
  - constructor; simpl; auto; try discriminate; intros l [].
  - destruct (reachable_Inv host items w Hreach) as [Hp|HB].
    + destruct a as [target|cb|id|n|q k id]; simpl in Hstep.
      * inversion Hstep; subst.
        destruct (bootstrap_pristine host items target w Hp) as (? & ? & ? & ? & ->).
        destruct Hp as [cbs ->].
        constructor; simpl; auto; try discriminate; intros l [].
      * inversion Hstep; subst. destruct Hp as [cbs ->].
        constructor; simpl; auto; try discriminate; intros l [].
      * destruct Hp as [cbs ->]. discriminate.
      * destruct Hp as [cbs ->]. simpl in Hstep. destruct n; discriminate.
      * destruct Hp as [cbs ->]. discriminate.
    + eapply step_FinishInv; eassumption.
Qed.

End FinishChain.

Section Finished.

Variable host : Host.
Variable items : list LoaderServiceQueueItemModel.

Lemma stopped_prev w p p0 :
  Booted items w -> prevPhase p = Some p0 ->
  isStopped (getSubject p w) = true -> isStopped (getSubject p0 w) = true.
Proof.
  intros HB Hprev Hst. unfold getSubject in *.
  pose proof (b_gate HB p) as Hg. unfold opened, triggered in Hg.
  rewrite Hst, Hprev in Hg. simpl in Hg.
  destruct (isStopped (getCount p0 (queue w))); [reflexivity|simpl in Hg; lia].
Qed.

Lemma all_stopped w :
  Booted items w ->
  isStopped (getSubject frameworkAfterBoot w) = true ->
  forall p, isStopped (getSubject p w) = true.
Proof.
  intros HB H4.
  pose proof (stopped_prev w frameworkAfterBoot after HB eq_refl H4) as H3.
  pose proof (stopped_prev w after before HB eq_refl H3) as H2.
  pose proof (stopped_prev w before frameworkBeforeBoot HB eq_refl H2) as H1.
  intros p. destruct p; assumption.
Qed.

Lemma callback_means_finished w c args :
  reachable host items w -> In (EvCallback c args) (trace w) ->
  isStopped (finishSubject w) = true.
Proof.
  intros Hreach Hin.
  destruct (isStopped (finishSubject w)) eqn:Hst; [reflexivity|].
  pose proof (f_quiet (reachable_FinishInv host items w Hreach) Hst) as Hq.
  assert (H : In (EvCallback c args) (filter isCallback (trace w))).
  { apply filter_In. split; [assumption|reflexivity]. }
  rewrite Hq in H. destruct H.
Qed.

Lemma finished_stopped_everywhere w p :
  reachable host items w -> isStopped (finishSubject w) = true ->
  isStopped (getSubject p w) = true.
Proof.
  intros Hreach Hst.
  pose proof (reachable_stopped_Booted host items w Hreach Hst) as HB.
  pose proof (f_stopped (reachable_FinishInv host items w Hreach) Hst) as Hfab.
  exact (all_stopped w HB Hfab p).
Qed.

(** X2.  In every run the finish subject fires, and a callback
    given to [done] is called, only when all four queues have drained:
    their count subjects have completed, they are empty, and the done
    callback of every registered item has been called. *)
Theorem finished_after_every_queue w p :
  reachable host items w ->
  isStopped (finishSubject w) = true \/
    (exists c args, In (EvCallback c args) (trace w)) ->
  isStopped (getSubject p w) = true /\
  getQueue p w = [] /\
  forall i, In i items -> type i = p ->
            exists id, In (EvDone p (identifier i) id) (trace w).
Proof.
  intros Hreach Hfin.
  assert (Hst : isStopped (finishSubject w) = true).
  { destruct Hfin as [H|(c & args & H)]; [exact H|].
    eapply callback_means_finished; eassumption. }
  pose proof (reachable_stopped_Booted host items w Hreach Hst) as HB.
  pose proof (f_stopped (reachable_FinishInv host items w Hreach) Hst) as Hfab.
  pose proof (all_stopped w HB Hfab p) as Hp.
  pose proof (b_shape HB p) as Hs. unfold shape, getSubject in *.
  rewrite Hp in Hs. destruct Hs as [Hq _].
  split; [exact Hp|]. split; [exact Hq|].
  intros i Hin <-.
  destruct (b_keys HB (type i) (identifier i) (registered_In items i Hin))
    as [Hk|Hd]; [|exact Hd].
  rewrite Hq in Hk. destruct Hk.
Qed.

Lemma fold_delete_keeps {V} k (v : V) (m : JsMap V) (l : list (string * nat)) :
  In (k, v) m -> (forall kd, In kd l -> fst kd <> k) ->
  In (k, v) (fold_right (fun kd m => map_delete (fst kd) m) m l).
Proof.
  intros Hin. induction l as [|kd l IH]; intros Hne; simpl; [assumption|].
  unfold map_delete at 1. apply filter_In. split.
  - apply IH. intros kd' H. apply Hne. now right.
  - simpl. destruct (String.eqb_spec k (fst kd)) as [Heq|Hneq]; [|reflexivity].
    exfalso. apply (Hne kd); [now left|congruence].
Qed.

Lemma NoDup_keys_inj {V} (m : JsMap V) k v v' :
  NoDup (map_keys m) -> In (k, v) m -> In (k, v') m -> v = v'.
Proof.
  unfold map_keys. induction m as [|[k0 v0] m IH]; simpl; [intros _ []|].
  intros Hnd H1 H2. inversion Hnd as [|? ? Hnin Hnd']; subst.
  destruct H1 as [H1|H1]; destruct H2 as [H2|H2].
  - congruence.
  - inversion H1; subst. exfalso. apply Hnin.
    apply in_map_iff. exists (k, v'). auto.
  - inversion H2; subst. exfalso. apply Hnin.
    apply in_map_iff. exists (k, v). auto.
  - eauto.
Qed.

(** X3.  A registered entry that cannot be started, because its
    target does not resolve or the instance lacks the method, stalls the
    boot for good: in every run, whatever the methods and the host do, its
    done callback is never called, the entry stays in its queue, the
    queue never drains, the finish subject never fires and no callback
    given to [done] is ever called. *)
Theorem unstartable_entry_stalls w p k it :
  reachable host items w ->
  In (k, it) (getMap p (registered items)) ->
  unstartable host it ->
  (forall id, ~ In (EvDone p k id) (trace w)) /\
  (isBootstrapped w = true -> In (k, it) (getQueue p w)) /\
  isStopped (getSubject p w) = false /\
  isStopped (finishSubject w) = false /\
  (forall c args, ~ In (EvCallback c args) (trace w)).
Proof.
  intros Hreach Hreg Hun.
  pose proof (reachable_traced host items w Hreach) as Htraced.
  rewrite Forall_forall in Htraced.
  assert (Hnd : forall id, ~ In (EvDone p k id) (trace w)).
  { intros id Hd. destruct (Htraced _ Hd) as [it' Hinv].
    destruct (Htraced _ Hinv) as [Hreg' (instance & Hres & Hm)].
    pose proof (registered_NoDup items p) as Hnodup. unfold registeredKeys in Hnodup.
    assert (it' = it) by (eapply NoDup_keys_inj; eassumption). subst it'.
    unfold unstartable in Hun. rewrite Hres in Hun. congruence. }
  assert (Hq : isBootstrapped w = true -> In (k, it) (getQueue p w)).
  { intros Hflag. rewrite (queue_remaining host items w p Hreach Hflag).
    unfold remaining. apply fold_delete_keeps; [assumption|].
    intros [k' id] Hin Heq. simpl in Heq. subst k'.
    apply in_dones in Hin. now apply (Hnd id). }
  assert (Hp : isStopped (getSubject p w) = false).
  { destruct (reachable_Inv host items w Hreach) as [[cbs ->]|HB].
    - now destruct p.
    - pose proof (b_shape HB p) as Hs. unfold shape, getSubject in *.
      destruct (isStopped (getCount p (queue w))); [|reflexivity].
      destruct Hs as [Hempty _]. specialize (Hq (b_flag HB)).
      unfold getQueue in Hq. rewrite Hempty in Hq. destruct Hq. }
  assert (Hf : isStopped (finishSubject w) = false).
  { destruct (isStopped (finishSubject w)) eqn:Hst; [|reflexivity].
    pose proof (finished_stopped_everywhere w p Hreach Hst). congruence. }
  repeat split; auto.
  intros c args Hc.
  pose proof (callback_means_finished w c args Hreach Hc). congruence.
Qed.

End Finished.

Lemma finished_after_every_queue_witness :
  isStopped (finishSubject sampleWorld) = true /\
  isStopped (getSubject before sampleWorld) = true /\
  getQueue before sampleWorld = [] /\
  forall i, In i sampleItems -> type i = before ->
            exists id, In (EvDone before (identifier i) id) (trace sampleWorld).
Proof.
  split; [reflexivity|].
  apply (finished_after_every_queue sampleHost sampleItems sampleWorld before).
  - apply sample_reachable.
  - left. reflexivity.
Defined.

Lemma unstartable_entry_stalls_witness :
  In (identifier underscoreItem, underscoreItem)
     (getMap before (registered [underscoreItem])) /\
  unstartable noMethodHost underscoreItem /\
  (forall id, ~ In (EvDone before (identifier underscoreItem) id) (trace stalledWorld)) /\
  (isBootstrapped stalledWorld = true ->
   In (identifier underscoreItem, underscoreItem) (getQueue before stalledWorld)) /\
  isStopped (getSubject before stalledWorld) = false /\
  isStopped (finishSubject stalledWorld) = false /\
  (forall c args, ~ In (EvCallback c args) (trace stalledWorld)).
Proof.
  split; [left; reflexivity|]. split; [reflexivity|].
  apply (unstartable_entry_stalls noMethodHost [underscoreItem] stalledWorld before).
  - apply run_reachable
      with (actions := [ActDone 7; ActBootstrap (TokenString "root");
                        ActTimer 1; ActTick 0; ActTick 0])
           (w := initialWorld noMethodHost [underscoreItem]).
    + apply reach_init.
    + vm_compute. reflexivity.
  - left. reflexivity.
  - reflexivity.
Defined.

Section WarmUp.

Variable host : Host.
Variable items : list LoaderServiceQueueItemModel.

Lemma not_started_not_opened w :
  Booted items w -> isStopped (startingSubject w) = false ->
  forall p, opened p (queue w) = false.
Proof.
  intros HB Hst.
  assert (Hstep : forall p, triggered p (queue w) (startingSubject w) = false ->
                            opened p (queue w) = false).
  { intros p Ht. pose proof (b_gate HB p) as Hg. rewrite Ht in Hg.
    destruct (opened p (queue w)); [simpl in Hg; lia|reflexivity]. }
  assert (Hnot : forall p, opened p (queue w) = false ->
                           isStopped (getCount p (queue w)) = false).
  { intros p Ho. unfold opened in Ho. now apply orb_false_elim in Ho. }
  assert (H1 : opened frameworkBeforeBoot (queue w) = false)
    by (apply Hstep; exact Hst).
  assert (H2 : opened before (queue w) = false)
    by (apply Hstep; exact (Hnot frameworkBeforeBoot H1)).
  assert (H3 : opened after (queue w) = false)
    by (apply Hstep; exact (Hnot before H2)).
  assert (H4 : opened frameworkAfterBoot (queue w) = false)
    by (apply Hstep; exact (Hnot after H3)).
  intros p. destruct p; assumption.
Qed.

(** X4.  Until the starting subject has fired, that is until the
    timer of [startLoading] has run, nothing is processed: no method has
    been started, no done callback has been called, no count subject has
    completed, and after [bootstrap] each queue holds exactly the
    registered entries. *)
Theorem nothing_before_warm_up w p :
  reachable host items w ->
  isStopped (startingSubject w) = false ->
  (forall k it id, ~ In (EvInvoke p k it id) (trace w)) /\
  (forall k id, ~ In (EvDone p k id) (trace w)) /\
  isStopped (getSubject p w) = false /\
  (isBootstrapped w = true -> getQueue p w = getMap p (registered items)).
Proof.
  intros Hreach Hst.
  assert (Hinv : forall k it id, ~ In (EvInvoke p k it id) (trace w)).
  { intros k it id Hin.
    destruct (reachable_Inv host items w Hreach) as [[cbs ->]|HB]; [destruct Hin|].
    pose proof (b_invoke HB p k it id Hin) as Ho.
    rewrite (not_started_not_opened w HB Hst p) in Ho. discriminate. }
  assert (Hdone : forall k id, ~ In (EvDone p k id) (trace w)).
  { intros k id Hin.
    pose proof (reachable_traced host items w Hreach) as Htraced.
    rewrite Forall_forall in Htraced.
    destruct (Htraced _ Hin) as [it Hit]. exact (Hinv k it id Hit). }
  split; [exact Hinv|]. split; [exact Hdone|]. split.
  - destruct (reachable_Inv host items w Hreach) as [[cbs ->]|HB]; [now destruct p|].
    pose proof (not_started_not_opened w HB Hst p) as Ho.
    unfold opened in Ho. now apply orb_false_elim in Ho.
  - intros Hflag. rewrite (queue_remaining host items w p Hreach Hflag).
    unfold remaining.
    replace (dones p (trace w)) with (@nil (string * nat)); [reflexivity|].
    destruct (dones p (trace w)) as [|[k id] l] eqn:Hd; [reflexivity|].
    exfalso. apply (Hdone k id). apply in_dones. rewrite Hd. now left.
Qed.


End WarmUp.

Lemma sampleWarmingUp_reachable :
  reachable sampleHost sampleItems sampleWorldWarmingUp.
Proof.
  apply run_reachable with (actions := firstn 2 sampleActions)
                           (w := initialWorld sampleHost sampleItems).
  - apply reach_init.
  - vm_compute. reflexivity.
Qed.

Lemma nothing_before_warm_up_witness :
  isStopped (startingSubject sampleWorldWarmingUp) = false /\
  (forall k it id, ~ In (EvInvoke before k it id) (trace sampleWorldWarmingUp)) /\
  (forall k id, ~ In (EvDone before k id) (trace sampleWorldWarmingUp)) /\
  isStopped (getSubject before sampleWorldWarmingUp) = false /\
  (isBootstrapped sampleWorldWarmingUp = true ->
   getQueue before sampleWorldWarmingUp = getMap before (registered sampleItems)).
Proof.
  split; [reflexivity|].
  apply (nothing_before_warm_up sampleHost sampleItems sampleWorldWarmingUp before).
  - apply sampleWarmingUp_reachable.
  - reflexivity.
Defined.


(** ** The callbacks of [done] *)

Section Callbacks.

Variable host : Host.
Variable items : list LoaderServiceQueueItemModel.

Lemma step_observers a w w' :
  Inv host items w -> step host a w = Some w' ->
  isStopped (finishSubject w') = false ->
  isStopped (finishSubject w) = false /\
  observers (finishSubject w') = observers (finishSubject w) ++ doneCallbacks [a].
Proof.
  intros [Hp|HB] Hstep Hlive.
  - destruct a as [target|cb|id|n|p k id]; simpl in Hstep.
    + destruct (bootstrap_pristine host items target w Hp)
        as (n1 & n2 & n3 & n4 & Heq).
      destruct Hp as [cbs ->]. inversion Hstep; subst w'. rewrite Heq. simpl.
      split; [reflexivity|now rewrite app_nil_r].
    + destruct Hp as [cbs ->]. inversion Hstep; subst w'. simpl.
      split; reflexivity.
    + destruct Hp as [cbs ->]. simpl in Hstep. discriminate.
    + destruct Hp as [cbs ->]. simpl in Hstep. destruct n; discriminate.
    + destruct Hp as [cbs ->]. simpl in Hstep. discriminate.
  - pose proof (step_finishSubject host a w w' Hstep (b_flag HB)) as Hfin.
    destruct a as [target|cb|id|n|p k id]; simpl;
      try (rewrite Hfin in *; split; [assumption|now rewrite app_nil_r]).
    + rewrite Hfin in *. unfold subscribe in *.
      destruct (isStopped (finishSubject w)) eqn:Hs; [congruence|].
      split; reflexivity.
    + destruct (nth_error (pendingTicks w) n) as [[q|tgt| | |]|];
        try (rewrite Hfin in *; split; [assumption|now rewrite app_nil_r]).
      subst w'. rewrite finishComplete_isStopped in Hlive. discriminate.
Qed.

Lemma run_observers actions w w' :
  Inv host items w -> run host actions w = Some w' ->
  isStopped (finishSubject w') = false ->
  isStopped (finishSubject w) = false /\
  observers (finishSubject w') = observers (finishSubject w) ++ doneCallbacks actions.
Proof.
  revert w. induction actions as [|a rest IH]; simpl; intros w HI Hrun Hlive.
  - inversion Hrun; subst. split; [assumption|now rewrite app_nil_r].
  - destruct (step host a w) as [w1|] eqn:Hstep; [|discriminate].
    assert (HI1 : Inv host items w1).
    { destruct HI as [Hp|HB].
      - eapply step_pristine; eassumption.
      - right. eapply step_Booted; eassumption. }
    destruct (IH w1 HI1 Hrun Hlive) as [Hl1 Ho1].
    destruct (step_observers a w w1 HI Hstep Hl1) as [Hl Ho].
    split; [assumption|]. rewrite Ho1, Ho. simpl. rewrite app_nil_r.
    now rewrite <- app_assoc.
Qed.

Lemma filter_callbacks_all (cbs : list nat) :
  filter isCallback (map (fun cb => EvCallback cb [JsBool true]) cbs)
  = map (fun cb => EvCallback cb [JsBool true]) cbs.
Proof. induction cbs as [|cb cbs IH]; simpl; [reflexivity|now rewrite IH]. Qed.

(** X6.  When the finish subject fires, the callbacks given to
    [done] up to then are called in the order in which they were given,
    each with [true], a callback given twice being called twice; these
    are all the callback calls of the run, whatever happens later. *)
Theorem callbacks_called_in_done_order actions n later w w' w'' :
  run host actions (initialWorld host items) = Some w ->
  isStopped (finishSubject w) = false ->
  step host (ActTick n) w = Some w' ->
  isStopped (finishSubject w') = true ->
  run host later w' = Some w'' ->
  filter isCallback (trace w'')
  = rev (map (fun cb => EvCallback cb [JsBool true]) (doneCallbacks actions)).
Proof.
  intros Hrun Hlive Hstep Hstop Hlater.
  assert (Hreach : reachable host items w).
  { eapply run_reachable; [apply reach_init|eassumption]. }
  assert (Hreach' : reachable host items w').
  { apply reach_step with (w := w) (a := ActTick n); assumption. }
  pose proof (reachable_stopped_Booted host items w' Hreach' Hstop) as HB'.
  destruct (run_after_finish host items later w' w'' HB' Hstop Hlater) as [_ ->].
  destruct (run_observers actions _ w (or_introl (ex_intro _ [] eq_refl)) Hrun Hlive)
    as [_ Hobs].
  simpl in Hobs.
  destruct (reachable_Inv host items w Hreach) as [[cbs ->]|HB];
    [simpl in Hstep; destruct n; discriminate|].
  pose proof (step_finishSubject host (ActTick n) w w' Hstep (b_flag HB)) as Hfin.
  simpl in Hfin.
  destruct (nth_error (pendingTicks w) n) as [[q|tgt| | |]|];
    try (rewrite Hfin in Hstop; congruence).
  subst w'.
  assert (Htr : forall x, trace (finishComplete x) = trace x).
  { intros x. unfold finishComplete. now destruct (isStopped (finishSubject x)). }
  rewrite Htr, finishNext_true_trace by exact Hlive. simpl.
  rewrite filter_app, (f_quiet (reachable_FinishInv host items w Hreach) Hlive).
  rewrite app_nil_r, <- map_rev, filter_callbacks_all, map_rev.
  now rewrite Hobs.
Qed.

End Callbacks.

Lemma callbacks_called_in_done_order_witness :
  filter isCallback
    (trace (worldAfter sampleHost sampleItems (sampleActions ++ [ActDone 8])))
  = rev (map (fun cb => EvCallback cb [JsBool true])
             (doneCallbacks sampleActionsBeforeFinish)).
Proof.
  apply (callbacks_called_in_done_order sampleHost sampleItems
           sampleActionsBeforeFinish 0 [ActDone 8]
           sampleWorldBeforeFinish sampleWorld).
  - vm_compute. reflexivity.
  - reflexivity.
  - vm_compute. reflexivity.
  - reflexivity.
  - vm_compute. reflexivity.
Defined.

(** ** The root target *)

Section Root.

Variable host : Host.
Variable items : list LoaderServiceQueueItemModel.
Variable t : InjectionToken.

Lemma RootInv_frame w w' :
  queue w' = queue w -> pendingTicks w' = pendingTicks w ->
  finishSubject w' = finishSubject w ->
  RootInv host t w -> RootInv host t w'.
Proof.
  intros Hq Ht Hf [R1 R2 R3]. constructor.
  - intros p. unfold getSubject in *. rewrite Hq. apply R1.
  - now rewrite Ht.
  - now rewrite Hf.
Qed.

Lemma RootInv_setMap p m w :
  RootInv host t w -> RootInv host t (setQueue (setMap p m (queue w)) w).
Proof.
  intros [R1 R2 R3]. constructor; auto.
  intros r. unfold getSubject. simpl. rewrite getCount_setMap. apply R1.
Qed.

Lemma RootInv_setCount p c w :
  Forall (rootObserver host t) (observers c) ->
  RootInv host t w -> RootInv host t (setQueue (setCount p c (queue w)) w).
Proof.
  intros Hc [R1 R2 R3]. constructor; auto.
  intros r. unfold getSubject. simpl. destruct (type_eq_dec r p) as [->|Hne].
  - now rewrite getCount_setCount_same.
  - rewrite getCount_setCount_other by assumption. apply R1.
Qed.

Lemma RootInv_nextTick l w :
  rootListener host t l -> RootInv host t w -> RootInv host t (nextTick l w).
Proof.
  intros Hl [R1 R2 R3]. constructor; auto.
  simpl. apply Forall_app. split; [assumption|]. now constructor.
Qed.

Lemma RootInv_processQueueItem p w :
  RootInv host t w -> RootInv host t (processQueueItem host p w).
Proof.
  apply RootInv_frame.
  - apply processQueueItem_queue.
  - apply processQueueItem_pendingTicks.
  - apply processQueueItem_finishSubject.
Qed.

Lemma RootInv_countNext p v w :
  RootInv host t w -> RootInv host t (countNext host p v w).
Proof.
  intros HR.
  destruct (isStopped (getCount p (queue w))) eqn:Hst.
  - now rewrite countNext_stopped.
  - apply RootInv_frame
      with (w := setQueue
                   (setCount p
                      (mkSubject (map (bufferValue v) (observers (getCount p (queue w))))
                         false) (queue w)) w).
    + rewrite countNext_queue, Hst. reflexivity.
    + now rewrite countNext_pendingTicks.
    + now rewrite countNext_finishSubject.
    + apply RootInv_setCount; [|assumption]. simpl.
      pose proof (r_obs HR p) as Ho. unfold getSubject in Ho.
      induction Ho as [|o obs Ho _ IH]; simpl; constructor; [|assumption].
      now destruct o.
Qed.

Lemma RootInv_completeObservers obs w :
  Forall (rootObserver host t) obs ->
  RootInv host t w -> RootInv host t (fold_left completeObserver obs w).
Proof.
  intros Ho. revert w. induction Ho as [|o obs Ho _ IH]; intros w HR; simpl;
    [assumption|].
  apply IH. destruct o as [[n|] l|]; simpl; auto.
  now apply RootInv_nextTick.
Qed.

Lemma RootInv_countComplete p w :
  RootInv host t w -> RootInv host t (countComplete p w).
Proof.
  intros HR. unfold countComplete.
  destruct (isStopped (getSubject p w)); [assumption|].
  apply RootInv_completeObservers; [apply (r_obs HR p)|].
  apply RootInv_setCount; [constructor|assumption].
Qed.

Lemma RootInv_cleared tid w :
  RootInv host t w -> RootInv host t (cleared host tid w).
Proof.
  destruct (cleared_neutral host tid w) as (Hq & _ & Hf & _ & _ & Ht & _).
  now apply RootInv_frame.
Qed.

Lemma RootInv_doneCallback p key tid w :
  RootInv host t w -> RootInv host t (doneCallback host p key tid w).
Proof.
  intros HR. rewrite doneCallback_unfold. cbv zeta.
  pose proof (RootInv_cleared tid w HR) as H1.
  set (w1 := cleared host tid w) in *.
  assert (H2 : RootInv host t
            match key with
            | Some k => setQueue (setMap p (map_delete k (getQueue p w1)) (queue w1)) w1
            | None => w1
            end).
  { destruct key; [now apply RootInv_setMap|assumption]. }
  set (w2 := match key with
             | Some k => setQueue (setMap p (map_delete k (getQueue p w1)) (queue w1)) w1
             | None => w1
             end) in *.
  pose proof (RootInv_countNext p (map_size (getQueue p w2)) w2 H2) as H3.
  destruct (Nat.eqb _ 0); [now apply RootInv_countComplete|assumption].
Qed.

Lemma RootInv_processQueue p w :
  RootInv host t w -> RootInv host t (processQueue host p w).
Proof.
  intros HR. unfold processQueue.
  destruct (Nat.eqb (map_size (getQueue p w)) 0).
  - now apply RootInv_doneCallback.
  - apply RootInv_processQueueItem. apply RootInv_setCount; [|assumption].
    unfold subscribe. destruct (isStopped (getSubject p w)); [apply (r_obs HR p)|].
    simpl. apply Forall_app. split; [apply (r_obs HR p)|]. now repeat constructor.
Qed.

Lemma RootInv_runTimer id l w :
  RootInv host t w -> RootInv host t (runTimer host id l w).
Proof.
  intros [R1 R2 R3]. constructor.
  - intros p. unfold getSubject. rewrite runTimer_queue. apply R1.
  - rewrite Forall_forall in *. intros l0 Hin.
    apply runTimer_ticks in Hin. destruct Hin as [Hin| ->]; [auto|exact I].
  - now rewrite runTimer_finishSubject.
Qed.

Lemma RootInv_removeNth n w :
  RootInv host t w ->
  RootInv host t (setPendingTicks (removeNth n (pendingTicks w)) w).
Proof.
  intros [R1 R2 R3]. constructor; auto. simpl.
  rewrite Forall_forall in *. intros l Hin. apply R2.
  eapply in_removeNth; eassumption.
Qed.

Lemma RootInv_runTick n l w :
  nth_error (pendingTicks w) n = Some l ->
  RootInv host t w ->
  RootInv host t (runTick host l (setPendingTicks (removeNth n (pendingTicks w)) w)).
Proof.
  intros Hn HR.
  assert (Hl : rootListener host t l).
  { pose proof (r_ticks HR) as R2. rewrite Forall_forall in R2.
    apply R2. eapply nth_error_In; eassumption. }
  pose proof (RootInv_removeNth n w HR) as HR0.
  set (w0 := setPendingTicks (removeNth n (pendingTicks w)) w) in *.
  destruct l as [q|tgt| | |]; cbn [runTick]; try assumption.
  - now apply RootInv_processQueue.
  - simpl in Hl. subst tgt. unfold finishUpBooting.
    destruct (hostResolve host t) eqn:Hres; [|assumption].
    apply RootInv_nextTick; [|assumption]. simpl. congruence.
  - simpl in Hl. constructor.
    + intros p. unfold getSubject. rewrite finishComplete_queue.
      destruct (finishNext_neutral true w0) as (Hq & _). rewrite Hq.
      apply (r_obs HR0 p).
    + rewrite finish_ticks. apply (r_ticks HR0).
    + intros _. exact Hl.
Qed.

Lemma step_RootInv a w w' :
  isBootstrapped w = true -> RootInv host t w ->
  step host a w = Some w' -> RootInv host t w'.
Proof.
  intros Hflag HR Hstep. destruct a as [target|cb|id|n|p k id]; simpl in Hstep.
  - inversion Hstep; subst. unfold bootstrap. now rewrite Hflag.
  - inversion Hstep; subst. destruct HR as [R1 R2 R3]. constructor; auto.
    simpl. unfold subscribe.
    destruct (isStopped (finishSubject w)) eqn:Hs; simpl; [auto|discriminate].
  - destruct (findTimer id (pendingTimers w)) as [l|]; [|discriminate].
    inversion Hstep; subst. apply RootInv_runTimer.
    revert HR. now apply RootInv_frame.
  - destruct (nth_error (pendingTicks w) n) as [l|] eqn:Hn; [|discriminate].
    inversion Hstep; subst. now apply RootInv_runTick.
  - destruct (existsb (isInvoke p k id) (trace w)); [|discriminate].
    inversion Hstep; subst. apply RootInv_doneCallback.
    revert HR. now apply RootInv_frame.
Qed.

Lemma run_RootInv actions w w' :
  Booted items w -> RootInv host t w ->
  run host actions w = Some w' -> RootInv host t w'.
Proof.
  revert w. induction actions as [|a rest IH]; simpl; intros w HB HR Hrun.
  - now inversion Hrun; subst.
  - destruct (step host a w) as [w1|] eqn:Hstep; [|discriminate].
    apply (IH w1); [|eapply step_RootInv; eauto; apply (b_flag HB)|assumption].
    eapply step_Booted; eassumption.
Qed.

Lemma bootstrap_RootInv w :
  pristine host items w -> RootInv host t (bootstrap host t w).
Proof.
  intros Hp.
  destruct (bootstrap_pristine host items t w Hp) as (n1 & n2 & n3 & n4 & ->).
  destruct Hp as [cbs ->]. constructor; simpl.
  - intros p. destruct p; simpl; repeat constructor.
  - constructor.
  - discriminate.
Qed.

Lemma run_pristine_RootInv actions w w' :
  pristine host items w -> firstBootstrap actions = Some t ->
  run host actions w = Some w' -> RootInv host t w'.
Proof.
  revert w. induction actions as [|a rest IH]; simpl; intros w Hp Hfirst Hrun;
    [discriminate|].
  destruct (step host a w) as [w1|] eqn:Hstep; [|discriminate].
  destruct a as [target|cb|id|n|p k id].
  - inversion Hfirst; subst target. simpl in Hstep. inversion Hstep; subst w1.
    apply (run_RootInv rest (bootstrap host t w)); auto.
    + now apply bootstrap_booted.
    + now apply bootstrap_RootInv.
  - apply (IH w1); auto. simpl in Hstep. inversion Hstep; subst.
    destruct Hp as [cbs ->]. exists (cbs ++ [cb]). reflexivity.
  - destruct Hp as [cbs ->]. simpl in Hstep. discriminate.
  - destruct Hp as [cbs ->]. simpl in Hstep. destruct n; discriminate.
  - destruct Hp as [cbs ->]. simpl in Hstep. discriminate.
Qed.

(** X7.  The root target of the boot is the one of the first
    [bootstrap] call of the run.  If the container does not resolve it,
    the finish subject never fires and no callback given to [done] is ever
    called, whatever else happens in the run. *)
Theorem unresolved_root_never_finishes actions w :
  run host actions (initialWorld host items) = Some w ->
  firstBootstrap actions = Some t ->
  hostResolve host t = None ->
  isStopped (finishSubject w) = false /\
  forall c args, ~ In (EvCallback c args) (trace w).
Proof.
  intros Hrun Hfirst Hres.
  assert (HR : RootInv host t w).
  { apply (run_pristine_RootInv actions (initialWorld host items)); auto.
    exists []. reflexivity. }
  assert (Hlive : isStopped (finishSubject w) = false).
  { destruct (isStopped (finishSubject w)) eqn:Hs; [|reflexivity].
    now destruct (r_finish HR Hs). }
  split; [assumption|]. intros c args Hin.
  assert (Hreach : reachable host items w).
  { eapply run_reachable; [apply reach_init|eassumption]. }
  pose proof (callback_means_finished host items w c args Hreach Hin). congruence.
Qed.

End Root.

Lemma unresolved_root_never_finishes_witness :
  isStopped (finishSubject
               (worldAfter classOnlyHost sampleItems sampleActionsBeforeFinish))
  = false /\
  forall c args,
    ~ In (EvCallback c args)
         (trace (worldAfter classOnlyHost sampleItems sampleActionsBeforeFinish)).
Proof.
  apply (unresolved_root_never_finishes classOnlyHost sampleItems
           (TokenString "root") sampleActionsBeforeFinish).
  - vm_compute. reflexivity.
  - reflexivity.
  - reflexivity.
Defined.

(** ** A done callback called again *)

Section Repeated.

Variable host : Host.
Variable items : list LoaderServiceQueueItemModel.

Lemma map_delete_absent {V} k (m : JsMap V) :
  ~ In k (map_keys m) -> map_delete k m = m.
Proof.
  unfold map_keys, map_delete. induction m as [|[k0 v0] m IH]; simpl; intros H;
    [reflexivity|].
  destruct (String.eqb_spec k0 k) as [Heq|Hneq]; simpl.
  - exfalso. apply H. now left.
  - f_equal. apply IH. intros Hin. apply H. now right.
Qed.

Lemma remaining_not_done p k id tr :
  In (EvDone p k id) tr -> ~ In k (map_keys (remaining items p tr)).
Proof.
  intros Hin. apply in_dones in Hin. unfold remaining.
  induction (dones p tr) as [|[k0 id0] l IH]; [destruct Hin|].
  simpl. intros Hk. apply map_delete_keys in Hk. destruct Hk as [Hk Hne].
  destruct Hin as [Heq|Hin]; [congruence|]. now apply IH.
Qed.

(** X8.  The done callback is not guarded against a second call.
    When the callback of an entry that has completed already is called
    again while another entry is first in the queue, the method of that
    entry is started once more, with a watchdog of its own, although it
    may be running: the queue stays as it is and the run has one more
    start of the head. *)
Theorem repeated_done_restarts_head w p k id id0 k2 it2 rest instance :
  reachable host items w ->
  existsb (isInvoke p k id) (trace w) = true ->
  In (EvDone p k id0) (trace w) ->
  getQueue p w = (k2, it2) :: rest ->
  hostResolve host (target it2) = Some instance ->
  instance (methodName it2) = true ->
  exists w',
    step host (ActComplete p k id) w = Some w' /\
    getQueue p w' = getQueue p w /\
    invokes p (trace w') = (k2, nextTimerId w) :: invokes p (trace w).
Proof.
  intros Hreach Hbound Hdone Hq Hres Hm.
  destruct (reachable_Inv host items w Hreach) as [[cbs ->]|HB]; [destruct Hdone|].
  assert (Hop : opened p (queue w) = true).
  { apply existsb_isInvoke in Hbound. destruct Hbound as [it Hin].
    exact (b_invoke HB p k it id Hin). }
  assert (Hdel : map_delete k (getQueue p w) = (k2, it2) :: rest).
  { rewrite <- Hq. apply map_delete_absent.
    rewrite (queue_remaining host items w p Hreach (b_flag HB)).
    eapply remaining_not_done; eassumption. }
  eexists. split; [simpl; rewrite Hbound; reflexivity|].
  rewrite doneCallback_unfold. cbv zeta.
  set (w0 := emit (EvDone p k id) w).
  destruct (cleared_neutral host (Some id) w0)
    as (Hq1 & _ & _ & _ & _ & _ & Hid1 & _).
  pose proof (cleared_adds host (Some id) w0) as Hadd1.
  set (w1 := cleared host (Some id) w0) in *.
  set (w2 := setQueue (setMap p (map_delete k (getQueue p w1)) (queue w1)) w1).
  assert (Hq2 : getQueue p w2 = (k2, it2) :: rest).
  { unfold w2, getQueue. simpl. rewrite getMap_setMap_same, Hq1. exact Hdel. }
  assert (Hc2 : getCount p (queue w2) = getCount p (queue w)).
  { unfold w2. simpl. now rewrite getCount_setMap, Hq1. }
  pose proof (b_shape HB p) as Hs. unfold shape in Hs.
  destruct (isStopped (getCount p (queue w))) eqn:Hst.
  { destruct Hs as [Hempty _]. unfold getQueue in Hq. rewrite Hempty in Hq.
    discriminate. }
  destruct Hs as (n & l & _ & [Hobs|Hobs]).
  { unfold opened in Hop. rewrite Hst, Hobs in Hop. discriminate. }
  assert (Hst2 : isStopped (getCount p (queue w2)) = false) by (now rewrite Hc2).
  assert (Hobs2 : observers (getCount p (queue w2))
                  = [ObsTakeLast (Some n) l; ObsFilterNonZero]) by (now rewrite Hc2).
  rewrite (countNext_filter host p _ w2 _ l Hst2 Hobs2). cbv zeta.
  rewrite Hq2. simpl map_size. cbn [Nat.eqb].
  set (w2' := setQueue _ w2).
  assert (Hq2' : getQueue p w2' = (k2, it2) :: rest).
  { unfold w2', getQueue. simpl. rewrite getMap_setCount. exact Hq2. }
  assert (Hq3 : getQueue p (processQueueItem host p w2') = (k2, it2) :: rest).
  { unfold getQueue. rewrite processQueueItem_queue. exact Hq2'. }
  rewrite Hq3. simpl. split; [now rewrite Hq|].
  unfold processQueueItem. rewrite Hq2'. simpl. rewrite Hres, Hm. simpl.
  rewrite type_eqb_refl. f_equal.
  - f_equal. exact Hid1.
  - change (invokes p (trace w1) = invokes p (trace w)).
    rewrite (adds_invokes quiet p w0 w1); [|apply quiet_no_invoke|exact Hadd1].
    reflexivity.
Qed.

(** X1.  In every run, once [bootstrap] has been called, a queue holds
    the entries registered for it but for the keys whose done callback
    has been called, in the order of registration: an entry is in the
    queue exactly if it was registered under its key and no done callback
    has been called for that key.  Nothing enters a queue after
    [bootstrap], and an entry leaves only through a done callback bound to
    its key. *)
Theorem queue_is_remaining w p k it :
  reachable host items w ->
  isBootstrapped w = true ->
  getQueue p w = remaining items p (trace w) /\
  (In (k, it) (getQueue p w) <->
   In (k, it) (getMap p (registered items)) /\
   forall id, ~ In (EvDone p k id) (trace w)).
Proof.
  intros Hreach Hflag. rewrite (queue_remaining host items w p Hreach Hflag).
  split; [reflexivity|]. split.
  - intros Hin. split; [now apply (remaining_incl items p (trace w))|].
    intros id Hd. apply (remaining_not_done p k id (trace w) Hd).
    unfold map_keys. apply in_map_iff. exists (k, it). auto.
  - intros [Hreg Hnd]. unfold remaining. apply fold_delete_keeps; [assumption|].
    intros [k' id] Hin Heq. simpl in Heq. subst k'.
    apply in_dones in Hin. exact (Hnd id Hin).
Qed.

End Repeated.

Lemma queue_is_remaining_witness :
  getQueue before sampleWorldLastPending
  = remaining sampleItems before (trace sampleWorldLastPending) /\
  (In ("B_autoStart"%string, mkItem before (TokenClass 1 "B") "autoStart" 100)
      (getQueue before sampleWorldLastPending) <->
   In ("B_autoStart"%string, mkItem before (TokenClass 1 "B") "autoStart" 100)
      (getMap before (registered sampleItems)) /\
   forall id, ~ In (EvDone before "B_autoStart" id) (trace sampleWorldLastPending)).
Proof.
  apply (queue_is_remaining sampleHost sampleItems sampleWorldLastPending before
           "B_autoStart" (mkItem before (TokenClass 1 "B") "autoStart" 100)).
  - apply sampleLastPending_reachable.
  - reflexivity.
Defined.

Lemma repeated_done_restarts_head_witness :
  exists w',
    step sampleHost (ActComplete before "A_autoStart" 2) sampleWorldInFlight
    = Some w' /\
    getQueue before w' = getQueue before sampleWorldInFlight /\
    invokes before (trace w')
    = ("B_autoStart"%string, nextTimerId sampleWorldInFlight)
        :: invokes before (trace sampleWorldInFlight).
Proof.
  apply (repeated_done_restarts_head sampleHost sampleItems sampleWorldInFlight
           before "A_autoStart" 2 2 "B_autoStart"
           (mkItem before (TokenClass 1 "B") "autoStart" 100) []
           (fun m => String.eqb m "autoStart")).
  - apply run_reachable with (actions := firstn 6 sampleActions)
                             (w := initialWorld sampleHost sampleItems).
    + apply reach_init.
    + vm_compute. reflexivity.
  - vm_compute. reflexivity.
  - vm_compute. tauto.
  - vm_compute. reflexivity.
  - reflexivity.
  - reflexivity.
Defined.

(** * BaseEventService *)

Section EventService.

Import BaseEventService.

Lemma bind_fst_ok {A B} (m : Eff A) (f : A -> Eff B) a :
  snd m = Some a -> bind m f = (fst m ++ fst (f a), snd (f a)).
Proof. intros H. unfold bind. now rewrite H. Qed.

Lemma bind_throw {A B} (m : Eff A) (f : A -> Eff B) :
  snd m = None -> bind m f = (fst m, None).
Proof. intros H. unfold bind. now rewrite H. Qed.

Lemma forEach_ok {A} (f : A -> Eff unit) l :
  Forall (fun x => snd (f x) = Some tt) l ->
  forEach f l = (flat_map (fun x => fst (f x)) l, Some tt).
Proof.
  induction 1 as [|x l Hx _ IH]; simpl; [reflexivity|].
  rewrite (bind_fst_ok _ _ tt Hx), IH. reflexivity.
Qed.

Lemma forEach_throws {A} (f : A -> Eff unit) l :
  Exists (fun x => snd (f x) = None) l -> snd (forEach f l) = None.
Proof.
  induction 1 as [x l Hx|x l _ IH]; simpl.
  - now rewrite bind_throw.
  - unfold bind. destruct (snd (f x)); [exact IH|reflexivity].
Qed.

Lemma bind_effects_in {A B} (m : Eff A) (f : A -> Eff B) e :
  In e (fst (bind m f)) -> In e (fst m) \/ exists a, snd m = Some a /\ In e (fst (f a)).
Proof.
  unfold bind. destruct (snd m) as [a|] eqn:Hm; simpl; [|auto].
  intros H. apply in_app_or in H. destruct H; eauto.
Qed.

Lemma forEach_effects_in {A} (f : A -> Eff unit) l e :
  In e (fst (forEach f l)) -> exists x, In x l /\ In e (fst (f x)).
Proof.
  induction l as [|x l IH]; simpl; [intros []|].
  intros H. apply bind_effects_in in H. destruct H as [H|(_ & _ & H)].
  - exists x. auto.
  - destruct (IH H) as (y & Hy & He). exists y. auto.
Qed.

Lemma includes_In l s : includes l s = true <-> In s l.
Proof.
  unfold includes. rewrite existsb_exists. split.
  - intros (x & Hin & Heq). apply String.eqb_eq in Heq. now subst.
  - intros H. exists s. split; [assumption|apply String.eqb_refl].
Qed.

Lemma register_types s r :
  Forall (fun e => In (EventModel.type e) availableDecoratorListenerTypes) (events s) ->
  Forall (fun h => In (EntityHandleModel.type h) handlerTypes) (handlers s) ->
  Forall (fun e => In (EventModel.type e) availableDecoratorListenerTypes)
         (events (register s r)) /\
  Forall (fun h => In (EntityHandleModel.type h) handlerTypes)
         (handlers (register s r)).
Proof.
  intros He Hh. destruct r as [type tn mn o|type tn mn o]; simpl.
  - unfold add. destruct (includes availableDecoratorListenerTypes type) eqn:Hi;
      [|auto].
    simpl. split; [|assumption]. apply Forall_app. split; [assumption|].
    constructor; [|constructor].
    exact (proj1 (includes_In availableDecoratorListenerTypes type) Hi).
  - unfold addHandlerMethods. destruct (includes handlerTypes type) eqn:Hi; [|auto].
    simpl. split; [assumption|]. apply Forall_app. split; [assumption|].
    constructor; [|constructor].
    exact (proj1 (includes_In handlerTypes type) Hi).
Qed.

Lemma registered_types_from s rs :
  Forall (fun e => In (EventModel.type e) availableDecoratorListenerTypes) (events s) ->
  Forall (fun h => In (EntityHandleModel.type h) handlerTypes) (handlers s) ->
  Forall (fun e => In (EventModel.type e) availableDecoratorListenerTypes)
         (events (fold_left register rs s)) /\
  Forall (fun h => In (EntityHandleModel.type h) handlerTypes)
         (handlers (fold_left register rs s)).
Proof.
  revert s. induction rs as [|r rs IH]; simpl; intros s He Hh; [auto|].
  destruct (register_types s r He Hh) as [He' Hh']. now apply IH.
Qed.

(** X9.  Whatever the decorators register, in whatever order, the
    service stores only events of the seven listener types and only
    handlers of the six entity handler types; a registration of any other
    type is dropped. *)
Theorem stored_types_are_listed rs :
  Forall (fun e => In (EventModel.type e) availableDecoratorListenerTypes)
         (events (registeredService rs)) /\
  Forall (fun h => In (EntityHandleModel.type h) handlerTypes)
         (handlers (registeredService rs)).
Proof. apply registered_types_from; constructor. Qed.

Lemma partition_cons {A} (key : A -> string) (h : A) (f : string -> list A) ts :
  NoDup ts -> In (key h) ts ->
  Permutation
    (flat_map (fun t => if String.eqb (key h) t then h :: f t else f t) ts)
    (h :: flat_map f ts).
Proof.
  induction ts as [|t ts IH]; simpl; intros Hnd Hin; [destruct Hin|].
  inversion Hnd as [|? ? Hnin Hnd']; subst.
  destruct (String.eqb_spec (key h) t) as [Heq|Hneq].
  - simpl. constructor.
    replace (flat_map (fun t0 => if String.eqb (key h) t0 then h :: f t0 else f t0) ts)
      with (flat_map f ts); [reflexivity|].
    clear IH Hnd Hnd' Hin. induction ts as [|t0 ts IH0]; simpl; [reflexivity|].
    destruct (String.eqb_spec (key h) t0) as [Heq0|_].
    + exfalso. apply Hnin. left. congruence.
    + f_equal. apply IH0. intros H. apply Hnin. now right.
  - destruct Hin as [Hin|Hin]; [congruence|].
    rewrite (IH Hnd' Hin). symmetry. apply Permutation_middle.
Qed.

Lemma partition_perm {A} (key : A -> string) ts (l : list A) :
  NoDup ts -> Forall (fun h => In (key h) ts) l ->
  Permutation (flat_map (fun t => filter (fun h => String.eqb (key h) t) l) ts) l.
Proof.
  intros Hnd. induction 1 as [|h l Hh _ IH]; simpl.
  - induction ts as [|t ts IHts]; simpl; [constructor|].
    inversion Hnd; subst. auto.
  - eapply Permutation_trans; [|apply perm_skip; exact IH].
    eapply Permutation_trans;
      [|apply (partition_cons key h
                 (fun t => filter (fun h0 => String.eqb (key h0) t) l) ts Hnd Hh)].
    apply Permutation_refl'. apply flat_map_ext. intros t.
    now destruct (String.eqb (key h) t).
Qed.

Lemma handlerTypes_NoDup : NoDup handlerTypes.
Proof.
  unfold handlerTypes.
  repeat (constructor; [simpl; intros H; repeat destruct H as [H|H];
                        try discriminate H; try exact H|]).
  constructor.
Qed.

Lemma startEntityHandle_listened s :
  startEntityHandle s
  = (flat_map (fun type =>
                 if Nat.eqb (List.length (getHandler type s)) 0 then []
                 else [EffListen type (getHandler type s)]) handlerTypes,
     Some tt).
Proof.
  unfold startEntityHandle. rewrite forEach_ok.
  - f_equal. apply flat_map_ext. intros t.
    now destruct (Nat.eqb (List.length (getHandler t s)) 0).
  - apply Forall_forall. intros t _.
    now destruct (Nat.eqb (List.length (getHandler t s)) 0).
Qed.

Lemma listened_getHandler s ts :
  listened
    (flat_map (fun type =>
                 if Nat.eqb (List.length (getHandler type s)) 0 then []
                 else [EffListen type (getHandler type s)]) ts)
  = flat_map (fun type => getHandler type s) ts.
Proof.
  unfold listened. induction ts as [|t ts IH]; simpl; [reflexivity|].
  rewrite flat_map_app, IH. f_equal.
  destruct (getHandler t s); simpl; [reflexivity|now rewrite app_nil_r].
Qed.

(** X10.  [startEntityHandle] returns, and hands every stored
    handler to [listenHandlerForType] exactly once: the handlers of its
    calls, taken together, are the stored handlers in some order, each
    call having the handlers of one type in the order they were
    registered. *)
Theorem startEntityHandle_hands_over_every_handler rs :
  snd (startEntityHandle (registeredService rs)) = Some tt /\
  Permutation (listened (fst (startEntityHandle (registeredService rs))))
              (handlers (registeredService rs)) /\
  forall type hs,
    In (EffListen type hs) (fst (startEntityHandle (registeredService rs))) ->
    hs <> [] /\ hs = getHandler type (registeredService rs).
Proof.
  set (s := registeredService rs).
  rewrite startEntityHandle_listened. cbn [fst snd]. split; [reflexivity|]. split.
  - rewrite listened_getHandler.
    apply (partition_perm EntityHandleModel.type handlerTypes (handlers s)
             handlerTypes_NoDup
             (proj2 (registered_types_from newService rs
                       (Forall_nil _) (Forall_nil _)))).
  - intros type hs Hin. apply in_flat_map in Hin. destruct Hin as (t & _ & Hin).
    destruct (getHandler t s) as [|h l] eqn:Hg; simpl in Hin; [destruct Hin|].
    destruct Hin as [Heq|[]]. inversion Heq; subst. rewrite Hg.
    split; [discriminate|reflexivity].
Qed.

Lemma bind_assoc {A B C} (m : Eff A) (f : A -> Eff B) (g : B -> Eff C) :
  bind (bind m f) g = bind m (fun x => bind (f x) g).
Proof.
  unfold bind. destruct m as [e [a|]]; simpl; [|reflexivity].
  destruct (f a) as [e' [b|]]; simpl; [|reflexivity].
  now rewrite app_assoc.
Qed.

Lemma startInstance_returns event instance :
  snd (startInstance event instance) = Some tt.
Proof.
  unfold startInstance. destruct (hasMethod instance _); [|reflexivity].
  now destruct (member _).
Qed.

Lemma no_done_filter l :
  (forall e, In e l -> isDoneEffect e = false) -> filter isDoneEffect l = [].
Proof.
  induction l as [|e l IH]; simpl; intros H; [reflexivity|].
  rewrite (H e) by now left. apply IH. intros e' He'. apply H. now right.
Qed.

Section AutoStart.

Variable container : Container.

Lemma startEvent_ok event :
  resolvable container event ->
  (instances <- resolveAll container (EventModel.targetName event) ;;
   forEach (startInstance event) instances)
  = (flat_map (fun i => fst (startInstance event i))
       (instancesOf container (EventModel.targetName event)), Some tt).
Proof.
  unfold resolvable, resolveAll, instancesOf. intros H.
  destruct (container (EventModel.targetName event)) as [instances|];
    [|congruence].
  unfold bind, ret. simpl. rewrite forEach_ok; [reflexivity|].
  apply Forall_forall. intros i _. apply startInstance_returns.
Qed.

Lemma startBaseMethods_ok s :
  Forall (resolvable container) (events s) ->
  startBaseMethods container s
  = (flat_map (fun event =>
                 flat_map (fun i => fst (startInstance event i))
                   (instancesOf container (EventModel.targetName event)))
       (events s), Some tt).
Proof.
  intros H. unfold startBaseMethods. rewrite forEach_ok.
  - f_equal. clear H. induction (events s) as [|e l IH]; simpl; [reflexivity|].
    rewrite IH. f_equal.
    unfold resolveAll, instancesOf, bind.
    destruct (container (EventModel.targetName e)); simpl; [|reflexivity].
    rewrite forEach_ok; [reflexivity|].
    apply Forall_forall. intros i _. apply startInstance_returns.
  - apply Forall_forall. intros e He. rewrite Forall_forall in H.
    now rewrite (startEvent_ok e (H e He)).
Qed.

Lemma startBaseMethods_throws s :
  Exists (fun event => container (EventModel.targetName event) = None) (events s) ->
  snd (startBaseMethods container s) = None.
Proof.
  intros H. unfold startBaseMethods. apply forEach_throws.
  apply Exists_exists in H. destruct H as (e & He & Hnone).
  apply Exists_exists. exists e. split; [assumption|].
  unfold resolveAll. rewrite Hnone. reflexivity.
Qed.

Lemma startInstance_effects event instance e :
  In e (fst (startInstance event instance)) ->
  hasMethod instance (EventModel.methodName event) = true /\
  match member (EventModel.type event) with
  | MemberOn => e = EffOn (EventModel.eventName event) (instanceId instance)
                      (EventModel.methodName event)
  | MemberOnce => e = EffOnce (EventModel.eventName event) (instanceId instance)
                        (EventModel.methodName event)
  | MemberUndefined => e = EffRejected (EventModel.type event)
  | MemberOther => e = EffOther (EventModel.type event) (EventModel.eventName event)
                         (instanceId instance) (EventModel.methodName event)
  end.
Proof.
  unfold startInstance. destruct (hasMethod instance _); [|intros []].
  destruct (member _); simpl; intros [<-|[]]; auto.
Qed.

Lemma startBaseMethods_effects s e :
  In e (fst (startBaseMethods container s)) ->
  exists event instance,
    In event (events s) /\
    In instance (instancesOf container (EventModel.targetName event)) /\
    In e (fst (startInstance event instance)).
Proof.
  unfold startBaseMethods. intros H. apply forEach_effects_in in H.
  destruct H as (event & Hev & H). exists event.
  apply bind_effects_in in H. unfold resolveAll, instancesOf in *.
  destruct (container (EventModel.targetName event)) as [instances|].
  - destruct H as [[]|(a & Ha & H)]. simpl in Ha. inversion Ha; subst a.
    apply forEach_effects_in in H. destruct H as (i & Hi & H). exists i. auto.
  - destruct H as [[]|(a & Ha & _)]. discriminate.
Qed.

Lemma startEntityHandle_effects s e :
  In e (fst (startEntityHandle s)) ->
  exists type, e = EffListen type (getHandler type s).
Proof.
  rewrite startEntityHandle_listened. cbn [fst]. intros H.
  apply in_flat_map in H. destruct H as (t & _ & H).
  destruct (Nat.eqb _ 0); [destruct H|]. destruct H as [<-|[]]. eauto.
Qed.

Lemma startBaseMethods_subscriptions s :
  Forall (resolvable container) (events s) ->
  startBaseMethods container s = (subscriptions container s, Some tt).
Proof. apply startBaseMethods_ok. Qed.

Lemma startBaseMethods_no_done s e :
  In e (fst (startBaseMethods container s)) -> isDoneEffect e = false.
Proof.
  intros H. apply startBaseMethods_effects in H.
  destruct H as (event & instance & _ & _ & H).
  apply startInstance_effects in H. destruct H as [_ H].
  destruct (member _); subst e; reflexivity.
Qed.

Lemma startEntityHandle_no_done s e :
  In e (fst (startEntityHandle s)) -> isDoneEffect e = false.
Proof.
  intros H. apply startEntityHandle_effects in H. destruct H as [type ->].
  reflexivity.
Qed.

Lemma autoStart_ok s :
  Forall (resolvable container) (events s) ->
  autoStart container s = (startedEffects container s ++ [EffDone], Some tt).
Proof.
  intros H. unfold autoStart, startedEffects.
  rewrite (startBaseMethods_subscriptions s H), startEntityHandle_listened.
  destruct (Nat.eqb (List.length (events s)) 0);
    destruct (Nat.eqb (List.length (handlers s)) 0);
    unfold bind, ret, emitEffect; cbn [fst snd app];
    rewrite <- ?app_assoc; cbn [app]; rewrite <- ?app_assoc; reflexivity.
Qed.

Lemma startedEffects_no_done s e :
  Forall (resolvable container) (events s) ->
  In e (startedEffects container s) -> isDoneEffect e = false.
Proof.
  intros Hres H. unfold startedEffects in H.
  assert (Hsub : subscriptions container s = fst (startBaseMethods container s))
    by (now rewrite startBaseMethods_subscriptions).
  rewrite Hsub in H.
  apply in_app_or in H. destruct H as [H|H].
  - destruct (Nat.eqb (List.length (events s)) 0); [destruct H|].
    destruct H as [<-|H]; [reflexivity|].
    apply in_app_or in H. destruct H as [H|[<-|[]]]; [|reflexivity].
    eapply startBaseMethods_no_done; eassumption.
  - destruct (Nat.eqb (List.length (handlers s)) 0); [destruct H|].
    destruct H as [<-|H]; [reflexivity|].
    apply in_app_or in H. destruct H as [H|[<-|[]]]; [|reflexivity].
    eapply startEntityHandle_no_done; eassumption.
Qed.

End AutoStart.

(** X11.  When the container has the target of every stored event
    registered, [autoStart] returns and calls [done] exactly once, as the
    last thing it does, whatever the instances have or lack. *)
Theorem autoStart_calls_done_once_at_the_end container s :
  Forall (resolvable container) (events s) ->
  exists before,
    autoStart container s = (before ++ [EffDone], Some tt) /\
    filter isDoneEffect before = [].
Proof.
  intros H. exists (startedEffects container s). split.
  - now apply autoStart_ok.
  - apply no_done_filter. intros e He.
    eapply startedEffects_no_done; eassumption.
Qed.

(** X12.  When the target of a stored event is not registered in
    the container, [resolveAll] throws inside [startBaseMethods]:
    [autoStart] throws too and never calls [done]. *)
Theorem autoStart_throws_before_done container s :
  Exists (fun event => container (EventModel.targetName event) = None) (events s) ->
  snd (autoStart container s) = None /\
  filter isDoneEffect (fst (autoStart container s)) = [].
Proof.
  intros H. pose proof (startBaseMethods_throws container s H) as Hthrow.
  assert (Hne : Nat.eqb (List.length (events s)) 0 = false).
  { destruct (events s); [inversion H|reflexivity]. }
  unfold autoStart. rewrite Hne.
  destruct (startBaseMethods container s) as [effs r] eqn:Hs. simpl in Hthrow.
  subst r. unfold bind, emitEffect. cbn [fst snd app]. split; [reflexivity|].
  apply no_done_filter. intros e [<-|He]; [reflexivity|].
  apply (startBaseMethods_no_done container s). now rewrite Hs.
Qed.

End EventService.

Lemma autoStart_calls_done_once_at_the_end_witness :
  exists before,
    BaseEventService.autoStart BaseEventService.sampleContainer
      (BaseEventService.registeredService BaseEventService.sampleRegistrations)
    = (before ++ [BaseEventService.EffDone], Some tt) /\
    filter BaseEventService.isDoneEffect before = [].
Proof.
  apply (autoStart_calls_done_once_at_the_end BaseEventService.sampleContainer
           (BaseEventService.registeredService BaseEventService.sampleRegistrations)).
  vm_compute. repeat constructor; discriminate.
Defined.

Lemma autoStart_throws_before_done_witness :
  snd (BaseEventService.autoStart BaseEventService.emptyContainer
         (BaseEventService.registeredService BaseEventService.sampleRegistrations))
  = None /\
  filter BaseEventService.isDoneEffect
    (fst (BaseEventService.autoStart BaseEventService.emptyContainer
            (BaseEventService.registeredService BaseEventService.sampleRegistrations)))
  = [].
Proof.
  apply (autoStart_throws_before_done BaseEventService.emptyContainer
           (BaseEventService.registeredService BaseEventService.sampleRegistrations)).
  apply Exists_cons_hd. reflexivity.
Defined.

Section Subscriptions.

Import BaseEventService.

Variable container : Container.









End Subscriptions.


(** ** Entity handlers *)

Section MetaChange.

Import BaseEventService.

Variable container : Container.

Lemma callInstances_same entity m instances args e :
  In e (fst (callInstances entity m false instances args)) ->
  exists i, e = EffCall i m entity args.
Proof.
  induction instances as [|instance rest IH]; simpl; [intros []|].
  destruct (hasMethod instance m); [|intros []].
  intros H. apply bind_effects_in in H.
  destruct H as [[<-|[]]|(_ & _ & H)]; eauto.
Qed.

Lemma callInstances_same_args entity m instances args args' :
  snd (callInstances entity m false instances args) = Some args' -> args' = args.
Proof.
  induction instances as [|instance rest IH]; simpl; [congruence|].
  destruct (hasMethod instance m); [|discriminate].
  unfold bind at 1. simpl. exact IH.
Qed.

Lemma handleHandlers_same entity entityType handlers args e :
  In e (fst (handleHandlers container entity entityType false handlers args)) ->
  exists i m, e = EffCall i m entity args.
Proof.
  induction handlers as [|h rest IH]; simpl; [intros []|].
  destruct (isEntityType entityType _); [|exact IH].
  intros H. apply bind_effects_in in H. destruct H as [H|(instances & _ & H)].
  - unfold resolveAll in H. destruct (container _); destruct H.
  - apply bind_effects_in in H. destruct H as [H|(args' & Ha & H)].
    + apply callInstances_same in H. destruct H as [i ->]. eauto.
    + apply callInstances_same_args in Ha. subst args'. auto.
Qed.

(** X15.  For an event that is not a meta change every handler
    method that [handleMetaChangeMethods] calls gets the entity and the
    arguments of the event as they came. *)
Theorem plain_event_passes_arguments_on entity entityType handlers args e :
  In e (fst (handleMetaChangeMethods container entity entityType handlers false args)) ->
  exists i m, e = EffCall i m entity args.
Proof.
  unfold handleMetaChangeMethods. intros H. apply bind_effects_in in H.
  destruct H as [H|(_ & _ & [])].
  eapply handleHandlers_same; eassumption.
Qed.

Lemma tl_skipn {A} n (l : list A) : tl (skipn n l) = skipn (S n) l.
Proof.
  revert l. induction n as [|n IH]; intros [|x l]; simpl; try reflexivity.
  apply IH.
Qed.

Lemma callInstances_shift entity m instances args n :
  Forall (fun i => hasMethod i m = true) instances ->
  callInstances entity m true instances (skipn n args)
  = (shiftedCalls entity m (S n) instances args,
     Some (skipn (n + List.length instances) args)).
Proof.
  intros H. revert n. induction H as [|instance rest Hi _ IH]; intros n; simpl.
  - now rewrite Nat.add_0_r.
  - rewrite Hi, tl_skipn, IH. unfold bind, emitEffect. simpl.
    now rewrite Nat.add_succ_r.
Qed.

(** X16.  The arguments of a meta change are one array for the
    whole call, and the meta key is shifted off it once for every
    instance, not once for the event: for a handler of the matching entity
    type and meta key, the first instance gets the arguments without the
    key, the second without the key and the argument after it, and so on;
    the [n]-th instance loses [n] arguments. *)
Theorem meta_key_is_shifted_for_every_instance entity entityType handler key rest
  instances :
  isEntityType entityType
    (ValidateOptionsModel.entity (EntityHandleModel.options handler)) = true ->
  ValidateOptionsModel.metaKey (EntityHandleModel.options handler) = Some key ->
  container (EntityHandleModel.targetName handler) = Some instances ->
  Forall (fun i => hasMethod i (EntityHandleModel.methodName handler) = true)
         instances ->
  handleMetaChangeMethods container entity entityType [handler] true
    (ArgString key :: rest)
  = (shiftedCalls entity (EntityHandleModel.methodName handler) 1 instances
       (ArgString key :: rest), Some tt).
Proof.
  intros Htype Hkey Hres Hhas.
  unfold handleMetaChangeMethods. cbn [handleHandlers].
  rewrite Htype, Hkey. unfold resolveAll. rewrite Hres.
  cbn [hasMetaKey]. rewrite String.eqb_refl. cbn [andb].
  pose proof (callInstances_shift entity (EntityHandleModel.methodName handler)
                instances (ArgString key :: rest) 0 Hhas) as Hc.
  cbn [skipn] in Hc. unfold bind, ret. cbn [fst snd app]. rewrite Hc.
  cbn [fst snd]. now rewrite !app_nil_r.
Qed.

Lemma callInstances_throws entity m shift instances args :
  Exists (fun i => hasMethod i m = false) instances ->
  snd (callInstances entity m shift instances args) = None.
Proof.
  intros H. revert args. induction H as [i rest Hi|i rest _ IH]; intros args; simpl.
  - now rewrite Hi.
  - destruct (hasMethod i m); [|reflexivity].
    unfold bind at 1. simpl. apply IH.
Qed.

Lemma callInstances_calls entity m shift instances args e :
  In e (fst (callInstances entity m shift instances args)) ->
  exists i a, e = EffCall i m entity a.
Proof.
  revert args. induction instances as [|instance rest IH]; intros args; simpl;
    [intros []|].
  destruct (hasMethod instance m); [|intros []].
  intros H. apply bind_effects_in in H.
  destruct H as [[<-|[]]|(_ & _ & H)]; eauto.
Qed.

(** X17.  Unlike [autoStart], which skips an instance
    without the method, [handleMetaChangeMethods] binds the method
    unguarded: when an instance of a handler of the matching entity type
    lacks the method, the call throws, and the handlers after it are not
    called at all. *)
Theorem handler_without_method_throws entity entityType handler later isMetaChange
  args instances :
  isEntityType entityType
    (ValidateOptionsModel.entity (EntityHandleModel.options handler)) = true ->
  container (EntityHandleModel.targetName handler) = Some instances ->
  Exists (fun i => hasMethod i (EntityHandleModel.methodName handler) = false)
         instances ->
  snd (handleMetaChangeMethods container entity entityType (handler :: later)
         isMetaChange args) = None /\
  forall e,
    In e (fst (handleMetaChangeMethods container entity entityType
                 (handler :: later) isMetaChange args)) ->
    exists i a, e = EffCall i (EntityHandleModel.methodName handler) entity a.
Proof.
  intros Htype Hres Hex.
  unfold handleMetaChangeMethods. cbn [handleHandlers].
  rewrite Htype. unfold resolveAll. rewrite Hres.
  set (shift := isMetaChange && _).
  pose proof (callInstances_throws entity (EntityHandleModel.methodName handler)
                shift instances args Hex) as Hthrow.
  unfold bind, ret. cbn [fst snd app]. rewrite Hthrow. cbn [fst snd].
  split; [reflexivity|]. intros e He.
  eapply callInstances_calls; eassumption.
Qed.

End MetaChange.

Lemma plain_event_passes_arguments_on_witness :
  exists i m,
    BaseEventService.EffCall 3 "onFuel" 7 BaseEventService.sampleArgs
    = BaseEventService.EffCall i m 7 BaseEventService.sampleArgs.
Proof.
  apply (plain_event_passes_arguments_on BaseEventService.sampleContainer 7 1%Z
           [BaseEventService.sampleHandler] BaseEventService.sampleArgs).
  vm_compute. right. left. reflexivity.
Defined.

Lemma meta_key_is_shifted_for_every_instance_witness :
  BaseEventService.handleMetaChangeMethods BaseEventService.sampleContainer 7 1%Z
    [BaseEventService.sampleHandler] true BaseEventService.sampleArgs
  = ([BaseEventService.EffCall 2 "onFuel" 7
        [BaseEventService.ArgNumber 80; BaseEventService.ArgNumber 60];
      BaseEventService.EffCall 3 "onFuel" 7 [BaseEventService.ArgNumber 60]],
     Some tt).
Proof.
  apply (meta_key_is_shifted_for_every_instance BaseEventService.sampleContainer
           7 1%Z BaseEventService.sampleHandler "fuel"
           [BaseEventService.ArgNumber 80; BaseEventService.ArgNumber 60]
           [BaseEventService.mkInstance 2 (fun _ => true);
            BaseEventService.mkInstance 3 (fun _ => true)]).
  - reflexivity.
  - reflexivity.
  - reflexivity.
  - repeat constructor.
Defined.

Lemma handler_without_method_throws_witness :
  snd (BaseEventService.handleMetaChangeMethods BaseEventService.sampleContainer
         7 1%Z [BaseEventService.brokenHandler; BaseEventService.sampleHandler]
         true BaseEventService.sampleArgs) = None /\
  forall e,
    In e (fst (BaseEventService.handleMetaChangeMethods
                 BaseEventService.sampleContainer 7 1%Z
                 [BaseEventService.brokenHandler; BaseEventService.sampleHandler]
                 true BaseEventService.sampleArgs)) ->
    exists i a, e = BaseEventService.EffCall i "onFuel" 7 a.
Proof.
  apply (handler_without_method_throws BaseEventService.sampleContainer 7 1%Z
           BaseEventService.brokenHandler [BaseEventService.sampleHandler] true
           BaseEventService.sampleArgs
           [BaseEventService.mkInstance 1
              (fun m => String.eqb m "onConnect" || String.eqb m "onSync")]).
  - reflexivity.
  - reflexivity.
  - apply Exists_cons_hd. reflexivity.
Defined.

(** * The event decorators *)

Section CmdDecorator.

Variable CONSOLE_COMMAND : string.
Variable getAtlasMetaData : string -> Metadata -> list EventModel.t.


Hypothesis getAtlasMetaData_defined :
  forall key m events, m key = Some events -> getAtlasMetaData key m = events.

Lemma not_existsb_hasEventName commandName events :
  existsb (hasEventName commandName) events = false ->
  ~ In (Some commandName) (map EventModel.eventName events).
Proof.
  intros H Hin. apply in_map_iff in Hin. destruct Hin as (e & He & Hin).
  assert (Hex : existsb (hasEventName commandName) events = true).
  { apply existsb_exists. exists e. split; [assumption|].
    unfold hasEventName. rewrite He. apply String.eqb_refl. }
  congruence.
Qed.

Lemma NoDup_snoc {A} (l : list A) x : NoDup l -> ~ In x l -> NoDup (l ++ [x]).
Proof.
  intros Hnd Hnin. induction Hnd as [|y l Hy _ IH]; simpl.
  - constructor; [intros []|constructor].
  - constructor.
    + intros H. apply in_app_or in H. destruct H as [H|[H|[]]]; [auto|].
      apply Hnin. now left.
    + apply IH. intros H. apply Hnin. now right.
Qed.

Lemma Cmd_keeps_distinct name targetName propertyKey m events :
  m CONSOLE_COMMAND = Some events ->
  NoDup (map EventModel.eventName events) ->
  exists m' later,
    Cmd CONSOLE_COMMAND getAtlasMetaData name targetName propertyKey m = Some m' /\
    m' CONSOLE_COMMAND = Some (events ++ later) /\
    NoDup (map EventModel.eventName (events ++ later)) /\
    In (Some (nameOr name propertyKey)) (map EventModel.eventName (events ++ later)).
Proof.
  intros Hm Hnd. unfold Cmd, getMetadata. rewrite Hm.
  destruct (existsb (hasEventName (nameOr name propertyKey)) events) eqn:Hex.
  - exists m, []. rewrite app_nil_r. repeat split; auto.
    apply existsb_exists in Hex. destruct Hex as (e & He & Hn).
    apply in_map_iff. exists e. split; [|assumption].
    unfold hasEventName in Hn. destruct (EventModel.eventName e) as [n|];
      [|discriminate].
    apply String.eqb_eq in Hn. now subst.
  - eexists. eexists [_]. split; [reflexivity|].
    unfold setEventServiceReflectMetaData, defineMetadata.
    rewrite String.eqb_refl, (getAtlasMetaData_defined _ _ _ Hm).
    split; [reflexivity|]. rewrite map_app. simpl. split.
    + apply NoDup_snoc; [assumption|]. now apply not_existsb_hasEventName.
    + apply in_or_app. right. now left.
Qed.

(** X19.  Given that [getAtlasMetaData] hands out the list that
    is defined under the key, the [Cmd] decorators keep the names of the
    console commands distinct: on metadata whose names are distinct they
    never throw, they only append, the names stay distinct, and every
    command name of the program is recorded; of two commands of one name
    the first stays and the second is dropped. *)
Theorem Cmd_keeps_command_names_distinct cmds m events :
  m CONSOLE_COMMAND = Some events ->
  NoDup (map EventModel.eventName events) ->
  exists m' later,
    applyCmds CONSOLE_COMMAND getAtlasMetaData cmds m = Some m' /\
    m' CONSOLE_COMMAND = Some (events ++ later) /\
    NoDup (map EventModel.eventName (events ++ later)) /\
    forall name targetName propertyKey,
      In (name, targetName, propertyKey) cmds ->
      In (Some (nameOr name propertyKey))
         (map EventModel.eventName (events ++ later)).
Proof.
  revert m events. induction cmds as [|[[name targetName] propertyKey] cmds IH];
    intros m events Hm Hnd.
  - exists m, []. rewrite app_nil_r. repeat split; auto. intros ? ? ? [].
  - destruct (Cmd_keeps_distinct name targetName propertyKey m events Hm Hnd)
      as (m1 & later1 & Hcmd & Hm1 & Hnd1 & Hin1).
    destruct (IH m1 (events ++ later1) Hm1 Hnd1)
      as (m2 & later2 & Hrun & Hm2 & Hnd2 & Hin2).
    exists m2, (later1 ++ later2). simpl. rewrite Hcmd.
    rewrite app_assoc. repeat split; auto.
    intros n t k [Heq|Hin]; [|eauto].
    inversion Heq; subst. rewrite map_app. apply in_or_app. now left.
Qed.

End CmdDecorator.

Lemma storedOrEmpty_defined key m events :
  m key = Some events -> storedOrEmpty key m = events.
Proof. intros H. unfold storedOrEmpty. now rewrite H. Qed.


Lemma Cmd_keeps_command_names_distinct_witness :
  exists m' later,
    applyCmds "consoleCommand" storedOrEmpty sampleCmds
      (defineMetadata "consoleCommand" [] (fun _ => None)) = Some m' /\
    m' "consoleCommand"%string = Some ([] ++ later) /\
    NoDup (map EventModel.eventName ([] ++ later)) /\
    forall name targetName propertyKey,
      In (name, targetName, propertyKey) sampleCmds ->
      In (Some (nameOr name propertyKey)) (map EventModel.eventName ([] ++ later)).
Proof.
  apply (Cmd_keeps_command_names_distinct "consoleCommand" storedOrEmpty
           storedOrEmpty_defined
           sampleCmds (defineMetadata "consoleCommand" [] (fun _ => None)) []).
  - reflexivity.
  - constructor.
Defined.

Section OnDecorator.

Variable ON : string.
Variable getAtlasMetaData : string -> Metadata -> list EventModel.t.

Hypothesis getAtlasMetaData_defined :
  forall key m events, m key = Some events -> getAtlasMetaData key m = events.

(** X20.  Given that [getAtlasMetaData] hands out the list that
    is defined under the key, [On] records every listener, unlike [Cmd]:
    the decorators of a program append one event each, in their order,
    two listeners of one event name both stay, and a listener without a
    name, or with the empty name, goes under the name of its method. *)
Theorem On_records_every_listener ons m events :
  m ON = Some events ->
  applyOns ON getAtlasMetaData ons m ON = Some (events ++ map onEvent ons).
Proof.
  revert m events. induction ons as [|[[name targetName] propertyKey] ons IH];
    intros m events Hm; simpl.
  - now rewrite app_nil_r.
  - change (applyOns ON getAtlasMetaData ons
              (On ON getAtlasMetaData name targetName propertyKey m) ON
            = Some (events ++ onEvent (name, targetName, propertyKey)
                              :: map onEvent ons)).
    rewrite (IH _ (events ++ [onEvent (name, targetName, propertyKey)])).
    + now rewrite <- app_assoc.
    + unfold On, setEventServiceReflectMetaData, defineMetadata.
      rewrite String.eqb_refl, (getAtlasMetaData_defined _ _ _ Hm). reflexivity.
Qed.

End OnDecorator.

Lemma On_records_every_listener_witness :
  applyOns "on" storedOrEmpty sampleCmds (defineMetadata "on" [] (fun _ => None))
    "on"%string
  = Some ([] ++ map onEvent sampleCmds).
Proof.
  apply (On_records_every_listener "on" storedOrEmpty storedOrEmpty_defined
           sampleCmds (defineMetadata "on" [] (fun _ => None)) []).
  reflexivity.
Defined.
